(** * Quantbio / qemd: the quantum simulation core, embedded in Rocq

    Shallow embedding of [qemd/config.py], [qemd/simulate.py] and
    [qemd/metrics.py].

    Numbers.  A Python / numpy [float] is modelled by [PyFloat.float]: an
    exact rational for every finite value, plus the three IEEE-754 special
    values [+inf], [-inf] and [nan] with their propagation rules.  The
    operations of [PyFloat] are exact on finite values.  Where a result
    depends on how an operation rounds or overflows (the length of the time
    grid, the order of two efficiencies) the operations of [Binary64] are
    used: the exact result rounded to the nearest double.  The sign of zero
    is not modelled.

    Arrays.  A numpy 2-d array is a shape and a row-major buffer
    ([Numpy.matrix]); a 1-d array is a list.  Exceptions are values of
    [result].  The two library routines that have no rational model,
    [np.sqrt] and [scipy.linalg.expm], are section variables. *)

From Stdlib Require Import QArith Qround Qabs Qpower Qreduction ZArith List
  Bool Arith Lia Lqa.
Import ListNotations.

Set Implicit Arguments.

Open Scope nat_scope.

(** ** Exceptions *)

Inductive exn : Type :=
| IndexError
| ValueError
| ZeroDivisionError
| OverflowError.

Inductive result (A : Type) : Type :=
| Ok (a : A)
| Raise (e : exn).

Arguments Ok {A} a.
Arguments Raise {A} e.

Definition bind {A B : Type} (m : result A) (k : A -> result B) : result B :=
  match m with
  | Ok a => k a
  | Raise e => Raise e
  end.

Declare Scope result_scope.
Delimit Scope result_scope with result.
Notation "x <- m ;; k" := (bind m (fun x => k))
  (at level 61, m at next level, right associativity) : result_scope.
Notation "' p <- m ;; k" := (bind m (fun p => k))
  (at level 61, p pattern, m at next level, right associativity) : result_scope.
Open Scope result_scope.

(** [for x in l: s = body(x, s)], stopping at the first exception. *)
Fixpoint for_each {X S : Type} (body : X -> S -> result S) (l : list X) (s : S)
  : result S :=
  match l with
  | [] => Ok s
  | x :: l' => s' <- body x s ;; for_each body l' s'
  end.

(** [range(n)] *)
Definition range (n : nat) : list nat := seq 0 n.

(** [l[i]] for a non-negative index. *)
Definition index {A : Type} (l : list A) (i : nat) : result A :=
  match nth_error l i with
  | Some a => Ok a
  | None => Raise IndexError
  end.

(** [l] with position [i] replaced (unchanged when [i] is out of range). *)
Fixpoint update {A : Type} (l : list A) (i : nat) (v : A) : list A :=
  match l, i with
  | [], _ => []
  | _ :: l', O => v :: l'
  | a :: l', S i' => a :: update l' i' v
  end.

(** ** Floating-point values *)

Module PyFloat.

Local Open Scope Q_scope.

Inductive float : Type :=
| Fin (q : Q)
| PInf
| NInf
| NaN.

Definition zero : float := Fin 0.
Definition one : float := Fin 1.

Definition isfinite (x : float) : bool :=
  match x with Fin _ => true | _ => false end.

Definition isnan (x : float) : bool :=
  match x with NaN => true | _ => false end.

(** Sign of a rational, used for [inf * x] and [x / 0]. *)
Definition Qsign (q : Q) : comparison := (q ?= 0)%Q.

Definition fneg (x : float) : float :=
  match x with
  | Fin q => Fin (- q)
  | PInf => NInf
  | NInf => PInf
  | NaN => NaN
  end.

Definition fadd (x y : float) : float :=
  match x, y with
  | NaN, _ | _, NaN => NaN
  | Fin a, Fin b => Fin (a + b)
  | PInf, NInf | NInf, PInf => NaN
  | PInf, _ | _, PInf => PInf
  | NInf, _ | _, NInf => NInf
  end.

Definition fsub (x y : float) : float := fadd x (fneg y).

(** [s * inf] for a finite factor of sign [s]. *)
Definition inf_of_sign (s : comparison) (pos : bool) : float :=
  match s with
  | Eq => NaN
  | Gt => if pos then PInf else NInf
  | Lt => if pos then NInf else PInf
  end.

Definition fmul (x y : float) : float :=
  match x, y with
  | NaN, _ | _, NaN => NaN
  | Fin a, Fin b => Fin (a * b)
  | Fin a, PInf | PInf, Fin a => inf_of_sign (Qsign a) true
  | Fin a, NInf | NInf, Fin a => inf_of_sign (Qsign a) false
  | PInf, PInf | NInf, NInf => PInf
  | PInf, NInf | NInf, PInf => NInf
  end.

(** IEEE division, as numpy scalars divide ([x / 0] is an infinity or [nan]).
    The divisions of [metrics.py] are all guarded: their divisor is never
    zero. *)
Definition fdiv (x y : float) : float :=
  match x, y with
  | NaN, _ | _, NaN => NaN
  | Fin a, Fin b =>
      match Qsign b with
      | Eq => inf_of_sign (Qsign a) true
      | _ => Fin (a / b)
      end
  | Fin _, (PInf | NInf) => Fin 0
  | PInf, Fin b => match Qsign b with Lt => NInf | _ => PInf end
  | NInf, Fin b => match Qsign b with Lt => PInf | _ => NInf end
  | (PInf | NInf), (PInf | NInf) => NaN
  end.

(** Comparisons: every comparison with [nan] is false. *)
Definition fle (x y : float) : bool :=
  match x, y with
  | NaN, _ | _, NaN => false
  | Fin a, Fin b => Qle_bool a b
  | NInf, _ => true
  | _, PInf => true
  | _, _ => false
  end.

Definition flt (x y : float) : bool :=
  match x, y with
  | NaN, _ | _, NaN => false
  | Fin a, Fin b => negb (Qle_bool b a)
  | PInf, _ => false
  | _, NInf => false
  | _, _ => true
  end.

Definition fgt (x y : float) : bool := flt y x.

(** [x == y] *)
Definition feq (x y : float) : bool :=
  match x, y with
  | Fin a, Fin b => Qeq_bool a b
  | PInf, PInf | NInf, NInf => true
  | _, _ => false
  end.

(** Python's builtin [max(a, b)]: [b] if [b > a], else [a]. *)
Definition pymax (a b : float) : float := if fgt b a then b else a.

(** [np.maximum] and [np.minimum]: a [nan] operand gives [nan]. *)
Definition np_maximum (a b : float) : float :=
  match a, b with
  | NaN, _ | _, NaN => NaN
  | _, _ => if fle a b then b else a
  end.

Definition np_minimum (a b : float) : float :=
  match a, b with
  | NaN, _ | _, NaN => NaN
  | _, _ => if fle a b then a else b
  end.

(** [np.clip(x, lo, hi)] = [minimum(maximum(x, lo), hi)] *)
Definition np_clip (x lo hi : float) : float :=
  np_minimum (np_maximum x lo) hi.

(** [np.nan_to_num(x, nan=0.0, posinf=0.0, neginf=0.0)] on one value. *)
Definition nan_to_num0 (x : float) : float :=
  match x with Fin q => Fin q | _ => zero end.

(** [sum] of a list, accumulated from the left starting at [0.0]. *)
Definition fsum (l : list float) : float := fold_left fadd l zero.

(** The float of a non-negative Python [int]. *)
Definition of_nat (n : nat) : float := Fin (inject_Z (Z.of_nat n)).

Local Close Scope Q_scope.

End PyFloat.

Import PyFloat.

Declare Scope float_scope.
Delimit Scope float_scope with float.
Infix "+" := fadd : float_scope.
Infix "-" := fsub : float_scope.
Infix "*" := fmul : float_scope.
Infix "/" := fdiv : float_scope.
Notation "- x" := (fneg x) : float_scope.

(** ** Arithmetic on doubles

    The operations of Python and numpy on [float]s, as IEEE-754 binary64
    carries them out: the exact result, rounded to the nearest double, ties
    to even, with overflow to an infinity. *)

Module Binary64.

Local Open Scope Q_scope.

(** [floor(log2 q)] for [q > 0]. *)
Definition ilog2 (q : Q) : Z :=
  let e := (Z.log2 (Qnum q) - Z.log2 (Z.pos (Qden q)))%Z in
  if Qle_bool (2 ^ e) q then e else (e - 1)%Z.

(** The nearest integer, ties to even. *)
Definition nearest_even (x : Q) : Z :=
  let f := Qfloor x in
  match ((x - inject_Z f) ?= (1 # 2))%Q with
  | Lt => f
  | Gt => (f + 1)%Z
  | Eq => if Z.even f then f else (f + 1)%Z
  end.

(** The exponent of the binade of [a > 0]; subnormal numbers share the
    exponent [-1022]. *)
Definition exponent (a : Q) : Z := Z.max (ilog2 a) (-1022).

(** The spacing of the doubles in the binade of [a]: 53 significant bits. *)
Definition ulp (a : Q) : Q := 2 ^ (exponent a - 52).

(** The multiple of [ulp a] nearest to [a > 0]. *)
Definition nearest (a : Q) : Q :=
  inject_Z (nearest_even (a / ulp a)) * ulp a.

Definition round_pos (a : Q) : float :=
  if Qle_bool (2 ^ 1024) (nearest a) then PInf else Fin (Qred (nearest a)).

(** The double nearest to the rational [q]. *)
Definition round (q : Q) : float :=
  let q' := Qred q in
  match q' ?= 0 with
  | Eq => Fin 0
  | Gt => round_pos q'
  | Lt => fneg (round_pos (- q'))
  end.

(** [x + y], [x - y], [x * y] and [x / y] on doubles: the special values
    behave as in [PyFloat]. *)
Definition add (x y : float) : float :=
  match x, y with
  | Fin a, Fin b => round (a + b)
  | _, _ => fadd x y
  end.

Definition sub (x y : float) : float := add x (fneg y).

Definition mul (x y : float) : float :=
  match x, y with
  | Fin a, Fin b => round (a * b)
  | _, _ => fmul x y
  end.

Definition div (x y : float) : float :=
  match x, y with
  | Fin a, Fin b =>
      match Qsign b with
      | Eq => fdiv x y
      | _ => round (a / b)
      end
  | _, _ => fdiv x y
  end.

(** [float(i)] for a non-negative integer [i]. *)
Definition of_nat (i : nat) : float := round (inject_Z (Z.of_nat i)).

(** [q] is the value of a double. *)
Definition representable (q : Q) : Prop := feq (round q) (Fin q) = true.


(** A value that is finite and not negative, or [+inf]. *)
Definition nonneg (x : float) : Prop :=
  match x with
  | Fin q => 0 <= q
  | PInf => True
  | _ => False
  end.

Local Close Scope Q_scope.

End Binary64.

(** ** A square root to run the model with

    [np.sqrt] has no exact rational model.  Where the model has to run, this
    stand-in is used: the square root rounded down to six decimal places,
    exact on the squares of such numbers. *)

Definition approx_sqrt (x : float) : float :=
  match x with
  | Fin q =>
      if Qle_bool 0 q
      then Fin (Z.sqrt (Qfloor (q * 1000000000000)) # 1000000)
      else NaN
  | PInf => PInf
  | NInf => NaN
  | NaN => NaN
  end.

(** ** Complex values *)

Module PyComplex.

Record complex : Type := Cplx { re : float; im : float }.

Definition czero : complex := Cplx zero zero.
Definition cone : complex := Cplx one zero.

(** [complex(x)]: the conversion [astype(complex)] applies to each entry. *)
Definition of_float (x : float) : complex := Cplx x zero.

Definition cadd (x y : complex) : complex :=
  Cplx (re x + re y)%float (im x + im y)%float.

Definition csub (x y : complex) : complex :=
  Cplx (re x - re y)%float (im x - im y)%float.

Definition cmul (x y : complex) : complex :=
  Cplx (re x * re y - im x * im y)%float (re x * im y + im x * re y)%float.

Definition cconj (x : complex) : complex := Cplx (re x) (- im x)%float.

Definition cisfinite (x : complex) : bool := isfinite (re x) && isfinite (im x).

Definition cnan_to_num0 (x : complex) : complex :=
  Cplx (nan_to_num0 (re x)) (nan_to_num0 (im x)).

End PyComplex.

Import PyComplex.

(** ** numpy arrays *)

Module Numpy.

(** A 2-d array: its shape and its buffer in row-major order. *)
Record matrix (A : Type) : Type :=
  Mat { nrows : nat; ncols : nat; data : list A }.

Section Generic.
Context {A : Type}.

Definition wf (M : matrix A) : Prop :=
  length (data M) = nrows M * ncols M.

Definition shape (M : matrix A) : nat * nat := (nrows M, ncols M).

(** The [r] by [c] array whose entry [(i, j)] is [f i j]. *)
Definition mbuild (r c : nat) (f : nat -> nat -> A) : matrix A :=
  Mat r c (map (fun k => f (k / c) (k mod c)) (seq 0 (r * c))).

(** Entry [(i, j)], with a default outside the buffer. *)
Definition mget (d : A) (M : matrix A) (i j : nat) : A :=
  nth (i * ncols M + j) (data M) d.

(** [M[i, j]] *)
Definition getitem (M : matrix A) (i j : nat) : result A :=
  if (i <? nrows M) && (j <? ncols M)
  then index (data M) (i * ncols M + j)
  else Raise IndexError.

(** [M[i, j] = v] *)
Definition setitem (M : matrix A) (i j : nat) (v : A) : result (matrix A) :=
  if (i <? nrows M) && (j <? ncols M)
  then Ok (Mat (nrows M) (ncols M) (update (data M) (i * ncols M + j) v))
  else Raise IndexError.

(** [np.zeros((r, c))] *)
Definition np_zeros (z : A) (r c : nat) : matrix A := mbuild r c (fun _ _ => z).

(** [M.T] *)
Definition transpose (d : A) (M : matrix A) : matrix A :=
  mbuild (ncols M) (nrows M) (fun i j => mget d M j i).

End Generic.

Definition mmap {A B : Type} (f : A -> B) (M : matrix A) : matrix B :=
  Mat (nrows M) (ncols M) (map f (data M)).

(** [np.diag(v)] for a 1-d [v] *)
Definition np_diag (v : list float) : matrix float :=
  mbuild (length v) (length v)
    (fun i j => if i =? j then nth i v zero else zero).

(** [M.astype(complex)] *)
Definition astype_complex (M : matrix float) : matrix complex :=
  mmap of_float M.

(** [M.conj()] *)
Definition conj (M : matrix complex) : matrix complex := mmap cconj M.

(** [np.identity(n, dtype=complex)] *)
Definition np_identity (n : nat) : matrix complex :=
  mbuild n n (fun i j => if i =? j then cone else czero).

(** [np.kron(A, B)] *)
Definition np_kron (A B : matrix complex) : matrix complex :=
  mbuild (nrows A * nrows B) (ncols A * ncols B)
    (fun i j => cmul (mget czero A (i / nrows B) (j / ncols B))
                     (mget czero B (i mod nrows B) (j mod ncols B))).

(** Broadcasting of one dimension: equal sizes, or one of them is 1. *)
Definition broadcast_dim (a b : nat) : result nat :=
  if a =? b then Ok a
  else if a =? 1 then Ok b
  else if b =? 1 then Ok a
  else Raise ValueError.

(** The index into a dimension of size [n] that position [i] of the
    broadcast result reads. *)
Definition bidx (n i : nat) : nat := if n =? 1 then 0 else i.

(** An elementwise binary operator on two 2-d arrays, with broadcasting. *)
Definition elementwise (f : complex -> complex -> complex)
  (A B : matrix complex) : result (matrix complex) :=
  r <- broadcast_dim (nrows A) (nrows B) ;;
  c <- broadcast_dim (ncols A) (ncols B) ;;
  Ok (mbuild r c (fun i j =>
        f (mget czero A (bidx (nrows A) i) (bidx (ncols A) j))
          (mget czero B (bidx (nrows B) i) (bidx (ncols B) j)))).

(** [A + B] and [A - B] *)
Definition madd := elementwise cadd.
Definition msub := elementwise csub.

(** The value an in-place [A += B] leaves in [A]: [B] must broadcast to the
    shape of [A]. *)
Definition iadd_value (A B : matrix complex) : result (matrix complex) :=
  S <- madd A B ;;
  if (nrows S =? nrows A) && (ncols S =? ncols A) then Ok S
  else Raise ValueError.

(** [s * A] for a scalar [s] *)
Definition scale (s : complex) (A : matrix complex) : matrix complex :=
  mmap (cmul s) A.

(** [A * s] for a scalar [s] *)
Definition scale_right (A : matrix complex) (s : complex) : matrix complex :=
  mmap (fun z => cmul z s) A.

(** Row [i] and column [j] of an array, as lists. *)
Definition row (A : matrix complex) (i : nat) : list complex :=
  map (mget czero A i) (seq 0 (ncols A)).

Definition col (A : matrix complex) (j : nat) : list complex :=
  map (fun i => mget czero A i j) (seq 0 (nrows A)).

(** The inner product of two lists of equal length. *)
Definition dot (u v : list complex) : complex :=
  fold_left cadd (map (fun p => cmul (fst p) (snd p)) (combine u v)) czero.

(** [A @ B] for 2-d arrays *)
Definition mmul (A B : matrix complex) : matrix complex :=
  mbuild (nrows A) (ncols B) (fun i j => dot (row A i) (col B j)).

Definition matmul (A B : matrix complex) : result (matrix complex) :=
  if ncols A =? nrows B then Ok (mmul A B) else Raise ValueError.

(** [A @ v] for a 2-d [A] and a 1-d [v] *)
Definition matvec (A : matrix complex) (v : list complex) : result (list complex) :=
  if ncols A =? length v
  then Ok (map (fun i => dot (row A i) v) (seq 0 (nrows A)))
  else Raise ValueError.

(** An elementwise binary operator on two 1-d arrays, with broadcasting. *)
Definition elementwise1 (f : float -> float -> float) (u v : list float)
  : result (list float) :=
  n <- broadcast_dim (length u) (length v) ;;
  Ok (map (fun i => f (nth (bidx (length u) i) u zero)
                      (nth (bidx (length v) i) v zero)) (seq 0 n)).

(** [np.diff(x)] = [x[1:] - x[:-1]] *)
Definition np_diff (x : list float) : result (list float) :=
  elementwise1 fsub (tl x) (removelast x).

(** [np.trapz(y, x)] = [(diff(x) * (y[1:] + y[:-1]) / 2.0).sum()] *)
Definition np_trapz (y x : list float) : result float :=
  d <- np_diff x ;;
  s <- elementwise1 fadd (tl y) (removelast y) ;;
  p <- elementwise1 fmul d s ;;
  Ok (fsum (map (fun t => t / Fin 2)%float p)).

(** The largest and the smallest [npy_intp]. *)
Definition NPY_MAX_INTP : Z := (2 ^ 63 - 1)%Z.
Definition NPY_MIN_INTP : Z := (- 2 ^ 63)%Z.

(** The length of [np.arange(start, stop, step, dtype=float)] for Python
    floats: [ceil((stop - start) / step)], computed on doubles.  A zero step
    raises in the division of the two Python floats.  A quotient that is
    [nan], or whose ceiling is not an [npy_intp], is rejected.  A quotient
    that is zero though [stop - start] is not (underflow, or an infinite
    step) counts as one element when it is positive and none when it is
    negative.  An array of more bytes than [NPY_MAX_INTP] is rejected; that
    the machine has the memory for a smaller one is assumed, as for every
    array of the model. *)
Definition arange_length (start stop step : float) : result nat :=
  let next := Binary64.sub stop start in
  if feq step zero then Raise ZeroDivisionError
  else
    match Binary64.div next step with
    | NaN => Raise ValueError
    | PInf | NInf => Raise OverflowError
    | Fin value =>
        let len := Qceiling value in
        if (len <? NPY_MIN_INTP)%Z || (NPY_MAX_INTP <? len)%Z
        then Raise OverflowError
        else
          let len :=
            if Qeq_bool value 0 && negb (feq next zero)
            then if Bool.eqb (flt zero next) (flt zero step) then 1%Z else 0%Z
            else len in
          if (NPY_MAX_INTP <? 8 * len)%Z then Raise ValueError
          else Ok (Z.to_nat len)
    end.

(** Element [i] of the array: [start], then [next = start + step], then
    [start + i * delta] with [delta = next - start]. *)
Definition arange_item (start next delta : float) (i : nat) : float :=
  match i with
  | 0 => start
  | 1 => next
  | _ => Binary64.add start (Binary64.mul (Binary64.of_nat i) delta)
  end.

Definition np_arange (start stop step : float) : result (list float) :=
  n <- arange_length start stop step ;;
  let next := Binary64.add start step in
  let delta := Binary64.sub next start in
  Ok (map (arange_item start next delta) (seq 0 n)).

(** *** A matrix exponential to run the model with

    [scipy.linalg.expm] has no exact rational model.  Where the model has to
    run, this stand-in is used: the exponential series cut after its
    second-order term, [I + A + A @ A / 2]. *)
Definition expm_taylor2 (A : matrix complex) : matrix complex :=
  mbuild (nrows A) (ncols A)
    (fun i j =>
       cadd (cadd (mget czero (np_identity (nrows A)) i j) (mget czero A i j))
            (cmul (of_float (Fin (1 # 2))) (mget czero (mmul A A) i j))).

End Numpy.

Import Numpy.

(** ** qemd/config.py *)

Module Config.

Definition NUM_ETC_SITES : nat := 7.
Definition TIME_END : float := Fin 500%Q.
Definition DT : float := Fin (5 # 100)%Q.
Definition K_SINK : float := Fin (3 # 100)%Q.
Definition K_LOSS : float := Fin (5 # 1000)%Q.
Definition SINK_INDEX : nat := NUM_ETC_SITES - 1.

End Config.

(** ** qemd/simulate.py: the Hamiltonian builder *)

Module Hamiltonian.

(** The body of [for i in range(N - 1)]. *)
Definition couple (J : list float) (i : nat) (H : matrix float)
  : result (matrix float) :=
  j <- index J i ;;
  H1 <- setitem H i (i + 1) j ;;
  j' <- index J i ;;
  setitem H1 (i + 1) i j'.

Definition build_hamiltonian (epsilon J : list float) : result (matrix complex) :=
  let N := length epsilon in
  let H := np_diag epsilon in
  H' <- for_each (couple J) (range (N - 1)) H ;;
  Ok (astype_complex H').

End Hamiltonian.

(** ** The store of array buffers

    numpy arrays are mutable objects, and several array objects can share
    one buffer (a view).  The store holds the buffers; an array object is a
    location in the store and a shape.  Arrays that are created, read and
    dropped inside one expression are plain values. *)

Module Heap.

Definition loc : Type := nat.
Definition store : Type := list (list complex).

(** A 2-d array object: a view of the whole buffer [buf] with shape
    [(nr, nc)]. *)
Record ndarray : Type := NdArray { buf : loc; nr : nat; nc : nat }.

(** A computation on the store; an exception keeps the store it reached. *)
Definition M (A : Type) : Type := store -> store * result A.

Definition ret {A : Type} (a : A) : M A := fun s => (s, Ok a).

Definition raise {A : Type} (e : exn) : M A := fun s => (s, Raise e).

Definition mbind {A B : Type} (m : M A) (k : A -> M B) : M B :=
  fun s =>
    match m s with
    | (s', Ok a) => k a s'
    | (s', Raise e) => (s', Raise e)
    end.

Definition lift {A : Type} (r : result A) : M A := fun s => (s, r).

(** A new buffer, at the first unused location. *)
Definition alloc (d : list complex) : M loc :=
  fun s => (s ++ [d], Ok (length s)).

Definition load (l : loc) : M (list complex) :=
  fun s => (s, Ok (nth l s [])).

(** Overwrite buffer [l] in place. *)
Definition write (l : loc) (d : list complex) : M unit :=
  fun s => (update s l d, Ok tt).

Declare Scope heap_scope.
Delimit Scope heap_scope with heap.
Notation "x <- m ;; k" := (mbind m (fun x => k))
  (at level 61, m at next level, right associativity) : heap_scope.
Notation "m ;;; k" := (mbind m (fun _ => k))
  (at level 61, right associativity) : heap_scope.

Local Open Scope heap_scope.

Fixpoint mfor_each {X S : Type} (body : X -> S -> M S) (l : list X) (s : S)
  : M S :=
  match l with
  | [] => ret s
  | x :: l' => s' <- body x s ;; mfor_each body l' s'
  end.

(** The value of an array object. *)
Definition read (a : ndarray) : M (matrix complex) :=
  d <- load (buf a) ;; ret (Mat (nr a) (nc a) d).

(** A new array object holding the value [m]. *)
Definition new_array (m : matrix complex) : M ndarray :=
  l <- alloc (data m) ;; ret (NdArray l (nrows m) (ncols m)).

(** [a.copy()] *)
Definition copy (a : ndarray) : M ndarray :=
  m <- read a ;; new_array m.

(** [a.flatten()]: a new 1-d array with the entries of [a]. *)
Definition flatten (a : ndarray) : M loc :=
  m <- read a ;; alloc (data m).

(** [v.reshape((r, c))] for a 1-d array [v]: a view of the same buffer. *)
Definition reshape (v : loc) (r c : nat) : M ndarray :=
  d <- load v ;;
  if length d =? r * c then ret (NdArray v r c) else raise ValueError.

(** [a += m] *)
Definition iadd (a : ndarray) (m : matrix complex) : M unit :=
  cur <- read a ;;
  new <- lift (iadd_value cur m) ;;
  write (buf a) (data new).

End Heap.

(** ** qemd/simulate.py: Lindblad operators and time evolution *)

Module Simulate.

Import Config Heap.

Section Lindblad.

(** [np.sqrt] *)
Variable np_sqrt : float -> float.

(** [A = np.zeros((n, n), dtype=complex); A[i, i] = 1.0; np.sqrt(rate) * A] *)
Definition site_operator (num_sites : nat) (rate : float) (i : nat)
  : result (matrix complex) :=
  let A := np_zeros czero num_sites num_sites in
  A' <- setitem A i i cone ;;
  Ok (scale (of_float (np_sqrt rate)) A').

Definition build_lindblad_ops (num_sites : nat) (gamma k_sink k_loss : float)
  : result (list (matrix complex)) :=
  let L_ops := [] in
  (* 1. Dephasing *)
  L_ops <- for_each (fun i L_ops =>
             L <- site_operator num_sites gamma i ;;
             Ok (L_ops ++ [L]))
           (range num_sites) L_ops ;;
  (* 2. Loss (non-productive) *)
  L_ops <- for_each (fun i L_ops =>
             if i =? SINK_INDEX then Ok L_ops
             else
               L <- site_operator num_sites k_loss i ;;
               Ok (L_ops ++ [L]))
           (range num_sites) L_ops ;;
  (* 3. Sink dissipation *)
  L <- site_operator num_sites k_sink SINK_INDEX ;;
  Ok (L_ops ++ [L]).

End Lindblad.

Section Evolution.

(** [scipy.linalg.expm] on a square array *)
Variable expm : matrix complex -> matrix complex.

Definition scipy_expm (A : matrix complex) : result (matrix complex) :=
  if nrows A =? ncols A then Ok (expm A) else Raise ValueError.

(** [-1j] *)
Definition minus_j : complex := Cplx (Fin 0) (Fin (-1)).

(** [L_H = -1j * (np.kron(I, H) - np.kron(H.T, I))] *)
Definition hamiltonian_term (N : nat) (H : matrix complex)
  : result (matrix complex) :=
  let I := np_identity N in
  D <- msub (np_kron I H) (np_kron (transpose czero H) I) ;;
  Ok (scale minus_j D).

(** [term1 - term2] of one jump operator [Lk] *)
Definition dissipator_term (N : nat) (Lk : matrix complex)
  : result (matrix complex) :=
  let I := np_identity N in
  let Lk_dag := transpose czero (conj Lk) in
  Lk_dag_Lk <- matmul Lk_dag Lk ;;
  let term1 := np_kron (conj Lk) Lk in
  S <- madd (np_kron I Lk_dag_Lk) (np_kron (transpose czero Lk_dag_Lk) I) ;;
  let term2 := scale (of_float (Fin (1 # 2))) S in
  msub term1 term2.

Local Open Scope heap_scope.

(** The body of [for Lk in L_ops]. *)
Definition accumulate (N : nat) (L_D : ndarray) (Lk : ndarray) (_ : unit)
  : M unit :=
  Lk_val <- read Lk ;;
  term <- lift (dissipator_term N Lk_val) ;;
  iadd L_D term.

(** The body of [for _ in times[1:]]; the loop state is [rho_vec] and
    [rho_t_series]. *)
Definition advance (N : nat) (U_dt : matrix complex) (_ : float)
  (st : loc * list ndarray) : M (loc * list ndarray) :=
  v <- load (fst st) ;;
  v' <- lift (matvec U_dt v) ;;
  rho_vec <- alloc v' ;;
  rho_vec <- (if forallb cisfinite v' then ret rho_vec
              else (* Numerical blow-up guard *)
                alloc (map cnan_to_num0 v')) ;;
  rho_new <- reshape rho_vec N N ;;
  ret (rho_vec, snd st ++ [rho_new]).

Definition time_evolve (rho0 H : ndarray) (L_ops : list ndarray)
  (T_end dt : float) : M (list ndarray * list float) :=
  let N := nr rho0 in
  H_val <- read H ;;
  L_H <- lift (hamiltonian_term N H_val) ;;
  L_D <- new_array (np_zeros czero (N * N) (N * N)) ;;
  mfor_each (accumulate N L_D) L_ops tt ;;;
  L_D_val <- read L_D ;;
  L_total <- lift (madd L_H L_D_val) ;;
  times <- lift (np_arange (Fin 0) (Binary64.add T_end dt) dt) ;;
  rho_vec <- flatten rho0 ;;
  rho0_copy <- copy rho0 ;;
  let rho_t_series := [rho0_copy] in
  U_dt <- lift (scipy_expm (scale_right L_total (of_float dt))) ;;
  st <- mfor_each (advance N U_dt) (tl times) (rho_vec, rho_t_series) ;;
  ret (snd st, times).

End Evolution.

End Simulate.

(** ** qemd/metrics.py *)

Module Metrics.

(** [ete += k_sink * sink_pop * dt] *)
Definition ete_step (sink_index : nat) (k_sink dt : float)
  (rho : matrix complex) (ete : float) : result float :=
  z <- getitem rho sink_index sink_index ;;
  let sink_pop := re z in
  Ok (ete + k_sink * sink_pop * dt)%float.

Definition compute_ete (rho_t_series : list (matrix complex))
  (sink_index : nat) (k_sink dt : float) : result float :=
  ete <- for_each (ete_step sink_index k_sink dt) rho_t_series zero ;;
  Ok (np_clip ete zero one).

Section Coherence.

(** [np.sqrt] *)
Variable np_sqrt : float -> float.

(** [np.fill_diagonal(a, 0.0)] on a 2-d array: the flat positions
    [0, c + 1, 2 (c + 1), ...] below [c * c]. *)
Definition fill_diagonal0 (a : matrix complex) : matrix complex :=
  let c := ncols a in
  Mat (nrows a) c
    (map (fun p => if (fst p mod (c + 1) =? 0) && (fst p <? c * c)
                   then czero else snd p)
         (combine (seq 0 (length (data a))) (data a))).

(** [np.linalg.norm(a, ord='fro')] of a complex array:
    [sqrt(a.real . a.real + a.imag . a.imag)] *)
Definition norm_fro (a : matrix complex) : float :=
  np_sqrt (fsum (map (fun z => re z * re z)%float (data a))
           + fsum (map (fun z => im z * im z)%float (data a)))%float.

Definition coherence_measure (rho : matrix complex) : float :=
  let off_diag := fill_diagonal0 rho in
  norm_fro off_diag.

(** [C[~np.isfinite(C)] = 0.0; C = np.maximum(C, 0.0)] *)
Definition clean (C : list float) : list float :=
  map (fun c => np_maximum c zero)
      (map (fun c => if isfinite c then c else zero) C).

Definition compute_tau_c (rho_t_series : list (matrix complex))
  (times : list float) : result float :=
  let C := map coherence_measure rho_t_series in
  let C := clean C in
  den <- np_trapz C times ;;
  if fle den (Fin (1 # 1000000000000)) then Ok zero
  else
    tC <- elementwise1 fmul times C ;;
    num <- np_trapz tC times ;;
    let tau := (num / den)%float in
    if negb (isfinite tau) then Ok zero
    else Ok tau.

End Coherence.

(** Python's [x / y] on floats *)
Definition pydiv (x y : float) : result float :=
  if feq y zero then Raise ZeroDivisionError else Ok (x / y)%float.

(** [1e-6] *)
Definition eps6 : float := Fin (1 # 1000000).

(** [drops.append(max(0.0, (base_qhs - q) / max(base_qhs, 1e-6)))] *)
Definition drop_step (base_qhs q : float) (drops : list float)
  : result (list float) :=
  d <- pydiv (base_qhs - q)%float (pymax base_qhs eps6) ;;
  Ok (drops ++ [pymax zero d]).

(** [np.mean] of a list: its sum over its length. *)
Definition np_mean (l : list float) : float :=
  (fsum l / of_nat (length l))%float.

Definition compute_resilience (base_qhs : float) (jitter_qhs_list : list float)
  : result float :=
  if fle base_qhs eps6 then Ok one
  else
    drops <- for_each (drop_step base_qhs) jitter_qhs_list [] ;;
    let mean_drop := match drops with [] => zero | _ => np_mean drops end in
    let R := (one - mean_drop)%float in
    Ok (np_clip R zero one).

End Metrics.

(** ** qemd/metrics.py, on doubles

    [compute_ete] once more, with the two products and the sum of
    [ete += k_sink * sink_pop * dt] rounded as the program rounds them. *)

Module Doubles.

Definition ete_step (sink_index : nat) (k_sink dt : float)
  (rho : matrix complex) (ete : float) : result float :=
  z <- getitem rho sink_index sink_index ;;
  let sink_pop := re z in
  Ok (Binary64.add ete (Binary64.mul (Binary64.mul k_sink sink_pop) dt)).

Definition compute_ete (rho_t_series : list (matrix complex))
  (sink_index : nat) (k_sink dt : float) : result float :=
  ete <- for_each (ete_step sink_index k_sink dt) rho_t_series zero ;;
  Ok (np_clip ete zero one).

End Doubles.

(** ** The specification's formulas

    The definitions of this module follow the words of the specification;
    the theorems below compare them with the code. *)

Module Spec.

(** Section 4.1: diag = epsilon, H[i,i+1] = H[i+1,i] = J[i], zero elsewhere. *)
Definition hamiltonian_entry (epsilon J : list float) (i j : nat) : complex :=
  if i =? j then of_float (nth i epsilon zero)
  else if j =? i + 1 then of_float (nth i J zero)
  else if i =? j + 1 then of_float (nth j J zero)
  else czero.

Definition hamiltonian_matrix (epsilon J : list float) : matrix complex :=
  mbuild (length epsilon) (length epsilon) (hamiltonian_entry epsilon J).

(** The conjugate transpose of an array. *)
Definition conj_transpose (M : matrix complex) : matrix complex :=
  transpose czero (conj M).

(** Sections 3 and 4.2: the projector [|i><i|] on [N] sites, and the ordered
    set of jump operators for a sink at site [sink]: [N] dephasing operators,
    a loss operator for every site but the sink, and the sink operator. *)
Definition projector (N i : nat) : matrix complex :=
  mbuild N N (fun a b => if (a =? i) && (b =? i) then cone else czero).

Section JumpOperators.
Variable sqrt : float -> float.

Definition scaled_projector (N : nat) (rate : float) (i : nat)
  : matrix complex :=
  scale (of_float (sqrt rate)) (projector N i).

Definition all_but (sink N : nat) : list nat :=
  filter (fun i => negb (i =? sink)) (seq 0 N).

Definition jump_operators (N sink : nat) (gamma k_sink k_loss : float)
  : list (matrix complex) :=
  map (scaled_projector N gamma) (seq 0 N)
  ++ map (scaled_projector N k_loss) (all_but sink N)
  ++ [scaled_projector N k_sink sink].

End JumpOperators.

(** Section 4.4, [compute_ete]: the sink populations [Re(rho_t[sink, sink])]
    of a trajectory, and the sum of [k_sink * P_t * dt] over the first [n]
    samples [t = 0 .. n - 1], added in the order of [t]. *)
Definition sink_populations (trajectory : list (matrix complex)) (sink : nat)
  : list float :=
  map (fun rho => re (mget czero rho sink sink)) trajectory.

Fixpoint riemann_sum (k_sink dt : float) (P : list float) (n : nat) : float :=
  match n with
  | O => zero
  | S n' => (riemann_sum k_sink dt P n' + k_sink * nth n' P zero * dt)%float
  end.

(** The sum over every sample of the trajectory. *)
Definition ete_all_samples (trajectory : list (matrix complex)) (sink : nat)
  (k_sink dt : float) : float :=
  np_clip (riemann_sum k_sink dt (sink_populations trajectory sink)
             (length trajectory)) zero one.

(** The left Riemann sum over the simulated window: the sample at the final
    time is left out. *)
Definition ete_left_riemann (trajectory : list (matrix complex)) (sink : nat)
  (k_sink dt : float) : float :=
  np_clip (riemann_sum k_sink dt (sink_populations trajectory sink)
             (length trajectory - 1)) zero one.


(** Grid point [i] as [np.arange] fills it in from [start = 0.0]: the
    double [0.0 + i * dt]. *)
Definition double_point (dt : float) (i : nat) : float :=
  Binary64.add (Fin 0) (Binary64.mul (Binary64.of_nat i) dt).

(** The sink index lies inside the array [rho]. *)
Definition sink_inside (sink : nat) (rho : matrix complex) : Prop :=
  wf rho /\ sink < nrows rho /\ sink < ncols rho.

(** The same, and the sink population of [rho] is finite. *)
Definition sink_finite (sink : nat) (rho : matrix complex) : Prop :=
  sink_inside sink rho /\ isfinite (re (mget czero rho sink sink)) = true.

(** The same, and the sink population of [rho] is finite and not
    negative. *)
Definition sink_nonneg (sink : nat) (rho : matrix complex) : Prop :=
  sink_inside sink rho /\
  exists p : Q, re (mget czero rho sink sink) = Fin p /\ (0 <= p)%Q.

(** Section 4.4, [compute_resilience]: the drop of one perturbed score,
    [max(0, (base - q) / max(base, 1e-6))]; the mean of a list of drops, the
    mean of no drop counting as 0.0; and the resilience. *)
Definition drop (base q : float) : float :=
  pymax zero ((base - q) / pymax base (Fin (1 # 1000000)))%float.

Definition mean (l : list float) : float :=
  match l with
  | [] => zero
  | _ => (fsum l / of_nat (length l))%float
  end.

Definition resilience (base : float) (perturbed : list float) : float :=
  np_clip (one - mean (map (drop base) perturbed))%float zero one.

(** Section 4.4, [compute_tau_c]: the trapezoidal integral of the samples
    [y] over the grid [x], the sum over [i] of
    [(x[i+1] - x[i]) * (y[i+1] + y[i]) / 2]; and the samples [t * C(t)]. *)
Definition trapezoid (y x : list float) : float :=
  fsum (map (fun i => ((nth (i + 1) x zero - nth i x zero)
                       * (nth (i + 1) y zero + nth i y zero) / Fin 2)%float)
            (seq 0 (length x - 1))).

Definition time_weighted (times C : list float) : list float :=
  map (fun i => (nth i times zero * nth i C zero)%float)
      (seq 0 (length times)).

End Spec.

(** ** Loop invariants *)

Module LoopInv.

(** The real array the coupling loop of [build_hamiltonian] has built after
    [k] rounds. *)
Definition hamiltonian_partial (epsilon J : list float) (k : nat) (i j : nat)
  : float :=
  if i =? j then nth i epsilon zero
  else if (j =? i + 1) && (i <? k) then nth i J zero
  else if (i =? j + 1) && (j <? k) then nth j J zero
  else zero.

End LoopInv.

(** ** Exact arithmetic on finite values *)

Module Exact.

Local Open Scope Q_scope.

(** [riemann_sum] on finite values. *)
Fixpoint qriemann (k dt : Q) (P : list Q) (n : nat) : Q :=
  match n with
  | O => 0
  | S n' => qriemann k dt P n' + k * nth n' P 0 * dt
  end.

(** The sum of the first [n] values of [P]. *)
Fixpoint qtotal (P : list Q) (n : nat) : Q :=
  match n with
  | O => 0
  | S n' => qtotal P n' + nth n' P 0
  end.

(** [np.clip(x, 0.0, 1.0)] on a finite value. *)
Definition qclip01 (x : Q) : Q :=
  let y := if Qle_bool x 0 then 0 else x in
  if Qle_bool y 1 then y else 1.

End Exact.

(** ** Relations between two stores *)

Module StoreRel.

Import Heap.

(** Every buffer below [n] is unchanged, and no buffer is removed. *)
Definition frame (n : nat) (s s' : store) : Prop :=
  length s <= length s' /\ forall l, l < n -> nth l s' [] = nth l s [].

(** Only buffer [b] may have changed. *)
Definition only_changes (b : loc) (s s' : store) : Prop :=
  length s' = length s /\ forall l, l <> b -> nth l s' [] = nth l s [].

(** New buffers were added; none was changed. *)
Definition extends (s s' : store) : Prop := exists ext, s' = s ++ ext.

(** The shape of an array object. *)
Definition has_shape (r c : nat) (a : ndarray) : Prop := nr a = r /\ nc a = c.

(** The arguments of [time_evolve] as the simulation passes them: [rho0] is
    a square array of the store, and [H] and every jump operator have its
    shape. *)
Definition well_shaped (s : store) (rho0 H : ndarray) (L_ops : list ndarray)
  : Prop :=
  buf rho0 < length s /\
  nc rho0 = nr rho0 /\
  length (nth (buf rho0) s []) = nr rho0 * nr rho0 /\
  has_shape (nr rho0) (nr rho0) H /\
  Forall (has_shape (nr rho0) (nr rho0)) L_ops.

End StoreRel.

(** * The rest of the code: dictionaries, the other metrics, the drivers,
      the parameter mapping and the range checks *)

From Stdlib Require String.

(** ** Exceptions of the dictionary layer

    [KeyError] carries the missing key.  The exceptions of the numerical
    core are embedded by [Core]. *)

Module Outcome.

Inductive pyexn : Type :=
| Core (e : exn)
| KeyError (key : String.string)
| AssertionError.

Inductive outcome (A : Type) : Type :=
| Return (a : A)
| Throw (e : pyexn).

Arguments Return {A} a.
Arguments Throw {A} e.

Definition obind {A B : Type} (m : outcome A) (k : A -> outcome B)
  : outcome B :=
  match m with
  | Return a => k a
  | Throw e => Throw e
  end.

(** The outcome of a computation of the numerical core. *)
Definition of_result {A : Type} (r : result A) : outcome A :=
  match r with
  | Ok a => Return a
  | Raise e => Throw (Core e)
  end.

(** [d[key]] on a dictionary whose entry for [key] is [field]: [None]
    stands for a dictionary without that key. *)
Definition item {A : Type} (key : String.string) (field : option A)
  : outcome A :=
  match field with
  | Some a => Return a
  | None => Throw (KeyError key)
  end.

(** [d.get(key, default)] *)
Definition get_default {A : Type} (field : option A) (default : A) : A :=
  match field with
  | Some a => a
  | None => default
  end.

End Outcome.

Import Outcome.

Declare Scope outcome_scope.
Delimit Scope outcome_scope with outcome.
Notation "x <- m ;; k" := (obind m (fun x => k))
  (at level 61, m at next level, right associativity) : outcome_scope.

(** ** The keys of the dictionaries *)

Module Keys.

Import String.
Local Open Scope string_scope.

Definition ETE : string := "ETE".
Definition gamma : string := "gamma".
Definition epsilon : string := "epsilon".
Definition J : string := "J".
Definition ci_z : string := "ci_z".
Definition ciii_z : string := "ciii_z".
Definition civ_z : string := "civ_z".
Definition ci_ciii_z : string := "ci_ciii_z".
Definition ciii_civ_z : string := "ciii_civ_z".
Definition redox_z : string := "redox_z".

End Keys.

(** ** qemd/metrics.py: the sweep optimum and the cohort normalization *)

Module Sweep.

(** One entry of an ENAQT sweep: the dictionary
    [{"gamma": ..., "ETE": ...}]. *)
Record entry : Type := Entry { gamma : option float; ETE : option float }.

End Sweep.

Module MetricsMore.

Import Sweep.

Local Open Scope outcome_scope.

(** [max(rest, key=lambda d: d["ETE"])] continued from the best entry so
    far: a later entry replaces it only when its key is greater. *)
Fixpoint max_by_ETE (best : entry) (best_key : float) (rest : list entry)
  : outcome entry :=
  match rest with
  | [] => Return best
  | d :: rest' =>
      k <- item Keys.ETE (ETE d) ;;
      if fgt k best_key then max_by_ETE d k rest'
      else max_by_ETE best best_key rest'
  end.

Definition find_gamma_star (enaqt_results : list entry)
  : outcome (float * float) :=
  match enaqt_results with
  | [] => Return (zero, zero)
  | d :: rest =>
      k <- item Keys.ETE (ETE d) ;;
      best <- max_by_ETE d k rest ;;
      g <- item Keys.gamma (gamma best) ;;
      e <- item Keys.ETE (ETE best) ;;
      Return (g, e)
  end.

Local Close Scope outcome_scope.

(** [np.sort]: ascending, [nan] last. *)
Definition sorts_before (x y : float) : bool := isnan y || fle x y.

Fixpoint insert_sorted (x : float) (l : list float) : list float :=
  match l with
  | [] => [x]
  | y :: l' => if sorts_before x y then x :: l else y :: insert_sorted x l'
  end.

Definition np_sort (l : list float) : list float :=
  fold_right insert_sorted [] l.

(** The linear interpolation of [np.percentile] (numpy 1.22 and later):
    [a + (b - a) * t], computed from [b] when [t >= 0.5]. *)
Definition lerp (a b t : float) : float :=
  let diff_b_a := (b - a)%float in
  if fle (Fin (1 # 2)) t then (b - diff_b_a * (one - t))%float
  else (a + diff_b_a * t)%float.

(** [np.percentile(a, q)] for one percentage [q], default (linear) method:
    the value at the fractional position [(n - 1) * q / 100] of the sorted
    data, interpolated between its two neighbours.  Data holding a [nan]
    give [nan]; no data raises [IndexError] (numpy 1.22 and later). *)
Definition np_percentile (a : list float) (q : Q) : result float :=
  match a with
  | [] => Raise IndexError
  | _ =>
      if existsb isnan a then Ok NaN
      else
        let n := length a in
        let sorted := np_sort a in
        let virtual_index := (inject_Z (Z.of_nat (n - 1)) * (q / 100))%Q in
        let previous := Z.to_nat (Qfloor virtual_index) in
        let next := Nat.min (previous + 1) (n - 1) in
        let gamma := (virtual_index - inject_Z (Qfloor virtual_index))%Q in
        Ok (lerp (nth previous sorted NaN) (nth next sorted NaN) (Fin gamma))
  end.

Definition normalize_tau_c (tau_values : list float) : result (list float) :=
  let tau_arr := tau_values in
  q5 <- np_percentile tau_arr 5 ;;
  q95 <- np_percentile tau_arr 95 ;;
  let denom := pymax (q95 - q5)%float (Fin (1 # 1000000)) in
  let tau_norm := map (fun t => ((t - q5) / denom)%float) tau_arr in
  let tau_norm := map (fun t => np_clip t zero one) tau_norm in
  Ok tau_norm.

End MetricsMore.

(** ** Predicates on floats used by the statements *)

Module Pred.

(** A non-negative finite value or [+inf]. *)
Definition nonneg_or_inf (x : float) : Prop :=
  match x with
  | Fin q => (0 <= q)%Q
  | PInf => True
  | _ => False
  end.

(** A finite value in [[lo, hi]]. *)
Definition within (lo hi : Q) (x : float) : Prop :=
  match x with
  | Fin q => (lo <= q <= hi)%Q
  | _ => False
  end.

(** A finite value in [[0, 1]], or [nan]. *)
Definition unit_or_nan (x : float) : Prop := x = NaN \/ within 0 1 x.

(** A finite value equal to [v]. *)
Definition equals (v : Q) (x : float) : Prop :=
  match x with
  | Fin q => (q == v)%Q
  | _ => False
  end.

End Pred.

(** ** Well-formed sweeps and cohorts, for the statements *)

Module SweepSpec.

Import Sweep.

(** The entry [{"gamma": g, "ETE": e}] with a finite efficiency [e]. *)
Definition point (p : float * Q) : entry :=
  Entry (Some (fst p)) (Some (Fin (snd p))).

(** The entry [{"gamma": g, "ETE": e}]. *)
Definition entry_of (p : float * float) : entry :=
  Entry (Some (fst p)) (Some (snd p)).

End SweepSpec.

(** ** Samples of a trajectory, for the statements *)

Module Sample.

Import Heap.

(** The array object [h] of the store [s] is an [N] by [N] array with a
    full buffer of finite entries. *)
Definition finite_sample (N : nat) (s : store) (h : ndarray) : Prop :=
  buf h < length s /\
  nr h = N /\ nc h = N /\
  length (nth (buf h) s []) = N * N /\
  forallb cisfinite (nth (buf h) s []) = true.

(** The value of an array object in a store. *)
Definition value (s : store) (h : ndarray) : matrix complex :=
  Mat (nr h) (nc h) (nth (buf h) s []).

End Sample.

(** ** qemd/simulate.py: the drivers *)

Module Params.

(** The parameter dictionary
    [{"epsilon": ..., "J": ..., "gamma": ..., "k_sink": ..., "k_loss": ...}];
    [None] stands for a dictionary without that key. *)
Record params : Type := Build {
  epsilon : option (list float);
  J : option (list float);
  gamma : option float;
  k_sink : option float;
  k_loss : option float
}.

End Params.

Module Drivers.

Import Config Heap Simulate Metrics Sweep.

(** A computation on the store that can raise the exceptions of the
    dictionary layer as well. *)
Definition MO (A : Type) : Type := store -> store * outcome A.

Definition oret {A : Type} (a : A) : MO A := fun s => (s, Return a).

Definition ombind {A B : Type} (m : MO A) (k : A -> MO B) : MO B :=
  fun s =>
    match m s with
    | (s', Return a) => k a s'
    | (s', Throw e) => (s', Throw e)
    end.

Definition of_outcome {A : Type} (o : outcome A) : MO A := fun s => (s, o).

Definition of_heap {A : Type} (m : M A) : MO A :=
  fun s => let (s', r) := m s in (s', of_result r).

Declare Scope driver_scope.
Delimit Scope driver_scope with driver.
Notation "x <- m ;; k" := (ombind m (fun x => k))
  (at level 61, m at next level, right associativity) : driver_scope.

Fixpoint ofor_each {X S : Type} (body : X -> S -> MO S) (l : list X) (s : S)
  : MO S :=
  match l with
  | [] => oret s
  | x :: l' => ombind (body x s) (fun s' => ofor_each body l' s')
  end.

(** The array objects of a list of arrays, allocated in order. *)
Definition new_arrays (ms : list (matrix complex)) : M (list ndarray) :=
  mfor_each (fun m hs => mbind (new_array m) (fun h => ret (hs ++ [h])))
    ms [].

(** The values of a list of array objects. *)
Definition read_all (hs : list ndarray) : M (list (matrix complex)) :=
  mfor_each (fun h ms => mbind (read h) (fun m => ret (ms ++ [m]))) hs [].

Section WithLibraries.

(** [np.sqrt] and [scipy.linalg.expm] *)
Variable np_sqrt : float -> float.
Variable expm : matrix complex -> matrix complex.

(** [rho0 = np.zeros((NUM_ETC_SITES, NUM_ETC_SITES), dtype=complex);
    rho0[0, 0] = 1.0] *)
Definition initial_state : result (matrix complex) :=
  setitem (np_zeros czero NUM_ETC_SITES NUM_ETC_SITES) 0 0 cone.

(** The lines the two simulation functions share: [H], [L_ops], [rho0] and
    the call of [time_evolve]. *)
Definition evolve (epsilon J : list float) (gamma k_sink k_loss : float)
  (T dt : float) : M (list ndarray * list float) :=
  (H_val <- lift (Hamiltonian.build_hamiltonian epsilon J) ;;
   H <- new_array H_val ;;
   ops <- lift (build_lindblad_ops np_sqrt NUM_ETC_SITES gamma k_sink k_loss) ;;
   L_ops <- new_arrays ops ;;
   rho0_val <- lift initial_state ;;
   rho0 <- new_array rho0_val ;;
   time_evolve expm rho0 H L_ops T dt)%heap.

Local Open Scope driver_scope.

Definition compute_ete_for_gamma (params : Params.params)
  (gamma T dt : float) : MO float :=
  epsilon <- of_outcome (item Keys.epsilon (Params.epsilon params)) ;;
  J <- of_outcome (item Keys.J (Params.J params)) ;;
  let k_sink := get_default (Params.k_sink params) K_SINK in
  let k_loss := get_default (Params.k_loss params) K_LOSS in
  r <- of_heap (evolve epsilon J gamma k_sink k_loss T dt) ;;
  rho_t_series <- of_heap (read_all (fst r)) ;;
  ete <- of_heap (lift (compute_ete rho_t_series SINK_INDEX k_sink dt)) ;;
  oret ete.

(** [results.append({"gamma": float(g), "ETE": float(ete)})] *)
Definition sweep_step (params : Params.params) (T dt : float)
  (g : float) (results : list entry) : MO (list entry) :=
  ete <- compute_ete_for_gamma params g T dt ;;
  oret (results ++ [Entry (Some g) (Some ete)]).

Definition enaqt_sweep (params : Params.params) (gammas : list float)
  (T dt : float) : MO (list entry) :=
  ofor_each (sweep_step params T dt) gammas [].

(** The dictionary [run_full_simulation] returns. *)
Record simulation : Type := Simulation {
  ETE_instant : float;
  tau_c : float;
  rho_series : list ndarray;
  times : list float
}.

Definition run_full_simulation (params : Params.params) : MO simulation :=
  epsilon <- of_outcome (item Keys.epsilon (Params.epsilon params)) ;;
  J <- of_outcome (item Keys.J (Params.J params)) ;;
  gamma <- of_outcome (item Keys.gamma (Params.gamma params)) ;;
  let k_sink := get_default (Params.k_sink params) K_SINK in
  let k_loss := get_default (Params.k_loss params) K_LOSS in
  r <- of_heap (evolve epsilon J gamma k_sink k_loss TIME_END DT) ;;
  rho_t_series <- of_heap (read_all (fst r)) ;;
  ete_instant <-
    of_heap (lift (compute_ete rho_t_series SINK_INDEX k_sink DT)) ;;
  tau_c <- of_heap (lift (compute_tau_c np_sqrt rho_t_series (snd r))) ;;
  oret (Simulation ete_instant tau_c (fst r) (snd r)).

End WithLibraries.

End Drivers.

(** ** qemd/config.py: the sweep range and the mapping hyperparameters *)

Module Hyper.

Definition GAMMA_MIN : float := Fin (5 # 1000)%Q.
Definition GAMMA_MAX : float := Fin (5 # 100)%Q.
Definition GAMMA_MID : float := Fin (2 # 100)%Q.

Definition EPS_ALPHA : float := Fin (5 # 100)%Q.
Definition J_BASE : float := Fin (5 # 100)%Q.
Definition J_BETA : float := Fin (3 # 10)%Q.
Definition GAMMA_LAM : float := Fin (4 # 10)%Q.
Definition J_MIN_CLIP : float := Fin (2 # 100)%Q.
Definition J_MAX_CLIP : float := Fin (8 # 100)%Q.

End Hyper.

(** ** qemd/mapping.py *)

Module Mapping.

Import Config Hyper Metrics.

(** An expression entry of the omics dictionary: a z-score or an array of
    z-scores. *)
Inductive zvalue : Type :=
| Scalar (z : float)
| Vector (zs : list float).

(** [float(np.mean(expr_vec_z))] *)
Definition mean_of (v : zvalue) : float :=
  match v with
  | Scalar z => z
  | Vector zs => np_mean zs
  end.

Definition map_expression_to_epsilon (expr_vec_z : zvalue) (eps0 : float)
  : float :=
  let z := mean_of expr_vec_z in
  (eps0 + EPS_ALPHA * z)%float.

Definition map_supercomplex_to_J (edge_expr_z : float) : float :=
  let z := edge_expr_z in
  let J := (J_BASE * (one + J_BETA * z))%float in
  np_clip J J_MIN_CLIP J_MAX_CLIP.

Definition map_redox_to_gamma (redox_z : float) : float :=
  let z := redox_z in
  let gamma := (GAMMA_MID * (one + GAMMA_LAM * z))%float in
  np_clip gamma GAMMA_MIN GAMMA_MAX.

Definition get_sink_loss_params : float * float := (K_SINK, K_LOSS).

(** The omics dictionary of one sample: the expression entries
    ['ci_z'], ['ciii_z'], ['civ_z'] and the scalar z-scores of the two
    supercomplex edges and of the redox state. [None] stands for a
    dictionary without that key. *)
Record omics : Type := Omics {
  ci_z : option zvalue;
  ciii_z : option zvalue;
  civ_z : option zvalue;
  ci_ciii_z : option float;
  ciii_civ_z : option float;
  redox_z : option float
}.

Local Open Scope outcome_scope.

(** The entries are looked up in the order of the source, once per element
    of the two lists; [eps0] has its default [0.0]. *)
Definition get_params_for_sample (omics_data : omics)
  : outcome Params.params :=
  v0 <- item Keys.ci_z (ci_z omics_data) ;;
  let e0 := map_expression_to_epsilon v0 zero in
  v1 <- item Keys.ci_z (ci_z omics_data) ;;
  let e1 := map_expression_to_epsilon v1 zero in
  v2 <- item Keys.ci_z (ci_z omics_data) ;;
  let e2 := map_expression_to_epsilon v2 zero in
  v3 <- item Keys.ciii_z (ciii_z omics_data) ;;
  let e3 := map_expression_to_epsilon v3 zero in
  v4 <- item Keys.ciii_z (ciii_z omics_data) ;;
  let e4 := map_expression_to_epsilon v4 zero in
  v5 <- item Keys.ciii_z (ciii_z omics_data) ;;
  let e5 := map_expression_to_epsilon v5 zero in
  v6 <- item Keys.civ_z (civ_z omics_data) ;;
  let e6 := map_expression_to_epsilon v6 zero in
  let epsilon := [e0; e1; e2; e3; e4; e5; e6] in
  z0 <- item Keys.ci_ciii_z (ci_ciii_z omics_data) ;;
  let J_01 := map_supercomplex_to_J z0 in
  z1 <- item Keys.ci_ciii_z (ci_ciii_z omics_data) ;;
  let J_12 := map_supercomplex_to_J z1 in
  z2 <- item Keys.ci_ciii_z (ci_ciii_z omics_data) ;;
  let J_23 := map_supercomplex_to_J z2 in
  z3 <- item Keys.ciii_civ_z (ciii_civ_z omics_data) ;;
  let J_34 := map_supercomplex_to_J z3 in
  z4 <- item Keys.ciii_civ_z (ciii_civ_z omics_data) ;;
  let J_45 := map_supercomplex_to_J z4 in
  z5 <- item Keys.ciii_civ_z (ciii_civ_z omics_data) ;;
  let J_56 := map_supercomplex_to_J z5 in
  let J := [J_01; J_12; J_23; J_34; J_45; J_56] in
  r <- item Keys.redox_z (redox_z omics_data) ;;
  let gamma := map_redox_to_gamma r in
  let (k_sink, k_loss) := get_sink_loss_params in
  Return (Params.Build (Some epsilon) (Some J) (Some gamma)
            (Some k_sink) (Some k_loss)).

Local Close Scope outcome_scope.

End Mapping.

(** ** qemd/validation.py *)

Module Validation.

Import Hyper.

(** [assert cond] *)
Definition assert (cond : bool) : outcome unit :=
  if cond then Return tt else Throw AssertionError.

Local Open Scope outcome_scope.

Definition assert_physical_ranges (ETE tau_norm gamma qhs : float)
  : outcome unit :=
  _ <- assert (fle zero ETE && fle ETE one) ;;
  _ <- assert (fle zero tau_norm && fle tau_norm one) ;;
  _ <- assert (fle (GAMMA_MIN * Fin (9 # 10))%float gamma
               && fle gamma (GAMMA_MAX * Fin (11 # 10))%float) ;;
  _ <- assert (fle zero qhs && fle qhs one) ;;
  Return tt.

Local Close Scope outcome_scope.

End Validation.

(** ** The configured time step as a double *)

Module GridSpec.

(** The double nearest to [DT = 0.05]: the step [np.arange] works with. *)
Definition dt_double : Q := (3602879701896397 # 72057594037927936)%Q.

End GridSpec.
(** * Properties *)

(** ** Lists and loops *)

Section ListFacts.
Context {A : Type}.

Lemma update_length (l : list A) (i : nat) (v : A) :
  length (update l i v) = length l.
Proof.
  revert i; induction l as [|a l IH]; intros [|i]; simpl; auto.
Qed.

Lemma nth_update_eq (l : list A) (i : nat) (v d : A) :
  i < length l -> nth i (update l i v) d = v.
Proof.
  revert i; induction l as [|a l IH]; intros [|i] Hi; simpl in *; try lia; auto.
  apply IH; lia.
Qed.

Lemma nth_update_neq (l : list A) (i k : nat) (v d : A) :
  k <> i -> nth k (update l i v) d = nth k l d.
Proof.
  revert i k; induction l as [|a l IH]; intros [|i] [|k] Hk; simpl; auto;
    try congruence.
Qed.

Lemma update_map_seq (g : nat -> A) (a n k : nat) (v : A) :
  update (map g (seq a n)) k v =
  map (fun x => if x =? a + k then v else g x) (seq a n).
Proof.
  revert a k; induction n as [|n IH]; intros a k; simpl.
  - destruct k; reflexivity.
  - destruct k as [|k]; simpl.
    + rewrite Nat.add_0_r, Nat.eqb_refl. f_equal.
      apply map_ext_in. intros x Hx. apply in_seq in Hx.
      destruct (Nat.eqb_spec x a); [lia | reflexivity].
    + destruct (Nat.eqb_spec a (a + S k)); [lia |]. f_equal.
      rewrite IH. apply map_ext. intros x.
      replace (S a + k) with (a + S k) by lia. reflexivity.
Qed.

Lemma index_Ok (l : list A) (i : nat) (d : A) :
  i < length l -> index l i = Ok (nth i l d).
Proof.
  intros Hi. unfold index. rewrite (nth_error_nth' l d Hi). reflexivity.
Qed.

Lemma index_Raise (l : list A) (i : nat) :
  length l <= i -> index l i = Raise IndexError.
Proof.
  intros Hi. unfold index.
  apply nth_error_None in Hi. rewrite Hi. reflexivity.
Qed.

End ListFacts.

Section LoopFacts.
Context {X S : Type}.

Lemma for_each_app (body : X -> S -> result S) (l1 l2 : list X) (s : S) :
  for_each body (l1 ++ l2) s =
  (s' <- for_each body l1 s ;; for_each body l2 s').
Proof.
  revert s; induction l1 as [|x l1 IH]; intros s; simpl; auto.
  destruct (body x s); simpl; auto.
Qed.

Lemma for_each_ext (f g : X -> S -> result S) (l : list X) (s : S) :
  (forall x s', In x l -> f x s' = g x s') ->
  for_each f l s = for_each g l s.
Proof.
  revert s; induction l as [|x l IH]; intros s H; simpl; auto.
  rewrite (H x s) by (left; reflexivity).
  destruct (g x s); simpl; auto.
  apply IH. intros y s' Hy. apply H. right; exact Hy.
Qed.

(** A loop over [seq a n] that keeps an invariant indexed by the counter. *)
Lemma for_each_seq_inv (Inv : nat -> S -> Prop) (body : nat -> S -> result S)
  (n a : nat) (s : S) :
  Inv a s ->
  (forall k t, a <= k < a + n -> Inv k t ->
               exists t', body k t = Ok t' /\ Inv (Datatypes.S k) t') ->
  exists s', for_each body (seq a n) s = Ok s' /\ Inv (a + n) s'.
Proof.
  revert a s; induction n as [|n IH]; intros a s H0 Hstep; simpl.
  - exists s. rewrite Nat.add_0_r. auto.
  - destruct (Hstep a s) as [t [Ht Hinv]]; [lia | exact H0 |].
    rewrite Ht; simpl.
    destruct (IH (Datatypes.S a) t Hinv) as [s' [Hs' Hinv']].
    + intros k u Hk Hu. apply Hstep; [lia | exact Hu].
    + exists s'. split; [exact Hs' |].
      replace (a + Datatypes.S n) with (Datatypes.S a + n) by lia. exact Hinv'.
Qed.

End LoopFacts.

(** A loop that appends [sel x] to a list for every [x]. *)
Lemma for_each_append {X A : Type} (body : X -> list A -> result (list A))
  (sel : X -> list A) (l : list X) (acc : list A) :
  (forall x L, In x l -> body x L = Ok (L ++ sel x)) ->
  for_each body l acc = Ok (acc ++ flat_map sel l).
Proof.
  revert acc; induction l as [|x l IH]; intros acc H; simpl.
  - rewrite app_nil_r. reflexivity.
  - rewrite H by (left; reflexivity). simpl.
    rewrite IH by (intros y L Hy; apply H; right; exact Hy).
    rewrite <- app_assoc. reflexivity.
Qed.


(** ** Arrays *)

Section MatrixFacts.
Context {A : Type}.

Lemma flat_index_div (i j c : nat) : j < c -> (i * c + j) / c = i.
Proof.
  intros Hj. rewrite Nat.div_add_l by lia. rewrite Nat.div_small by lia. lia.
Qed.

Lemma flat_index_mod (i j c : nat) : j < c -> (i * c + j) mod c = j.
Proof.
  intros Hj. rewrite Nat.add_comm, Nat.Div0.mod_add. apply Nat.mod_small; lia.
Qed.

Lemma flat_index_lt (i j r c : nat) : i < r -> j < c -> i * c + j < r * c.
Proof. intros Hi Hj. nia. Qed.

Lemma mbuild_wf (r c : nat) (f : nat -> nat -> A) : wf (mbuild r c f).
Proof. unfold wf; simpl. rewrite length_map, length_seq. reflexivity. Qed.

Lemma mget_mbuild (d : A) (r c : nat) (f : nat -> nat -> A) (i j : nat) :
  i < r -> j < c -> mget d (mbuild r c f) i j = f i j.
Proof.
  intros Hi Hj. unfold mget, mbuild; simpl.
  assert (Hk : i * c + j < r * c) by (apply flat_index_lt; assumption).
  rewrite (nth_indep _ d (f (0 / c) (0 mod c)))
    by (rewrite length_map, length_seq; exact Hk).
  rewrite (map_nth (fun k => f (k / c) (k mod c))).
  rewrite seq_nth by exact Hk. simpl.
  rewrite flat_index_div, flat_index_mod by exact Hj. reflexivity.
Qed.

Lemma mbuild_ext (r c : nat) (f g : nat -> nat -> A) :
  (forall i j, i < r -> j < c -> f i j = g i j) ->
  mbuild r c f = mbuild r c g.
Proof.
  intros H. unfold mbuild. f_equal. apply map_ext_in.
  intros k Hk. apply in_seq in Hk.
  destruct c as [|c]; [lia |].
  apply H.
  - apply Nat.Div0.div_lt_upper_bound. lia.
  - apply Nat.mod_upper_bound. lia.
Qed.

(** An array is determined by its shape and its entries. *)
Lemma mbuild_mget (d : A) (M : matrix A) :
  wf M -> M = mbuild (nrows M) (ncols M) (mget d M).
Proof.
  destruct M as [r c l]. unfold wf, mbuild, mget; simpl. intros Hwf.
  f_equal. apply (nth_ext _ _ d d).
  - rewrite length_map, length_seq. exact Hwf.
  - intros k Hk. rewrite Hwf in Hk.
    set (F := fun k => nth (k / c * c + k mod c) l d).
    rewrite (nth_indep (map F (seq 0 (r * c))) d (F 0))
      by (rewrite length_map, length_seq; exact Hk).
    rewrite (map_nth F), seq_nth by exact Hk. unfold F; simpl.
    f_equal. rewrite (Nat.div_mod_eq k c) at 1. lia.
Qed.

Lemma setitem_mbuild (r c : nat) (f : nat -> nat -> A) (i j : nat) (v : A) :
  i < r -> j < c ->
  setitem (mbuild r c f) i j v =
  Ok (mbuild r c (fun i' j' => if (i' =? i) && (j' =? j) then v else f i' j')).
Proof.
  intros Hi Hj. unfold setitem; simpl.
  destruct (Nat.ltb_spec i r); [| lia].
  destruct (Nat.ltb_spec j c); [| lia]. simpl.
  unfold mbuild. do 2 f_equal.
  rewrite update_map_seq. apply map_ext_in. intros k Hk. simpl.
  destruct (Nat.eqb_spec k (i * c + j)) as [-> | Hne].
  - rewrite flat_index_div, flat_index_mod by exact Hj.
    rewrite !Nat.eqb_refl. reflexivity.
  - destruct (Nat.eqb_spec (k / c) i) as [Hd |]; [| reflexivity].
    destruct (Nat.eqb_spec (k mod c) j) as [Hm |]; [| reflexivity].
    exfalso. apply Hne. rewrite (Nat.div_mod_eq k c). rewrite Hd, Hm. lia.
Qed.

Lemma setitem_out_of_range (M : matrix A) (i j : nat) (v : A) :
  nrows M <= i \/ ncols M <= j -> setitem M i j v = Raise IndexError.
Proof.
  intros H. unfold setitem.
  destruct (Nat.ltb_spec i (nrows M)); destruct (Nat.ltb_spec j (ncols M));
    simpl; auto; lia.
Qed.

End MatrixFacts.

Lemma mmap_mbuild {A B : Type} (g : A -> B) (r c : nat) (f : nat -> nat -> A) :
  mmap g (mbuild r c f) = mbuild r c (fun i j => g (f i j)).
Proof. unfold mmap, mbuild; simpl. rewrite map_map. reflexivity. Qed.

Lemma broadcast_dim_same (a : nat) : broadcast_dim a a = Ok a.
Proof. unfold broadcast_dim. rewrite Nat.eqb_refl. reflexivity. Qed.


(** ** binary64 rounding *)

Module Binary64Facts.

Import Binary64.

Local Open Scope Q_scope.

(** *** Powers of two *)

Lemma two_nonzero : ~ 2 == 0.
Proof. intros H. discriminate H. Qed.

Lemma pow2_pos (z : Z) : 0 < 2 ^ z.
Proof. apply Qpower_0_lt. reflexivity. Qed.

Lemma pow2_le (a b : Z) : (a <= b)%Z -> 2 ^ a <= 2 ^ b.
Proof. intros H. apply Qpower_le_compat_l; [exact H | discriminate]. Qed.

Lemma pow2_lt_inv (a b : Z) : 2 ^ a < 2 ^ b -> (a < b)%Z.
Proof. intros H. apply (Qpower_lt_compat_l_inv 2); [exact H | reflexivity]. Qed.

Lemma pow2_succ (a : Z) : 2 ^ (a + 1) == 2 * 2 ^ a.
Proof.
  rewrite Qpower_plus by exact two_nonzero.
  change (2 ^ 1) with 2. ring.
Qed.

Lemma pow2_split (e : Z) : 2 ^ e == 2 ^ 52 * 2 ^ (e - 52).
Proof.
  rewrite <- Qpower_plus by exact two_nonzero.
  replace (52 + (e - 52))%Z with e by lia. reflexivity.
Qed.

(** *** The binary logarithm *)

Lemma ilog2_spec (q : Q) :
  0 < q -> 2 ^ ilog2 q <= q /\ q < 2 ^ (ilog2 q + 1).
Proof.
  intros Hq. destruct q as [n d].
  assert (Hn : (0 < n)%Z).
  { unfold Qlt in Hq; simpl in Hq. lia. }
  unfold ilog2; cbn [Qnum Qden].
  set (ln := Z.log2 n). set (ld := Z.log2 (Z.pos d)).
  pose proof (Z.log2_spec n Hn) as [Hn1 Hn2].
  pose proof (Z.log2_spec (Z.pos d) eq_refl) as [Hd1 Hd2].
  pose proof (Z.log2_nonneg n) as Hln.
  pose proof (Z.log2_nonneg (Z.pos d)) as Hld.
  fold ln in Hn1, Hn2, Hln. fold ld in Hd1, Hd2, Hld.
  rewrite <- Z.add_1_r in Hn2, Hd2.
  assert (HA : inject_Z (2 ^ ln) == 2 ^ ln)
    by (apply Zpower_Qpower; exact Hln).
  assert (HB : inject_Z (2 ^ ld) == 2 ^ ld)
    by (apply Zpower_Qpower; exact Hld).
  assert (HA2 : inject_Z (2 ^ (ln + 1)) == 2 * 2 ^ ln).
  { rewrite Zpower_Qpower by lia. apply pow2_succ. }
  assert (HB2 : inject_Z (2 ^ (ld + 1)) == 2 * 2 ^ ld).
  { rewrite Zpower_Qpower by lia. apply pow2_succ. }
  rewrite Zle_Qle in Hn1, Hd1. rewrite Zlt_Qlt in Hn2, Hd2.
  rewrite HA in Hn1. rewrite HB in Hd1. rewrite HA2 in Hn2.
  rewrite HB2 in Hd2.
  pose proof (pow2_pos ln) as HAp. pose proof (pow2_pos ld) as HBp.
  assert (Hq' : n # d == inject_Z n / inject_Z (Z.pos d))
    by apply Qmake_Qdiv.
  assert (He : 2 ^ (ln - ld) == 2 ^ ln / 2 ^ ld)
    by (apply Qpower_minus; exact two_nonzero).
  set (N := inject_Z n) in *. set (D := inject_Z (Z.pos d)) in *.
  set (A := 2 ^ ln) in *. set (B := 2 ^ ld) in *.
  assert (HD : 0 < D) by lra.
  assert (Hup : n # d < 2 * (A / B)).
  { rewrite Hq'. apply Qlt_shift_div_r; [exact HD |].
    assert (E : 2 * (A / B) * D == 2 * A * D / B) by (field; lra).
    rewrite E. apply Qlt_shift_div_l; [exact HBp | nra]. }
  assert (Hlo : A / B < 2 * (n # d)).
  { rewrite Hq'. apply Qlt_shift_div_r; [exact HBp |].
    assert (E : 2 * (N / D) * B == 2 * N * B / D) by (field; lra).
    rewrite E. apply Qlt_shift_div_l; [exact HD | nra]. }
  destruct (Qle_bool (2 ^ (ln - ld)) (n # d)) eqn:E.
  - apply Qle_bool_iff in E. split; [exact E |].
    rewrite pow2_succ, He. exact Hup.
  - assert (Hlt : n # d < 2 ^ (ln - ld)).
    { apply Qnot_le_lt. intros H. apply Qle_bool_iff in H. congruence. }
    replace (ln - ld - 1 + 1)%Z with (ln - ld)%Z by lia.
    split; [| exact Hlt].
    assert (E2 : 2 ^ (ln - ld) == 2 * 2 ^ (ln - ld - 1)).
    { rewrite <- pow2_succ. replace (ln - ld - 1 + 1)%Z with (ln - ld)%Z by lia.
      reflexivity. }
    rewrite He in E2. lra.
Qed.

Lemma ilog2_monotone (a b : Q) : 0 < a -> a <= b -> (ilog2 a <= ilog2 b)%Z.
Proof.
  intros Ha Hab.
  destruct (ilog2_spec Ha) as [Ha1 _].
  assert (Hb : 0 < b) by lra.
  destruct (ilog2_spec Hb) as [_ Hb2].
  assert (H : 2 ^ ilog2 a < 2 ^ (ilog2 b + 1)) by lra.
  apply pow2_lt_inv in H. lia.
Qed.

(** *** Rounding to an integer *)

Lemma nearest_even_lower (x : Q) (n : Z) :
  inject_Z n <= x -> (n <= nearest_even x)%Z.
Proof.
  intros H. unfold nearest_even.
  assert (Hf : (n <= Qfloor x)%Z).
  { rewrite <- (Qfloor_Z n). apply Qfloor_resp_le. exact H. }
  destruct (x - inject_Z (Qfloor x) ?= 1 # 2); [| lia | lia].
  destruct (Z.even (Qfloor x)); lia.
Qed.

Lemma nearest_even_upper (x : Q) (n : Z) :
  x <= inject_Z n -> (nearest_even x <= n)%Z.
Proof.
  intros H. unfold nearest_even.
  pose proof (Qfloor_le x) as Hfl. pose proof (Qlt_floor x) as Hlt.
  assert (Hf : (Qfloor x <= n)%Z).
  { rewrite <- (Qfloor_Z n). apply Qfloor_resp_le. exact H. }
  destruct (Z.eq_dec (Qfloor x) n) as [E | NE].
  - assert (Hx : x - inject_Z (Qfloor x) < 1 # 2).
    { rewrite E. lra. }
    destruct (x - inject_Z (Qfloor x) ?= 1 # 2) eqn:C; [| lia |].
    + apply Qeq_alt in C. exfalso. lra.
    + apply Qgt_alt in C. exfalso. lra.
  - destruct (x - inject_Z (Qfloor x) ?= 1 # 2); [| lia | lia].
    destruct (Z.even (Qfloor x)); lia.
Qed.

Lemma nearest_even_monotone (x y : Q) :
  x <= y -> (nearest_even x <= nearest_even y)%Z.
Proof.
  intros Hxy.
  assert (Hf : (Qfloor x <= Qfloor y)%Z) by (apply Qfloor_resp_le; exact Hxy).
  destruct (Z.eq_dec (Qfloor x) (Qfloor y)) as [E | NE].
  - unfold nearest_even. rewrite <- E.
    set (f := Qfloor x) in *.
    destruct (Qcompare_spec (x - inject_Z f) (1 # 2)) as [Cx | Cx | Cx];
      destruct (Qcompare_spec (y - inject_Z f) (1 # 2)) as [Cy | Cy | Cy];
      try (destruct (Z.even f)); try lia; exfalso; lra.
  - apply Z.le_trans with (Qfloor y).
    + apply nearest_even_upper.
      pose proof (Qlt_floor x) as Hlt.
      assert (Hz : (Qfloor x + 1 <= Qfloor y)%Z) by lia.
      rewrite Zle_Qle in Hz. lra.
    + apply nearest_even_lower. apply Qfloor_le.
Qed.

(** *** The nearest double of a positive rational *)

Lemma ulp_pos (a : Q) : 0 < ulp a.
Proof. apply pow2_pos. Qed.

Lemma exponent_monotone (a b : Q) :
  0 < a -> a <= b -> (exponent a <= exponent b)%Z.
Proof.
  intros Ha Hab. unfold exponent.
  pose proof (ilog2_monotone Ha Hab). lia.
Qed.

Lemma below_next_binade (a : Q) : 0 < a -> a < 2 ^ (exponent a + 1).
Proof.
  intros Ha. destruct (ilog2_spec Ha) as [_ H].
  assert (Hle : 2 ^ (ilog2 a + 1) <= 2 ^ (exponent a + 1)).
  { apply pow2_le. unfold exponent. lia. }
  lra.
Qed.

Lemma nearest_nonneg (a : Q) : 0 < a -> 0 <= nearest a.
Proof.
  intros Ha. unfold nearest. pose proof (ulp_pos a) as Hu.
  assert (H0 : (0 <= nearest_even (a / ulp a))%Z).
  { apply nearest_even_lower. change (inject_Z 0) with 0.
    apply Qle_shift_div_l; [exact Hu | lra]. }
  rewrite Zle_Qle in H0. change (inject_Z 0) with 0 in H0. nra.
Qed.

Lemma nearest_upper (a : Q) : 0 < a -> nearest a <= 2 ^ (exponent a + 1).
Proof.
  intros Ha. unfold nearest. pose proof (ulp_pos a) as Hu.
  pose proof (below_next_binade Ha) as Hlt.
  assert (Hs : 2 ^ (exponent a + 1) == 2 ^ 53 * ulp a).
  { unfold ulp. rewrite <- Qpower_plus by exact two_nonzero.
    replace (53 + (exponent a - 52))%Z with (exponent a + 1)%Z by lia.
    reflexivity. }
  assert (Hm : (nearest_even (a / ulp a) <= 2 ^ 53)%Z).
  { apply nearest_even_upper.
    rewrite Zpower_Qpower by lia. change (inject_Z 2) with 2.
    apply Qle_shift_div_r; [exact Hu | lra]. }
  rewrite Zle_Qle in Hm. rewrite Zpower_Qpower in Hm by lia.
  change (inject_Z 2) with 2 in Hm.
  rewrite Hs. nra.
Qed.

Lemma nearest_lower (a : Q) :
  0 < a -> (-1022 <= ilog2 a)%Z -> 2 ^ exponent a <= nearest a.
Proof.
  intros Ha Hnormal. unfold nearest. pose proof (ulp_pos a) as Hu.
  destruct (ilog2_spec Ha) as [Hlo _].
  assert (He : exponent a = ilog2 a) by (unfold exponent; lia).
  assert (Hs : 2 ^ exponent a == 2 ^ 52 * ulp a) by apply pow2_split.
  assert (Hm : (2 ^ 52 <= nearest_even (a / ulp a))%Z).
  { apply nearest_even_lower.
    rewrite Zpower_Qpower by lia. change (inject_Z 2) with 2.
    apply Qle_shift_div_l; [exact Hu |]. rewrite <- Hs, He. exact Hlo. }
  rewrite Zle_Qle in Hm. rewrite Zpower_Qpower in Hm by lia.
  change (inject_Z 2) with 2 in Hm.
  rewrite Hs. nra.
Qed.

Lemma nearest_monotone (a b : Q) :
  0 < a -> a <= b -> nearest a <= nearest b.
Proof.
  intros Ha Hab. assert (Hb : 0 < b) by lra.
  pose proof (exponent_monotone Ha Hab) as He.
  destruct (Z.eq_dec (exponent a) (exponent b)) as [E | NE].
  - unfold nearest, ulp. rewrite E.
    set (u := 2 ^ (exponent b - 52)).
    assert (Hu : 0 < u) by apply pow2_pos.
    assert (Hdiv : a / u <= b / u).
    { apply Qle_shift_div_l; [exact Hu |].
      assert (Hx : a / u * u == a) by (field; lra). lra. }
    pose proof (nearest_even_monotone Hdiv) as Hm.
    rewrite Zle_Qle in Hm. nra.
  - assert (Hnormal : (-1022 <= ilog2 b)%Z).
    { unfold exponent in *. lia. }
    pose proof (nearest_upper Ha) as H1.
    pose proof (nearest_lower Hb Hnormal) as H2.
    assert (H3 : 2 ^ (exponent a + 1) <= 2 ^ exponent b)
      by (apply pow2_le; lia).
    lra.
Qed.

(** *** Rounding *)

Lemma round_pos_nonneg (a : Q) : 0 < a -> nonneg (round_pos a).
Proof.
  intros Ha. unfold round_pos.
  destruct (Qle_bool (2 ^ 1024) (nearest a)); unfold nonneg; [exact I |].
  rewrite Qred_correct. apply nearest_nonneg. exact Ha.
Qed.

Lemma round_pos_monotone (a b : Q) :
  0 < a -> a <= b -> fle (round_pos a) (round_pos b) = true.
Proof.
  intros Ha Hab. pose proof (nearest_monotone Ha Hab) as Hm.
  unfold round_pos.
  destruct (Qle_bool (2 ^ 1024) (nearest b)) eqn:Eb.
  - destruct (Qle_bool (2 ^ 1024) (nearest a)); reflexivity.
  - destruct (Qle_bool (2 ^ 1024) (nearest a)) eqn:Ea.
    + exfalso. apply Qle_bool_iff in Ea.
      assert (H : 2 ^ 1024 <= nearest b) by lra.
      apply Qle_bool_iff in H. congruence.
    + unfold fle. apply Qle_bool_iff. rewrite !Qred_correct. exact Hm.
Qed.

Lemma round_comp (p q : Q) : p == q -> round p = round q.
Proof.
  intros H. unfold round. rewrite (Qred_complete _ _ H). reflexivity.
Qed.

Lemma round_zero : round 0 = Fin 0.
Proof. reflexivity. Qed.

Lemma round_nonneg (q : Q) : 0 <= q -> nonneg (round q).
Proof.
  intros Hq. unfold round.
  pose proof (Qred_correct q) as Hr.
  destruct (Qred q ?= 0) eqn:C.
  - simpl. lra.
  - apply Qlt_alt in C. lra.
  - apply Qgt_alt in C. apply round_pos_nonneg. exact C.
Qed.

Lemma round_nonpos (q : Q) : q <= 0 -> nonneg (fneg (round q)).
Proof.
  intros Hq. unfold round.
  pose proof (Qred_correct q) as Hr.
  destruct (Qred q ?= 0) eqn:C.
  - simpl. lra.
  - apply Qlt_alt in C.
    assert (Hp : 0 < - Qred q) by lra.
    pose proof (round_pos_nonneg Hp) as Hn.
    destruct (round_pos (- Qred q)) as [r | | |]; simpl in *;
      try contradiction; [lra | exact I].
  - apply Qgt_alt in C. lra.
Qed.

Lemma round_not_nan (q : Q) : isnan (round q) = false.
Proof.
  destruct (Qlt_le_dec q 0) as [H | H].
  - assert (Hq : q <= 0) by lra. pose proof (round_nonpos Hq) as Hn.
    destruct (round q); simpl in *; try reflexivity; contradiction.
  - pose proof (round_nonneg H) as Hn.
    destruct (round q); simpl in *; try reflexivity; contradiction.
Qed.

Lemma fle_nonneg (x y : float) :
  nonneg (fneg x) -> nonneg y -> fle x y = true.
Proof.
  destruct x as [a | | |], y as [b | | |]; simpl; try tauto.
  intros Ha Hb. apply Qle_bool_iff. lra.
Qed.

Lemma fle_fneg (x y : float) :
  nonneg x -> nonneg y -> fle x y = true -> fle (fneg y) (fneg x) = true.
Proof.
  destruct x as [a | | |], y as [b | | |]; simpl; try tauto;
    try discriminate.
  intros _ _ H. apply Qle_bool_iff in H. apply Qle_bool_iff. lra.
Qed.

(** Rounding is monotone. *)
Lemma round_monotone (a b : Q) : a <= b -> fle (round a) (round b) = true.
Proof.
  intros Hab.
  destruct (Qlt_le_dec 0 a) as [Ha | Ha].
  - unfold round.
    pose proof (Qred_correct a) as Hra. pose proof (Qred_correct b) as Hrb.
    assert (Ca : (Qred a ?= 0) = Gt) by (apply (proj1 (Qgt_alt _ _)); lra).
    assert (Cb : (Qred b ?= 0) = Gt) by (apply (proj1 (Qgt_alt _ _)); lra).
    rewrite Ca, Cb. apply round_pos_monotone; lra.
  - destruct (Qlt_le_dec b 0) as [Hb | Hb].
    + unfold round.
      pose proof (Qred_correct a) as Hra. pose proof (Qred_correct b) as Hrb.
      assert (Ca : (Qred a ?= 0) = Lt) by (apply (proj1 (Qlt_alt _ _)); lra).
      assert (Cb : (Qred b ?= 0) = Lt) by (apply (proj1 (Qlt_alt _ _)); lra).
      rewrite Ca, Cb.
      assert (Hpb : 0 < - Qred b) by lra.
      assert (Hpa : 0 < - Qred a) by lra.
      apply fle_fneg.
      * apply round_pos_nonneg. exact Hpb.
      * apply round_pos_nonneg. exact Hpa.
      * apply round_pos_monotone; lra.
    + apply fle_nonneg; [apply round_nonpos; exact Ha | apply round_nonneg; exact Hb].
Qed.

Lemma round_one : round 1 = Fin 1.
Proof. vm_compute. reflexivity. Qed.

Lemma representable_round (d : Q) :
  representable d -> exists d' : Q, round d = Fin d' /\ d' == d.
Proof.
  unfold representable, feq. destruct (round d) as [d' | | |];
    try discriminate.
  intros H. apply Qeq_bool_iff in H. exists d'. split; [reflexivity | exact H].
Qed.



(** *** The operations on values that are not negative *)

Lemma nonneg_cases (x : float) :
  nonneg x -> (exists q : Q, x = Fin q /\ 0 <= q) \/ x = PInf.
Proof.
  destruct x as [q | | |]; simpl; try tauto.
  intros H. left. exists q. split; [reflexivity | exact H].
Qed.

Lemma fle_refl_nonneg (x : float) : nonneg x -> fle x x = true.
Proof.
  destruct x as [q | | |]; simpl; try tauto.
  intros _. apply Qle_bool_iff. lra.
Qed.

Lemma fle_inf (x : float) : nonneg x -> fle x PInf = true.
Proof. destruct x; simpl; try reflexivity; contradiction. Qed.

Lemma mul_rate_monotone (a b p : Q) :
  0 <= a -> a <= b -> 0 <= p ->
  nonneg (mul (Fin a) (Fin p)) /\ nonneg (mul (Fin b) (Fin p)) /\
  fle (mul (Fin a) (Fin p)) (mul (Fin b) (Fin p)) = true.
Proof.
  intros Ha Hab Hp. unfold mul.
  split; [apply round_nonneg; nra |].
  split; [apply round_nonneg; nra |].
  apply round_monotone. nra.
Qed.

Lemma mul_step_monotone (x y : float) (d : Q) :
  nonneg x -> nonneg y -> fle x y = true -> 0 < d ->
  nonneg (mul x (Fin d)) /\ nonneg (mul y (Fin d)) /\
  fle (mul x (Fin d)) (mul y (Fin d)) = true.
Proof.
  intros Hx Hy Hxy Hd.
  assert (Hinf : mul PInf (Fin d) = PInf).
  { unfold mul, fmul, inf_of_sign, Qsign.
    rewrite (proj1 (Qgt_alt _ _) Hd). reflexivity. }
  destruct (@nonneg_cases _ Hx) as [[a [-> Ha]] | ->];
    destruct (@nonneg_cases _ Hy) as [[b [-> Hb]] | ->].
  - simpl in Hxy. apply Qle_bool_iff in Hxy. unfold mul.
    split; [apply round_nonneg; nra |].
    split; [apply round_nonneg; nra |].
    apply round_monotone. nra.
  - rewrite Hinf. unfold mul.
    assert (Hn : nonneg (round (a * d))) by (apply round_nonneg; nra).
    split; [exact Hn |]. split; [exact I |].
    apply fle_inf. exact Hn.
  - discriminate Hxy.
  - rewrite Hinf. repeat split.
Qed.

Lemma add_nonneg_monotone (a1 a2 t1 t2 : float) :
  nonneg a1 -> nonneg a2 -> nonneg t1 -> nonneg t2 ->
  fle a1 a2 = true -> fle t1 t2 = true ->
  nonneg (add a1 t1) /\ nonneg (add a2 t2) /\
  fle (add a1 t1) (add a2 t2) = true.
Proof.
  intros Ha1 Ha2 Ht1 Ht2 Ha Ht.
  destruct (@nonneg_cases _ Ha1) as [[x1 [-> Hx1]] | ->];
    destruct (@nonneg_cases _ Ha2) as [[x2 [-> Hx2]] | ->];
    destruct (@nonneg_cases _ Ht1) as [[y1 [-> Hy1]] | ->];
    destruct (@nonneg_cases _ Ht2) as [[y2 [-> Hy2]] | ->];
    try discriminate Ha; try discriminate Ht;
    unfold add; cbn [fadd];
    (split; [first [exact I | apply round_nonneg; lra] |]);
    (split; [first [exact I | apply round_nonneg; lra] |]);
    first [ reflexivity
          | apply fle_inf; apply round_nonneg; lra
          | idtac ].
  simpl in Ha, Ht. apply Qle_bool_iff in Ha, Ht.
  apply round_monotone. lra.
Qed.

End Binary64Facts.

(** ** The Hamiltonian builder *)

Module HamiltonianFacts.

Import Hamiltonian.

(** Case analysis on the index tests of an entry formula. *)
Ltac index_cases :=
  repeat match goal with
    | |- context [?a =? ?b] => destruct (Nat.eqb_spec a b)
    | |- context [?a <? ?b] => destruct (Nat.ltb_spec a b)
    end;
  simpl; subst; try reflexivity; try lia.

Lemma couple_loop (epsilon J : list float) (n : nat) :
  n <= length epsilon - 1 -> n <= length J ->
  for_each (couple J) (seq 0 n) (np_diag epsilon) =
  Ok (mbuild (length epsilon) (length epsilon) (LoopInv.hamiltonian_partial epsilon J n)).
Proof.
  intros Hn HJ.
  set (N := length epsilon) in *.
  destruct (@for_each_seq_inv _
              (fun k H => H = mbuild N N (LoopInv.hamiltonian_partial epsilon J k))
              (couple J) n 0 (np_diag epsilon)) as [H [Hrun Hinv]].
  - unfold np_diag. apply mbuild_ext. intros i j _ _.
    unfold LoopInv.hamiltonian_partial. index_cases.
  - intros k H Hk ->. unfold couple.
    rewrite (index_Ok J zero) by lia. simpl.
    rewrite setitem_mbuild by lia. simpl.
    rewrite setitem_mbuild by lia.
    eexists. split; [reflexivity |].
    apply mbuild_ext. intros i j _ _. unfold LoopInv.hamiltonian_partial. index_cases.
  - rewrite Hrun. simpl in Hinv. rewrite Hinv. reflexivity.
Qed.

(** With enough couplings the builder returns the matrix of Section 4.1. *)
Lemma build_hamiltonian_ok (epsilon J : list float) :
  length epsilon - 1 <= length J ->
  build_hamiltonian epsilon J = Ok (Spec.hamiltonian_matrix epsilon J).
Proof.
  intros HJ. unfold build_hamiltonian, range.
  rewrite couple_loop by lia. simpl.
  unfold astype_complex. rewrite mmap_mbuild.
  unfold Spec.hamiltonian_matrix. f_equal.
  apply mbuild_ext. intros i j Hi Hj.
  unfold LoopInv.hamiltonian_partial, Spec.hamiltonian_entry. index_cases.
Qed.

(** With too few couplings the loop reads past the end of [J]. *)
Lemma build_hamiltonian_short (epsilon J : list float) :
  length J + 1 < length epsilon ->
  build_hamiltonian epsilon J = Raise IndexError.
Proof.
  intros HJ. unfold build_hamiltonian, range.
  replace (length epsilon - 1)
    with (length J + Datatypes.S (length epsilon - 2 - length J)) by lia.
  rewrite seq_app, for_each_app.
  rewrite couple_loop by lia. simpl.
  unfold couple at 1. rewrite index_Raise by lia. reflexivity.
Qed.

Lemma hamiltonian_matrix_firstn (epsilon J : list float) :
  Spec.hamiltonian_matrix epsilon (firstn (length epsilon - 1) J) =
  Spec.hamiltonian_matrix epsilon J.
Proof.
  unfold Spec.hamiltonian_matrix. apply mbuild_ext. intros i j Hi Hj.
  unfold Spec.hamiltonian_entry.
  assert (Hnth : forall k, k < length epsilon - 1 ->
            nth k (firstn (length epsilon - 1) J) zero = nth k J zero).
  { intros k Hk. rewrite nth_firstn.
    destruct (Nat.ltb_spec k (length epsilon - 1)); [reflexivity | lia]. }
  index_cases; rewrite Hnth by lia; reflexivity.
Qed.

(** C1, as the code has it: [build_hamiltonian] does not validate the
    lengths.  When [J] is too short, reading the first missing coupling
    raises [IndexError]; when [J] is too long, the call succeeds and
    returns the matrix built from the first [len(epsilon) - 1] couplings,
    the others being ignored. *)
Theorem build_hamiltonian_length_mismatch (epsilon J : list float) :
  (length J + 1 < length epsilon ->
   build_hamiltonian epsilon J = Raise IndexError) /\
  (length epsilon < length J + 1 ->
   build_hamiltonian epsilon J =
   Ok (Spec.hamiltonian_matrix epsilon (firstn (length epsilon - 1) J))).
Proof.
  split.
  - apply build_hamiltonian_short.
  - intros HJ. rewrite hamiltonian_matrix_firstn.
    apply build_hamiltonian_ok. lia.
Qed.

Lemma build_hamiltonian_length_mismatch_witness :
  build_hamiltonian [Fin 0; Fin 0; Fin 5] [Fin 1] = Raise IndexError /\
  build_hamiltonian [Fin 0; Fin 0] [Fin 1; Fin 2; Fin 3] =
  Ok (Spec.hamiltonian_matrix [Fin 0; Fin 0] [Fin 1]).
Proof.
  split.
  - apply (build_hamiltonian_length_mismatch [Fin 0; Fin 0; Fin 5] [Fin 1]).
    simpl; lia.
  - apply (build_hamiltonian_length_mismatch
             [Fin 0; Fin 0] [Fin 1; Fin 2; Fin 3]).
    simpl; lia.
Defined.

(** C1 fails as stated: three couplings for two sites are not rejected; a
    matrix comes back, built from the first coupling alone. *)
Lemma build_hamiltonian_accepts_long_J :
  Z.of_nat (length [Fin 1; Fin 2; Fin 3]) <>
    (Z.of_nat (length [Fin 0; Fin 0]) - 1)%Z /\
  build_hamiltonian [Fin 0; Fin 0] [Fin 1; Fin 2; Fin 3] =
  Ok (Mat 2 2 [Cplx (Fin 0) (Fin 0); Cplx (Fin 1) (Fin 0);
               Cplx (Fin 1) (Fin 0); Cplx (Fin 0) (Fin 0)]).
Proof. split; [discriminate | reflexivity]. Qed.

Lemma cconj_of_float (x : float) : cconj (of_float x) = of_float x.
Proof. reflexivity. Qed.

Lemma hamiltonian_entry_conj_sym (epsilon J : list float) (i j : nat) :
  cconj (Spec.hamiltonian_entry epsilon J j i) =
  Spec.hamiltonian_entry epsilon J i j.
Proof.
  unfold Spec.hamiltonian_entry. index_cases.
Qed.

Lemma conj_transpose_mbuild (n : nat) (f : nat -> nat -> complex) :
  Spec.conj_transpose (mbuild n n f) = mbuild n n (fun i j => cconj (f j i)).
Proof.
  unfold Spec.conj_transpose, conj, transpose. rewrite mmap_mbuild. simpl.
  apply mbuild_ext. intros i j Hi Hj.
  rewrite mget_mbuild by assumption. reflexivity.
Qed.

(** C6: for [len(epsilon) = N] and [len(J) = N - 1], [build_hamiltonian]
    returns an [N] by [N] matrix [H] that equals its own conjugate
    transpose, with [diag = epsilon], [H[i,i+1] = H[i+1,i] = J[i]], and zero
    at every entry more than one index away from the diagonal. *)
Theorem build_hamiltonian_hermitian_tridiagonal (epsilon J : list float) :
  length epsilon = length J + 1 ->
  exists H : matrix complex,
    build_hamiltonian epsilon J = Ok H /\
    shape H = (length epsilon, length epsilon) /\
    Spec.conj_transpose H = H /\
    (forall i, i < length epsilon ->
       mget czero H i i = of_float (nth i epsilon zero)) /\
    (forall i, i < length J ->
       mget czero H i (i + 1) = of_float (nth i J zero) /\
       mget czero H (i + 1) i = of_float (nth i J zero)) /\
    (forall i j, i < length epsilon -> j < length epsilon ->
       i + 1 < j \/ j + 1 < i -> mget czero H i j = czero).
Proof.
  intros HN. exists (Spec.hamiltonian_matrix epsilon J).
  split; [apply build_hamiltonian_ok; lia |].
  unfold Spec.hamiltonian_matrix.
  split; [reflexivity |].
  split.
  { rewrite conj_transpose_mbuild. apply mbuild_ext. intros i j _ _.
    apply hamiltonian_entry_conj_sym. }
  split.
  { intros i Hi. rewrite mget_mbuild by lia.
    unfold Spec.hamiltonian_entry. index_cases. }
  split.
  { intros i Hi. split; rewrite mget_mbuild by lia;
      unfold Spec.hamiltonian_entry; index_cases. }
  intros i j Hi Hj Hfar. rewrite mget_mbuild by lia.
  unfold Spec.hamiltonian_entry. index_cases.
Qed.

Lemma build_hamiltonian_hermitian_tridiagonal_witness :
  exists H : matrix complex,
    build_hamiltonian [Fin 1; Fin 2; Fin 3] [Fin (1 # 2); Fin (1 # 4)] = Ok H /\
    Spec.conj_transpose H = H.
Proof.
  destruct (build_hamiltonian_hermitian_tridiagonal
              [Fin 1; Fin 2; Fin 3] [Fin (1 # 2); Fin (1 # 4)])
    as [H [Hrun [_ [Hherm _]]]].
  - reflexivity.
  - exists H. split; assumption.
Defined.

End HamiltonianFacts.

(** ** The Lindblad operator builder *)

Module LindbladFacts.

Import Config Simulate.

Lemma flat_map_singleton {X A : Type} (f : X -> A) (l : list X) :
  flat_map (fun x => [f x]) l = map f l.
Proof. induction l as [|x l IH]; simpl; congruence. Qed.

Lemma flat_map_skip {X A : Type} (f : X -> A) (skip : X -> bool) (l : list X) :
  flat_map (fun x => if skip x then [] else [f x]) l =
  map f (filter (fun x => negb (skip x)) l).
Proof.
  induction l as [|x l IH]; simpl; [reflexivity |].
  destruct (skip x); simpl; congruence.
Qed.

Lemma filter_all {X : Type} (p : X -> bool) (l : list X) :
  (forall x, In x l -> p x = true) -> filter p l = l.
Proof.
  induction l as [|x l IH]; intros H; simpl; [reflexivity |].
  rewrite H by (left; reflexivity).
  rewrite IH by (intros y Hy; apply H; right; exact Hy). reflexivity.
Qed.

(** Every site except the sink, in order. *)
Lemma all_but_seq (sink N : nat) :
  sink < N ->
  Spec.all_but sink N = seq 0 sink ++ seq (S sink) (N - S sink).
Proof.
  intros Hs. unfold Spec.all_but.
  replace N with (sink + S (N - S sink)) at 1 by lia.
  rewrite seq_app, filter_app. simpl.
  rewrite Nat.eqb_refl. simpl. f_equal.
  - apply filter_all. intros x Hx. apply in_seq in Hx.
    destruct (Nat.eqb_spec x sink); [lia | reflexivity].
  - apply filter_all. intros x Hx. apply in_seq in Hx.
    destruct (Nat.eqb_spec x sink); [lia | reflexivity].
Qed.

Lemma all_but_length (sink N : nat) :
  sink < N -> length (Spec.all_but sink N) = N - 1.
Proof.
  intros Hs. rewrite all_but_seq by exact Hs.
  rewrite length_app, !length_seq. lia.
Qed.

(** No site is dropped when the sink is not one of the [N] sites. *)
Lemma all_but_outside (sink N : nat) :
  N <= sink -> Spec.all_but sink N = seq 0 N.
Proof.
  intros Hs. apply filter_all. intros x Hx. apply in_seq in Hx.
  destruct (Nat.eqb_spec x sink); [lia | reflexivity].
Qed.

Section WithSqrt.
Variable np_sqrt : float -> float.

Lemma site_operator_ok (N : nat) (rate : float) (i : nat) :
  i < N ->
  site_operator np_sqrt N rate i = Ok (Spec.scaled_projector np_sqrt N rate i).
Proof.
  intros Hi. unfold site_operator, np_zeros.
  rewrite setitem_mbuild by exact Hi. reflexivity.
Qed.

Lemma site_operator_out_of_range (N : nat) (rate : float) (i : nat) :
  N <= i -> site_operator np_sqrt N rate i = Raise IndexError.
Proof.
  intros Hi. unfold site_operator.
  rewrite setitem_out_of_range by (left; simpl; exact Hi). reflexivity.
Qed.

(** A jump operator has a single nonzero entry: where [sqrt(rate)] is a
    finite value [q], entry [(i, i)] is [q] and every other entry is 0. *)
Lemma scaled_projector_entries (N : nat) (rate : float) (i a b : nat) (q : Q) :
  np_sqrt rate = Fin q -> a < N -> b < N ->
  let z := mget czero (Spec.scaled_projector np_sqrt N rate i) a b in
  feq (re z) (if (a =? i) && (b =? i) then Fin q else zero) = true /\
  feq (im z) zero = true.
Proof.
  intros Hq Ha Hb. unfold Spec.scaled_projector, Spec.projector, scale.
  rewrite mmap_mbuild, mget_mbuild by assumption. rewrite Hq.
  destruct ((a =? i) && (b =? i)); simpl;
    split; apply Qeq_bool_iff; ring.
Qed.

(** The two loops always succeed: they only touch sites below [num_sites]. *)
Lemma lindblad_loops (N : nat) (gamma k_loss : float) :
  (L_ops <- for_each (fun i L_ops =>
               L <- site_operator np_sqrt N gamma i ;; Ok (L_ops ++ [L]))
             (range N) [] ;;
   for_each (fun i L_ops =>
               if i =? SINK_INDEX then Ok L_ops
               else L <- site_operator np_sqrt N k_loss i ;; Ok (L_ops ++ [L]))
            (range N) L_ops) =
  Ok (map (Spec.scaled_projector np_sqrt N gamma) (seq 0 N)
      ++ map (Spec.scaled_projector np_sqrt N k_loss)
             (Spec.all_but SINK_INDEX N)).
Proof.
  unfold range.
  rewrite (for_each_append _
             (fun i => [Spec.scaled_projector np_sqrt N gamma i])).
  2:{ intros i L Hi. apply in_seq in Hi.
      rewrite site_operator_ok by lia. reflexivity. }
  simpl. rewrite flat_map_singleton.
  rewrite (for_each_append _
             (fun i => if i =? SINK_INDEX then []
                       else [Spec.scaled_projector np_sqrt N k_loss i])).
  2:{ intros i L Hi. apply in_seq in Hi.
      destruct (i =? SINK_INDEX); [rewrite app_nil_r; reflexivity |].
      rewrite site_operator_ok by lia. reflexivity. }
  rewrite (flat_map_skip (Spec.scaled_projector np_sqrt N k_loss)
             (fun i => i =? SINK_INDEX)).
  reflexivity.
Qed.

Lemma build_lindblad_ops_unfold (N : nat) (gamma k_sink k_loss : float) :
  build_lindblad_ops np_sqrt N gamma k_sink k_loss =
  (L <- site_operator np_sqrt N k_sink SINK_INDEX ;;
   Ok ((map (Spec.scaled_projector np_sqrt N gamma) (seq 0 N)
        ++ map (Spec.scaled_projector np_sqrt N k_loss)
               (Spec.all_but SINK_INDEX N)) ++ [L])).
Proof.
  pose proof (lindblad_loops N gamma k_loss) as Hloops.
  unfold build_lindblad_ops.
  destruct (for_each _ (range N) []) as [L1 | e1]; simpl in *.
  - rewrite Hloops. reflexivity.
  - discriminate.
Qed.

(** C2, as the code has it: the sink is the configured site
    [SINK_INDEX = NUM_ETC_SITES - 1 = 6], whatever [num_sites] is.  For
    [num_sites > 6] the result is the ordered set of [2 * num_sites]
    operators: [num_sites] dephasing operators [sqrt(gamma) |i><i|], then
    the [num_sites - 1] loss operators [sqrt(k_loss) |i><i|] of the sites
    other than site 6, then the sink operator [sqrt(k_sink) |6><6|].  The
    sink is the last site, [num_sites - 1], exactly for
    [num_sites = NUM_ETC_SITES = 7].  For [num_sites <= 6] the call raises
    [IndexError]. *)
Theorem build_lindblad_ops_configured_sink
  (N : nat) (gamma k_sink k_loss : float) :
  (SINK_INDEX < N ->
   build_lindblad_ops np_sqrt N gamma k_sink k_loss =
     Ok (Spec.jump_operators np_sqrt N SINK_INDEX gamma k_sink k_loss) /\
   length (Spec.jump_operators np_sqrt N SINK_INDEX gamma k_sink k_loss)
     = 2 * N /\
   Spec.all_but SINK_INDEX N =
     seq 0 SINK_INDEX ++ seq (S SINK_INDEX) (N - S SINK_INDEX)) /\
  (N = NUM_ETC_SITES -> SINK_INDEX = N - 1) /\
  (N <= SINK_INDEX ->
   build_lindblad_ops np_sqrt N gamma k_sink k_loss = Raise IndexError).
Proof.
  split; [| split].
  - intros HN. split; [| split].
    + rewrite build_lindblad_ops_unfold.
      rewrite site_operator_ok by exact HN. simpl.
      unfold Spec.jump_operators. rewrite <- app_assoc. reflexivity.
    + unfold Spec.jump_operators.
      rewrite !length_app, !length_map, length_seq.
      rewrite all_but_length by exact HN. simpl. lia.
    + apply all_but_seq. exact HN.
  - intros ->. reflexivity.
  - intros HN. rewrite build_lindblad_ops_unfold.
    rewrite site_operator_out_of_range by exact HN. reflexivity.
Qed.

End WithSqrt.

Lemma build_lindblad_ops_configured_sink_witness :
  build_lindblad_ops approx_sqrt 7 (Fin (1 # 4)) (Fin 1) (Fin 4) =
    Ok (Spec.jump_operators approx_sqrt 7 6 (Fin (1 # 4)) (Fin 1) (Fin 4)) /\
  SINK_INDEX = 7 - 1 /\
  build_lindblad_ops approx_sqrt 3 (Fin (1 # 4)) (Fin 1) (Fin 4) =
    Raise IndexError.
Proof.
  split; [| split].
  - apply (build_lindblad_ops_configured_sink
             approx_sqrt 7 (Fin (1 # 4)) (Fin 1) (Fin 4)).
    unfold SINK_INDEX, NUM_ETC_SITES. simpl. lia.
  - apply (build_lindblad_ops_configured_sink
             approx_sqrt 7 (Fin (1 # 4)) (Fin 1) (Fin 4)).
    reflexivity.
  - apply (build_lindblad_ops_configured_sink
             approx_sqrt 3 (Fin (1 # 4)) (Fin 1) (Fin 4)).
    unfold SINK_INDEX, NUM_ETC_SITES. simpl. lia.
Defined.

(** C2 fails as stated: for three sites and rates 1/4, 1 and 4 no operator
    set is returned, the sink operator is written outside the 3 by 3 array;
    and for eight sites the last operator is the projector on site 6, not on
    the last site 7. *)
Lemma build_lindblad_ops_sink_not_last :
  (1 <= 3 /\
   build_lindblad_ops approx_sqrt 3 (Fin (1 # 4)) (Fin 1) (Fin 4) =
     Raise IndexError) /\
  (exists L_ops,
     build_lindblad_ops approx_sqrt 8 (Fin (1 # 4)) (Fin 1) (Fin 4) =
       Ok L_ops /\
     nth_error L_ops 15 = Some (Spec.scaled_projector approx_sqrt 8 (Fin 1) 6) /\
     nth_error L_ops 15 <> Some (Spec.scaled_projector approx_sqrt 8 (Fin 1) 7)).
Proof.
  split.
  - split; [lia | reflexivity].
  - eexists. split; [vm_compute; reflexivity |].
    split; [vm_compute; reflexivity | vm_compute; discriminate].
Qed.

End LindbladFacts.

(** ** Energy transfer efficiency *)

Module EteFacts.

Import Metrics.

Lemma getitem_inside (sink : nat) (rho : matrix complex) :
  Spec.sink_inside sink rho ->
  getitem rho sink sink = Ok (mget czero rho sink sink).
Proof.
  intros [Hwf [Hr Hc]]. unfold getitem.
  destruct (Nat.ltb_spec sink (nrows rho)); [| lia].
  destruct (Nat.ltb_spec sink (ncols rho)); [| lia]. simpl.
  apply index_Ok. rewrite Hwf. apply flat_index_lt; assumption.
Qed.

Lemma riemann_sum_app (k dt : float) (P Q : list float) (n : nat) :
  n <= length P ->
  Spec.riemann_sum k dt (P ++ Q) n = Spec.riemann_sum k dt P n.
Proof.
  induction n as [|n IH]; intros Hn; simpl; [reflexivity |].
  rewrite IH by lia. rewrite app_nth1 by lia. reflexivity.
Qed.

Lemma riemann_sum_snoc (k dt : float) (P : list float) (p : float) :
  Spec.riemann_sum k dt (P ++ [p]) (S (length P)) =
  (Spec.riemann_sum k dt P (length P) + k * p * dt)%float.
Proof.
  simpl. rewrite riemann_sum_app by lia.
  rewrite nth_middle. reflexivity.
Qed.

(** The accumulation loop, started from the sum of an earlier part [done]
    of the trajectory. *)
Lemma ete_loop (sink : nat) (k dt : float) (todo done : list (matrix complex)) :
  Forall (Spec.sink_inside sink) todo ->
  for_each (ete_step sink k dt) todo
    (Spec.riemann_sum k dt (Spec.sink_populations done sink) (length done)) =
  Ok (Spec.riemann_sum k dt (Spec.sink_populations (done ++ todo) sink)
        (length (done ++ todo))).
Proof.
  revert done; induction todo as [|rho todo IH]; intros done Hin; simpl.
  - rewrite app_nil_r. reflexivity.
  - inversion Hin as [| ? ? Hrho Htodo]; subst.
    unfold ete_step at 1. rewrite getitem_inside by exact Hrho. simpl.
    specialize (IH (done ++ [rho]) Htodo).
    rewrite <- app_assoc in IH. simpl in IH. rewrite <- IH. f_equal.
    unfold Spec.sink_populations. rewrite map_app, length_app. simpl.
    rewrite Nat.add_1_r. rewrite <- (length_map
      (fun rho0 => re (mget czero rho0 sink sink)) done) at 2.
    rewrite riemann_sum_snoc. rewrite length_map. reflexivity.
Qed.

(** The loop of [compute_ete] adds one term for every sample. *)
Lemma compute_ete_sum (trajectory : list (matrix complex))
  (sink : nat) (k_sink dt : float) :
  Forall (Spec.sink_inside sink) trajectory ->
  compute_ete trajectory sink k_sink dt =
  Ok (np_clip (Spec.riemann_sum k_sink dt
                 (Spec.sink_populations trajectory sink)
                 (length trajectory)) zero one).
Proof.
  intros Hin. unfold compute_ete.
  pose proof (@ete_loop sink k_sink dt trajectory [] Hin) as Hloop.
  simpl in Hloop. rewrite Hloop. reflexivity.
Qed.

(** C3, as the code has it: for a sink index inside every sample,
    [compute_ete] equals [clip(sum over t of k_sink * Re(rho_t[sink,sink])
    * dt, 0, 1)] where [t] runs over every sample of the trajectory, the one
    at the final time included. *)
Theorem compute_ete_all_samples (trajectory : list (matrix complex))
  (sink : nat) (k_sink dt : float) :
  Forall (Spec.sink_inside sink) trajectory ->
  compute_ete trajectory sink k_sink dt =
  Ok (Spec.ete_all_samples trajectory sink k_sink dt).
Proof.
  intros Hin. unfold Spec.ete_all_samples. apply compute_ete_sum. exact Hin.
Qed.

Lemma compute_ete_all_samples_witness :
  Forall (Spec.sink_inside 0)
    [Mat 1 1 [Cplx (Fin 0) zero]; Mat 1 1 [Cplx (Fin 1) zero]] /\
  compute_ete [Mat 1 1 [Cplx (Fin 0) zero]; Mat 1 1 [Cplx (Fin 1) zero]]
    0 (Fin 1) (Fin (1 # 2)) =
  Ok (Spec.ete_all_samples
        [Mat 1 1 [Cplx (Fin 0) zero]; Mat 1 1 [Cplx (Fin 1) zero]]
        0 (Fin 1) (Fin (1 # 2))).
Proof.
  assert (H : Forall (Spec.sink_inside 0)
                [Mat 1 1 [Cplx (Fin 0) zero]; Mat 1 1 [Cplx (Fin 1) zero]]).
  { repeat constructor. }
  split; [exact H |].
  apply (compute_ete_all_samples (Fin 1) (Fin (1 # 2)) H).
Defined.

(** C3 fails as stated: on the two samples with sink populations 0 and 1,
    with [k_sink = 1] and [dt = 1/2], [compute_ete] returns 1/2, the term of
    the final sample; the left Riemann sum, which leaves that sample out,
    is 0. *)
Lemma compute_ete_counts_final_sample :
  compute_ete [Mat 1 1 [Cplx (Fin 0) zero]; Mat 1 1 [Cplx (Fin 1) zero]]
    0 (Fin 1) (Fin (1 # 2)) = Ok (Fin (2 # 4)) /\
  Spec.ete_left_riemann
    [Mat 1 1 [Cplx (Fin 0) zero]; Mat 1 1 [Cplx (Fin 1) zero]]
    0 (Fin 1) (Fin (1 # 2)) = Fin 0 /\
  feq (Fin (2 # 4)) (Fin 0) = false.
Proof. repeat split. Qed.

(** *** Monotonicity in [k_sink] *)

Lemma sink_populations_finite (sink : nat) (trajectory : list (matrix complex)) :
  Forall (Spec.sink_finite sink) trajectory ->
  exists P : list Q, Spec.sink_populations trajectory sink = map Fin P /\
                     Forall (Spec.sink_inside sink) trajectory.
Proof.
  induction 1 as [| rho l [Hin Hfin] _ [P [HP Hall]]].
  - exists []. split; [reflexivity | constructor].
  - simpl. destruct (re (mget czero rho sink sink)) as [q | | |] eqn:E;
      try discriminate.
    exists (q :: P). simpl. rewrite HP. split; [reflexivity |].
    constructor; assumption.
Qed.

Lemma riemann_sum_exact (k dt : Q) (P : list Q) (n : nat) :
  Spec.riemann_sum (Fin k) (Fin dt) (map Fin P) n =
  Fin (Exact.qriemann k dt P n).
Proof.
  induction n as [|n IH]; simpl; [reflexivity |].
  rewrite IH. change zero with (Fin 0). rewrite (map_nth Fin). reflexivity.
Qed.

Lemma qriemann_factor (k dt : Q) (P : list Q) (n : nat) :
  (Exact.qriemann k dt P n == k * (dt * Exact.qtotal P n))%Q.
Proof.
  induction n as [|n IH]; simpl.
  - ring.
  - rewrite IH. ring.
Qed.

Lemma np_clip_exact (x : Q) :
  np_clip (Fin x) zero one = Fin (Exact.qclip01 x).
Proof.
  unfold np_clip, np_maximum, np_minimum, Exact.qclip01, zero, one, fle.
  destruct (Qle_bool x 0); simpl;
    [destruct (Qle_bool 0 1) | destruct (Qle_bool x 1)]; reflexivity.
Qed.

Lemma qclip01_cases (x : Q) :
  (x <= 0 /\ Exact.qclip01 x == 0 \/
   0 < x <= 1 /\ Exact.qclip01 x == x \/
   1 < x /\ Exact.qclip01 x == 1)%Q.
Proof.
  unfold Exact.qclip01.
  destruct (Qle_bool x 0) eqn:E0.
  - apply Qle_bool_iff in E0. left. split; [exact E0 | reflexivity].
  - assert (H0 : (0 < x)%Q).
    { apply Qnot_le_lt. intros H. apply Qle_bool_iff in H. congruence. }
    destruct (Qle_bool x 1) eqn:E1.
    + apply Qle_bool_iff in E1. right; left.
      split; [split; assumption | reflexivity].
    + right; right. split; [| reflexivity].
      apply Qnot_le_lt. intros H. apply Qle_bool_iff in H. congruence.
Qed.

#[local] Instance qclip01_proper :
  Morphisms.Proper (Qeq ==> Qeq)%signature Exact.qclip01.
Proof.
  intros x y Hxy.
  destruct (qclip01_cases x) as [[Hx Ex] | [[Hx Ex] | [Hx Ex]]];
  destruct (qclip01_cases y) as [[Hy Ey] | [[Hy Ey] | [Hy Ey]]];
  rewrite Ex, Ey; lra.
Qed.

Lemma qclip01_monotone (x y : Q) :
  (x <= y -> Exact.qclip01 x <= Exact.qclip01 y)%Q.
Proof.
  intros Hxy.
  destruct (qclip01_cases x) as [[Hx Ex] | [[Hx Ex] | [Hx Ex]]];
  destruct (qclip01_cases y) as [[Hy Ey] | [[Hy Ey] | [Hy Ey]]];
  rewrite Ex, Ey; lra.
Qed.

Lemma qclip01_bounds (x : Q) : (0 <= Exact.qclip01 x <= 1)%Q.
Proof.
  destruct (qclip01_cases x) as [[Hx Ex] | [[Hx Ex] | [Hx Ex]]];
    rewrite Ex; lra.
Qed.

(** [k * s] clipped to [[0, 1]] does not decrease when [k >= 0] grows,
    whatever the sign of [s]. *)
Lemma qclip01_scale_monotone (a b s : Q) :
  (0 <= a -> a <= b -> Exact.qclip01 (a * s) <= Exact.qclip01 (b * s))%Q.
Proof.
  intros Ha Hab.
  destruct (Qlt_le_dec s 0) as [Hs | Hs].
  - assert (Ha' : (a * s <= 0)%Q) by nra.
    assert (Hb' : (b * s <= 0)%Q) by nra.
    destruct (qclip01_cases (a * s)) as [[Hx Ex] | [[Hx Ex] | [Hx Ex]]];
    destruct (qclip01_cases (b * s)) as [[Hy Ey] | [[Hy Ey] | [Hy Ey]]];
    rewrite Ex, Ey; lra.
  - apply qclip01_monotone. nra.
Qed.

Lemma compute_ete_exact (trajectory : list (matrix complex)) (sink : nat)
  (dt : Q) :
  Forall (Spec.sink_finite sink) trajectory ->
  exists P : list Q,
    forall k : Q,
      compute_ete trajectory sink (Fin k) (Fin dt) =
      Ok (Fin (Exact.qclip01
                 (Exact.qriemann k dt P (length trajectory)))).
Proof.
  intros Hfin.
  destruct (sink_populations_finite Hfin) as [P [HP Hin]].
  exists P. intros k'.
  rewrite compute_ete_sum by exact Hin.
  rewrite HP, riemann_sum_exact, np_clip_exact.
  reflexivity.
Qed.

(** *** On doubles: the order of two efficiencies *)

Lemma clip_unit_monotone (x y : float) :
  Binary64.nonneg x -> Binary64.nonneg y -> fle x y = true ->
  exists e1 e2 : Q,
    np_clip x zero one = Fin e1 /\ np_clip y zero one = Fin e2 /\
    (0 <= e1)%Q /\ (e1 <= e2)%Q /\ (e2 <= 1)%Q.
Proof.
  intros Hx Hy Hxy.
  assert (Hinf : np_clip PInf zero one = Fin 1) by reflexivity.
  destruct (@Binary64Facts.nonneg_cases _ Hx) as [[a [-> Ha]] | ->];
    destruct (@Binary64Facts.nonneg_cases _ Hy) as [[b [-> Hb]] | ->];
    try discriminate Hxy; rewrite ?Hinf, ?np_clip_exact.
  - simpl in Hxy. apply Qle_bool_iff in Hxy.
    pose proof (qclip01_bounds a). pose proof (qclip01_bounds b).
    pose proof (@qclip01_monotone _ _ Hxy).
    do 2 eexists. repeat split; try reflexivity; lra.
  - pose proof (qclip01_bounds a).
    do 2 eexists. repeat split; try reflexivity; lra.
  - do 2 eexists. repeat split; try reflexivity; lra.
Qed.

(** The loop of [compute_ete] on doubles, on samples whose sink population
    is finite and not negative: each term [k_sink * sink_pop * dt] and each
    partial sum is not negative and does not decrease when [k_sink]
    grows, however the operations round or overflow. *)
Lemma doubles_loop_monotone (sink : nat) (k1 k2 dt : Q)
  (trajectory : list (matrix complex)) :
  Forall (Spec.sink_nonneg sink) trajectory ->
  (0 < dt)%Q -> (0 <= k1)%Q -> (k1 <= k2)%Q ->
  forall a1 a2 : float,
    Binary64.nonneg a1 -> Binary64.nonneg a2 -> fle a1 a2 = true ->
    exists r1 r2 : float,
      for_each (Doubles.ete_step sink (Fin k1) (Fin dt)) trajectory a1
        = Ok r1 /\
      for_each (Doubles.ete_step sink (Fin k2) (Fin dt)) trajectory a2
        = Ok r2 /\
      Binary64.nonneg r1 /\ Binary64.nonneg r2 /\ fle r1 r2 = true.
Proof.
  intros Hall Hdt Hk1 Hk12.
  induction Hall as [| rho trajectory [Hin [p [Hp Hp0]]] _ IH];
    intros a1 a2 Ha1 Ha2 Ha.
  - exists a1, a2. repeat split; assumption.
  - cbn [for_each]. unfold Doubles.ete_step at 1 3.
    rewrite (getitem_inside Hin). cbn [bind]. rewrite Hp.
    destruct (@Binary64Facts.mul_rate_monotone _ _ _ Hk1 Hk12 Hp0)
      as [Hm1 [Hm2 Hm]].
    destruct (@Binary64Facts.mul_step_monotone _ _ _ Hm1 Hm2 Hm Hdt)
      as [Ht1 [Ht2 Ht]].
    destruct (@Binary64Facts.add_nonneg_monotone _ _ _ _ Ha1 Ha2 Ht1 Ht2 Ha Ht)
      as [Hs1 [Hs2 Hs]].
    apply IH; assumption.
Qed.

(** With [k_sink = 0] every term and every partial sum is [0.0], when the
    sink populations are finite. *)
Lemma doubles_loop_zero (sink : nat) (dt : Q)
  (trajectory : list (matrix complex)) :
  Forall (Spec.sink_finite sink) trajectory ->
  for_each (Doubles.ete_step sink (Fin 0) (Fin dt)) trajectory (Fin 0)
    = Ok (Fin 0).
Proof.
  intros Hall.
  induction Hall as [| rho trajectory [Hin Hfin] _ IH]; [reflexivity |].
  cbn [for_each]. unfold Doubles.ete_step at 1.
  rewrite (getitem_inside Hin). cbn [bind].
  destruct (re (mget czero rho sink sink)) as [p | | |]; try discriminate.
  unfold Binary64.mul at 2.
  rewrite (@Binary64Facts.round_comp (0 * p) 0) by ring.
  rewrite Binary64Facts.round_zero. unfold Binary64.mul.
  rewrite (@Binary64Facts.round_comp (0 * dt) 0) by ring.
  rewrite Binary64Facts.round_zero. unfold Binary64.add.
  rewrite (@Binary64Facts.round_comp (0 + 0) 0) by ring.
  rewrite Binary64Facts.round_zero. exact IH.
Qed.

(** C5, as the code has it, in the arithmetic of the program (doubles).
    With [k_sink = 0] [compute_ete] returns 0.0 on every trajectory whose
    sink populations are finite.  On a trajectory whose sink populations are
    finite and not negative, with [dt > 0], [compute_ete] returns a finite
    value in [[0, 1]] for every finite [k_sink >= 0], and that value does not
    decrease when [k_sink] grows.  Neither holds without its condition: an
    infinite population gives [nan] at [k_sink = 0], and with a negative
    population the rounding of the sum can reverse the order. *)
Theorem compute_ete_monotone_in_k_sink (trajectory : list (matrix complex))
  (sink : nat) (dt k1 k2 : Q) :
  (Forall (Spec.sink_finite sink) trajectory ->
   Doubles.compute_ete trajectory sink (Fin 0) (Fin dt) = Ok (Fin 0)) /\
  (Forall (Spec.sink_nonneg sink) trajectory ->
   (0 < dt)%Q -> (0 <= k1)%Q -> (k1 <= k2)%Q ->
   exists e1 e2 : Q,
     Doubles.compute_ete trajectory sink (Fin k1) (Fin dt) = Ok (Fin e1) /\
     Doubles.compute_ete trajectory sink (Fin k2) (Fin dt) = Ok (Fin e2) /\
     (0 <= e1)%Q /\ (e1 <= e2)%Q /\ (e2 <= 1)%Q).
Proof.
  split.
  - intros Hfin. unfold Doubles.compute_ete, zero.
    rewrite (@doubles_loop_zero sink dt trajectory Hfin). reflexivity.
  - intros Hall Hdt Hk1 Hk12.
    assert (H0 : Binary64.nonneg zero) by (simpl; lra).
    assert (H00 : fle zero zero = true) by reflexivity.
    destruct (@doubles_loop_monotone sink k1 k2 dt trajectory Hall Hdt Hk1
                Hk12 zero zero H0 H0 H00)
      as [r1 [r2 [E1 [E2 [Hr1 [Hr2 Hr]]]]]].
    destruct (@clip_unit_monotone _ _ Hr1 Hr2 Hr)
      as [e1 [e2 [C1 [C2 [Hlo [Hle Hhi]]]]]].
    exists e1, e2. unfold Doubles.compute_ete.
    rewrite E1, E2. cbn [bind]. rewrite C1, C2.
    repeat split; assumption.
Qed.

Lemma compute_ete_monotone_in_k_sink_witness :
  Doubles.compute_ete
    [Mat 1 1 [Cplx (Fin 0) zero]; Mat 1 1 [Cplx (Fin 1) zero]]
    0 (Fin 0) (Fin (1 # 2)) = Ok (Fin 0) /\
  exists e1 e2 : Q,
    Doubles.compute_ete
      [Mat 1 1 [Cplx (Fin 0) zero]; Mat 1 1 [Cplx (Fin 1) zero]]
      0 (Fin 1) (Fin (1 # 2)) = Ok (Fin e1) /\
    Doubles.compute_ete
      [Mat 1 1 [Cplx (Fin 0) zero]; Mat 1 1 [Cplx (Fin 1) zero]]
      0 (Fin 2) (Fin (1 # 2)) = Ok (Fin e2) /\
    (0 <= e1)%Q /\ (e1 <= e2)%Q /\ (e2 <= 1)%Q.
Proof.
  assert (Hfin : Forall (Spec.sink_finite 0)
                   [Mat 1 1 [Cplx (Fin 0) zero];
                    Mat 1 1 [Cplx (Fin 1) zero]]).
  { repeat constructor. }
  assert (Hall : Forall (Spec.sink_nonneg 0)
                   [Mat 1 1 [Cplx (Fin 0) zero];
                    Mat 1 1 [Cplx (Fin 1) zero]]).
  { repeat constructor; eexists; (split; [reflexivity | simpl; lra]). }
  assert (Hdt : (0 < 1 # 2)%Q) by reflexivity.
  assert (H01 : (0 <= 1)%Q) by lra.
  assert (H12 : (1 <= 2)%Q) by lra.
  split.
  - exact (proj1 (@compute_ete_monotone_in_k_sink _ 0 (1 # 2) 1 2) Hfin).
  - exact (proj2 (@compute_ete_monotone_in_k_sink _ 0 (1 # 2) 1 2)
             Hall Hdt H01 H12).
Defined.

(** C5 fails as stated, in two ways.  On the one-sample trajectory whose
    sink population is [+inf], with [dt = 1/2], [k_sink = 0] gives
    [0 * inf = nan], and [compute_ete] returns [nan], not 0.  On the
    trajectory with the sink populations [1.0] and [-0.9], with
    [dt = 0.05], the rate [k_sink = 0.1] gives [0.0005000000000000004] and
    the next double after [0.1] gives [0.0004999999999999996]: a larger
    rate, a smaller efficiency.  (All five numbers are doubles, written as
    the fractions they are.) *)
Lemma compute_ete_not_monotone :
  (Doubles.compute_ete [Mat 1 1 [Cplx PInf zero]] 0 (Fin 0) (Fin (1 # 2))
     = Ok NaN /\
   feq NaN zero = false) /\
  (Binary64.representable (3602879701896397 # 36028797018963968) /\
   Binary64.representable (7205759403792795 # 72057594037927936) /\
   Binary64.representable (-8106479329266893 # 9007199254740992) /\
   Binary64.representable (3602879701896397 # 72057594037927936) /\
   ((3602879701896397 # 36028797018963968) <
    (7205759403792795 # 72057594037927936))%Q /\
   Doubles.compute_ete
     [Mat 1 1 [Cplx (Fin 1) zero];
      Mat 1 1 [Cplx (Fin (-8106479329266893 # 9007199254740992)) zero]]
     0 (Fin (3602879701896397 # 36028797018963968))
     (Fin (3602879701896397 # 72057594037927936)) =
     Ok (Fin (9007199254741 # 18014398509481984)) /\
   Doubles.compute_ete
     [Mat 1 1 [Cplx (Fin 1) zero];
      Mat 1 1 [Cplx (Fin (-8106479329266893 # 9007199254740992)) zero]]
     0 (Fin (7205759403792795 # 72057594037927936))
     (Fin (3602879701896397 # 72057594037927936)) =
     Ok (Fin (576460752303423 # 1152921504606846976)) /\
   ((576460752303423 # 1152921504606846976) <
    (9007199254741 # 18014398509481984))%Q).
Proof.
  split; [split; reflexivity |].
  repeat split; vm_compute; reflexivity.
Qed.

End EteFacts.

(** ** The store: which buffers a computation leaves alone *)

Module HeapFacts.

Import Heap.

Import StoreRel.

Lemma only_changes_refl (b : loc) (s : store) : only_changes b s s.
Proof. split; auto. Qed.

Lemma only_changes_trans (b : loc) (s1 s2 s3 : store) :
  only_changes b s1 s2 -> only_changes b s2 s3 -> only_changes b s1 s3.
Proof.
  intros [H1 H1'] [H2 H2']. split; [congruence |].
  intros l Hl. rewrite H2', H1' by exact Hl. reflexivity.
Qed.

Lemma only_changes_update (b : loc) (s : store) (d : list complex) :
  only_changes b s (update s b d).
Proof.
  split; [apply update_length |].
  intros l Hl. apply nth_update_neq. exact Hl.
Qed.

Lemma extends_refl (s : store) : extends s s.
Proof. exists []. rewrite app_nil_r. reflexivity. Qed.

Lemma extends_trans (s1 s2 s3 : store) :
  extends s1 s2 -> extends s2 s3 -> extends s1 s3.
Proof.
  intros [e1 ->] [e2 ->]. exists (e1 ++ e2). rewrite app_assoc. reflexivity.
Qed.

Lemma extends_app (s : store) (ext : list (list complex)) :
  extends s (s ++ ext).
Proof. exists ext. reflexivity. Qed.

Lemma extends_nth (s s' : store) (l : loc) :
  extends s s' -> l < length s -> nth l s' [] = nth l s [].
Proof. intros [ext ->] Hl. apply app_nth1. exact Hl. Qed.

Lemma extends_length (s s' : store) : extends s s' -> length s <= length s'.
Proof. intros [ext ->]. rewrite length_app. lia. Qed.

End HeapFacts.

(** ** The evolution engine *)

Module EvolveFacts.

Import Heap StoreRel HeapFacts Simulate.

(** Unfolding of the store monad. *)
Ltac run_heap :=
  cbv beta iota delta
    [mbind lift ret raise read load alloc write new_array copy flatten
     reshape iadd fst snd].

Section WithExpm.
Variable expm : matrix complex -> matrix complex.

(** *** The dissipator loop writes to [L_D] only *)

Lemma accumulate_only_changes (N : nat) (L_D Lk : ndarray) (u : unit)
  (s : store) :
  only_changes (buf L_D) s (fst (accumulate N L_D Lk u s)).
Proof.
  unfold accumulate. run_heap.
  destruct (dissipator_term N _) as [term | e]; [| apply only_changes_refl].
  destruct (iadd_value _ term) as [new | e]; [| apply only_changes_refl].
  apply only_changes_update.
Qed.

Lemma dissipator_loop_only_changes (N : nat) (L_D : ndarray)
  (L_ops : list ndarray) (u : unit) (s : store) :
  only_changes (buf L_D) s (fst (mfor_each (accumulate N L_D) L_ops u s)).
Proof.
  revert u s; induction L_ops as [|Lk L_ops IH]; intros u s; simpl.
  - apply only_changes_refl.
  - pose proof (accumulate_only_changes N L_D Lk u s) as Hstep.
    unfold mbind at 1.
    destruct (accumulate N L_D Lk u s) as [s1 [u1 | e]]; simpl in *.
    + eapply only_changes_trans; [exact Hstep | apply IH].
    + exact Hstep.
Qed.

(** *** The propagation loop allocates only, and appends to the series *)

Lemma advance_extends (N : nat) (U_dt : matrix complex) (t : float)
  (st : loc * list ndarray) (s : store) :
  extends s (fst (advance N U_dt t st s)) /\
  forall st', snd (advance N U_dt t st s) = Ok st' ->
              exists rho_new, snd st' = snd st ++ [rho_new].
Proof.
  unfold advance. run_heap.
  destruct (matvec U_dt _) as [v' | e];
    [| split; [apply extends_refl | discriminate]].
  destruct (forallb cisfinite v'); run_heap.
  - destruct (length (nth (length s) (s ++ [v']) []) =? N * N).
    + split; [apply extends_app |].
      intros st' E. injection E as <-. eexists. reflexivity.
    + split; [apply extends_app | discriminate].
  - rewrite <- app_assoc.
    destruct (length (nth (length (s ++ [v']))
                        (s ++ [v'] ++ [map cnan_to_num0 v']) []) =? N * N).
    + split; [apply extends_app |].
      intros st' E. injection E as <-. eexists. reflexivity.
    + split; [apply extends_app | discriminate].
Qed.

Lemma propagation_loop_extends (N : nat) (U_dt : matrix complex)
  (ts : list float) (st : loc * list ndarray) (s : store) :
  extends s (fst (mfor_each (advance N U_dt) ts st s)) /\
  forall st', snd (mfor_each (advance N U_dt) ts st s) = Ok st' ->
              exists tail, snd st' = snd st ++ tail /\ length tail = length ts.
Proof.
  revert st s; induction ts as [|t ts IH]; intros st s; simpl.
  - split; [apply extends_refl |].
    intros st' E. injection E as <-. exists []. rewrite app_nil_r. auto.
  - destruct (advance_extends N U_dt t st s) as [Hext Hser].
    unfold mbind at 1 2.
    destruct (advance N U_dt t st s) as [s1 [st1 | e]]; simpl in *.
    + destruct (IH st1 s1) as [Hext' Hser'].
      split; [eapply extends_trans; eassumption |].
      intros st' E. destruct (Hser' st' E) as [tail [Htail Hlen]].
      destruct (Hser st1 eq_refl) as [rho_new Hnew].
      exists (rho_new :: tail). rewrite Htail, Hnew, <- app_assoc.
      simpl. split; [reflexivity | lia].
    + split; [exact Hext | discriminate].
Qed.

(** C9: [time_evolve] leaves every buffer of the caller's store as it was,
    the one of [rho0] among them, whether it returns or raises and whether
    or not the blow-up guard fires; and the first element of the returned
    trajectory is an array with a buffer of its own, allocated by the call,
    with the shape and the entries of [rho0]. *)
Theorem time_evolve_does_not_mutate (rho0 H : ndarray) (L_ops : list ndarray)
  (T_end dt : float) (s : store) :
  buf rho0 < length s ->
  frame (length s) s (fst (time_evolve expm rho0 H L_ops T_end dt s)) /\
  forall series times,
    snd (time_evolve expm rho0 H L_ops T_end dt s) = Ok (series, times) ->
    exists first rest,
      series = first :: rest /\
      length s <= buf first /\
      nr first = nr rho0 /\ nc first = nc rho0 /\
      nth (buf first) (fst (time_evolve expm rho0 H L_ops T_end dt s)) [] =
      nth (buf rho0) s [].
Proof.
  intros Hvalid.
  destruct (time_evolve expm rho0 H L_ops T_end dt s) as [s' r] eqn:E.
  unfold time_evolve in E.
  cbv beta iota delta
    [mbind lift ret raise read load alloc write new_array copy flatten
     reshape iadd] in E.
  cbn [data nrows ncols nr nc buf fst snd].
  destruct (hamiltonian_term _ _) as [L_H | e].
  2:{ injection E as <- <-. split; [split; auto | discriminate]. }
  set (N := nr rho0) in *.
  set (L_D := NdArray (length s) _ _) in E.
  set (s1 := s ++ [_]) in E.
  pose proof (dissipator_loop_only_changes N L_D L_ops tt s1) as [Hlen1 Hkeep1].
  destruct (mfor_each (accumulate N L_D) L_ops tt s1) as [s2 [[] | e]];
    cbn [data nrows ncols nr nc buf fst snd] in *.
  2:{ injection E as <- <-. split; [| discriminate].
      split; [rewrite Hlen1; unfold s1; rewrite length_app; simpl; lia |].
      intros l Hl. rewrite Hkeep1 by (unfold L_D; simpl; lia).
      apply app_nth1. exact Hl. }
  assert (Hs2 : length s2 = length s + 1).
  { rewrite Hlen1. unfold s1. rewrite length_app. simpl. lia. }
  assert (Hold : forall l, l < length s -> nth l s2 [] = nth l s []).
  { intros l Hl. rewrite Hkeep1 by (unfold L_D; simpl; lia).
    apply app_nth1. exact Hl. }
  assert (Hframe2 : frame (length s) s s2).
  { split; [lia | exact Hold]. }
  destruct (madd L_H _) as [L_total | e].
  2:{ injection E as <- <-. split; [exact Hframe2 | discriminate]. }
  destruct (np_arange _ _ _) as [times | e].
  2:{ injection E as <- <-. split; [exact Hframe2 | discriminate]. }
  set (s3 := s2 ++ [nth (buf rho0) s2 []]) in E.
  set (s4 := s3 ++ [nth (buf rho0) s3 []]) in E.
  assert (Hext4 : forall s5, extends s4 s5 ->
            frame (length s) s s5 /\
            nth (length s3) s5 [] = nth (buf rho0) s []).
  { intros s5 Hext. pose proof (extends_length Hext) as Hlen5.
    assert (Hs3 : length s3 = length s + 2).
    { unfold s3. rewrite length_app. simpl. lia. }
    assert (Hs4 : length s4 = length s + 3).
    { unfold s4. rewrite length_app. simpl. lia. }
    split; [split; [lia |] |].
    - intros l Hl. rewrite (extends_nth Hext) by lia.
      unfold s4. rewrite app_nth1 by lia.
      unfold s3. rewrite app_nth1 by lia. apply Hold. exact Hl.
    - rewrite (extends_nth Hext) by lia.
      unfold s4. rewrite nth_middle.
      unfold s3. rewrite app_nth1 by lia. apply Hold. exact Hvalid. }
  destruct (scipy_expm expm _) as [U_dt | e].
  2:{ injection E as <- <-. split; [| discriminate].
      apply Hext4. apply extends_refl. }
  pose proof (propagation_loop_extends N U_dt (tl times)
                (length s2, [NdArray (length s3) N (nc rho0)]) s4)
    as [Hext5 Hser].
  destruct (mfor_each (advance N U_dt) (tl times) _ s4) as [s5 [st | e]];
    cbn [fst snd] in *.
  2:{ injection E as <- <-. split; [| discriminate].
      apply Hext4. exact Hext5. }
  injection E as <- <-.
  split; [apply Hext4; exact Hext5 |].
  intros series times' Eq. injection Eq as <- <-.
  destruct (Hser st eq_refl) as [tail [Htail _]].
  exists (NdArray (length s3) N (nc rho0)), tail.
  split; [exact Htail |]. cbn [buf nr nc].
  split; [unfold s3; rewrite length_app; lia |].
  split; [reflexivity |]. split; [reflexivity |].
  apply Hext4. exact Hext5.
Qed.

(** *** Shapes: on square inputs of one size nothing raises *)

Lemma elementwise_same_shape (f : complex -> complex -> complex)
  (A B : matrix complex) :
  shape A = shape B ->
  exists C, elementwise f A B = Ok C /\ shape C = shape A.
Proof.
  unfold shape. intros E. injection E as Hr Hc.
  unfold elementwise. rewrite <- Hr, <- Hc, !broadcast_dim_same. simpl.
  eexists. split; reflexivity.
Qed.

Lemma hamiltonian_term_shape (N : nat) (H : matrix complex) :
  shape H = (N, N) ->
  exists L_H, hamiltonian_term N H = Ok L_H /\ shape L_H = (N * N, N * N).
Proof.
  unfold shape. intros E. injection E as Hr Hc.
  unfold hamiltonian_term, msub.
  destruct (@elementwise_same_shape csub
              (np_kron (np_identity N) H)
              (np_kron (transpose czero H) (np_identity N)))
    as [D [HD HsD]].
  { unfold shape; simpl. rewrite Hr, Hc. reflexivity. }
  rewrite HD. simpl. eexists. split; [reflexivity |].
  unfold shape in *; simpl in *. rewrite Hr, Hc in HsD. exact HsD.
Qed.

Lemma dissipator_term_shape (N : nat) (Lk : matrix complex) :
  shape Lk = (N, N) ->
  exists term, dissipator_term N Lk = Ok term /\ shape term = (N * N, N * N).
Proof.
  unfold shape. intros E. injection E as Hr Hc.
  unfold dissipator_term, matmul; simpl.
  rewrite Hr, Nat.eqb_refl. simpl.
  set (G := mmul _ Lk).
  assert (HG : nrows G = N /\ ncols G = N).
  { unfold G; simpl. rewrite Hc. auto. }
  destruct HG as [HGr HGc]. clearbody G.
  unfold madd, msub.
  destruct (@elementwise_same_shape cadd
              (np_kron (np_identity N) G)
              (np_kron (transpose czero G) (np_identity N)))
    as [S [HS HsS]].
  { unfold shape; simpl. rewrite HGr, HGc. reflexivity. }
  rewrite HS. simpl.
  destruct (@elementwise_same_shape csub
              (np_kron (conj Lk) Lk)
              (scale (of_float (Fin (1 # 2))) S))
    as [T [HT HsT]].
  { unfold shape in *; simpl in *. rewrite HGr, HGc in HsS.
    injection HsS as -> ->. rewrite Hr, Hc. reflexivity. }
  exists T. split; [exact HT |].
  unfold shape in HsT. rewrite HsT. simpl. rewrite Hr, Hc. reflexivity.
Qed.

Lemma iadd_value_same_shape (A B : matrix complex) :
  shape B = shape A ->
  exists S, iadd_value A B = Ok S /\ shape S = shape A.
Proof.
  intros E. unfold iadd_value, madd.
  destruct (@elementwise_same_shape cadd A B) as [S [HS HsS]];
    [symmetry; exact E |].
  rewrite HS. simpl. unfold shape in HsS. injection HsS as Hr Hc.
  rewrite Hr, Hc, !Nat.eqb_refl. simpl.
  exists S. split; [reflexivity |]. unfold shape. congruence.
Qed.


Lemma dissipator_loop_total (N : nat) (L_D : ndarray) (L_ops : list ndarray)
  (s : store) :
  has_shape (N * N) (N * N) L_D ->
  Forall (has_shape N N) L_ops ->
  exists s', mfor_each (accumulate N L_D) L_ops tt s = (s', Ok tt).
Proof.
  intros [HDr HDc] Hops. revert s.
  induction Hops as [| Lk L_ops [Hr Hc] _ IH]; intros s; simpl.
  - eexists. reflexivity.
  - unfold mbind at 1. unfold accumulate at 1. run_heap.
    destruct (@dissipator_term_shape N (Mat (nr Lk) (nc Lk) (nth (buf Lk) s [])))
      as [term [Hterm Hst]].
    { unfold shape; simpl. rewrite Hr, Hc. reflexivity. }
    rewrite Hterm.
    destruct (@iadd_value_same_shape
                (Mat (nr L_D) (nc L_D) (nth (buf L_D) s [])) term)
      as [new [Hnew _]].
    { rewrite Hst. unfold shape; simpl. rewrite HDr, HDc. reflexivity. }
    rewrite Hnew. apply IH.
Qed.

Lemma matvec_ok (U : matrix complex) (v : list complex) :
  ncols U = length v ->
  exists v', matvec U v = Ok v' /\ length v' = nrows U.
Proof.
  intros E. unfold matvec. rewrite E, Nat.eqb_refl.
  eexists. split; [reflexivity |]. rewrite length_map, length_seq. reflexivity.
Qed.

Lemma advance_total (N : nat) (U_dt : matrix complex) (t : float)
  (st : loc * list ndarray) (s : store) :
  shape U_dt = (N * N, N * N) ->
  length (nth (fst st) s []) = N * N ->
  exists s' st',
    advance N U_dt t st s = (s', Ok st') /\
    length (nth (fst st') s' []) = N * N.
Proof.
  unfold shape. intros E Hlen. injection E as Hr Hc.
  destruct st as [rho_vec series]. simpl in Hlen.
  unfold advance. run_heap.
  destruct (@matvec_ok U_dt (nth rho_vec s [])) as [v' [Hv' Hlen']];
    [congruence |].
  rewrite Hv'. rewrite Hr in Hlen'.
  destruct (forallb cisfinite v'); run_heap.
  - rewrite nth_middle, Hlen', Nat.eqb_refl.
    do 2 eexists. split; [reflexivity |]. simpl.
    rewrite nth_middle. exact Hlen'.
  - rewrite nth_middle, length_map, Hlen', Nat.eqb_refl.
    do 2 eexists. split; [reflexivity |]. simpl.
    rewrite nth_middle, length_map. exact Hlen'.
Qed.

Lemma propagation_loop_total (N : nat) (U_dt : matrix complex)
  (ts : list float) (st : loc * list ndarray) (s : store) :
  shape U_dt = (N * N, N * N) ->
  length (nth (fst st) s []) = N * N ->
  exists s' st', mfor_each (advance N U_dt) ts st s = (s', Ok st').
Proof.
  intros HU. revert st s; induction ts as [|t ts IH]; intros st s Hlen; simpl.
  - do 2 eexists. reflexivity.
  - unfold mbind at 1.
    destruct (@advance_total N U_dt t st s HU Hlen) as [s1 [st1 [Hrun Hlen1]]].
    rewrite Hrun. apply IH. exact Hlen1.
Qed.

(** *** The time grid *)





Lemma mul_step_comp (x : float) (d d' : Q) :
  (d' == d)%Q -> Binary64.mul x (Fin d') = Binary64.mul x (Fin d).
Proof.
  intros E. destruct x as [m | | |]; unfold Binary64.mul, fmul, Qsign;
    try reflexivity.
  - apply Binary64Facts.round_comp. rewrite E. reflexivity.
  - rewrite E. reflexivity.
  - rewrite E. reflexivity.
Qed.

(** The grid that starts at [0.0] with a double step [dt]: element [i] is
    the double [0.0 + i * dt]. *)
Lemma grid_items (d : Q) (n i : nat) :
  Binary64.representable d -> i < n ->
  nth i (map (arange_item (Fin 0) (Binary64.add (Fin 0) (Fin d))
                (Binary64.sub (Binary64.add (Fin 0) (Fin d)) (Fin 0)))
           (seq 0 n)) NaN =
  Spec.double_point (Fin d) i.
Proof.
  intros Hrep Hi.
  destruct (Binary64Facts.representable_round Hrep) as [d' [Hd' Ed']].
  assert (Hnext : Binary64.add (Fin 0) (Fin d) = Fin d').
  { unfold Binary64.add. rewrite <- Hd'.
    apply Binary64Facts.round_comp. ring. }
  assert (Hdelta : Binary64.sub (Fin d') (Fin 0) = Fin d').
  { unfold Binary64.sub, Binary64.add, fneg. rewrite <- Hd'.
    apply Binary64Facts.round_comp. rewrite Ed'. ring. }
  rewrite Hnext, Hdelta.
  rewrite (nth_indep _ NaN (arange_item (Fin 0) (Fin d') (Fin d') 0))
    by (rewrite length_map, length_seq; exact Hi).
  rewrite (map_nth (arange_item (Fin 0) (Fin d') (Fin d'))).
  rewrite seq_nth by exact Hi. cbn [Nat.add].
  unfold Spec.double_point.
  destruct i as [| [| i]]; cbn [arange_item].
  - change (Binary64.of_nat 0) with (Fin 0). unfold Binary64.mul.
    rewrite (@Binary64Facts.round_comp (0 * d) 0) by ring.
    reflexivity.
  - change (Binary64.of_nat 1) with (Fin 1). unfold Binary64.mul.
    rewrite (@Binary64Facts.round_comp (1 * d) d) by ring.
    rewrite Hd'. unfold Binary64.add. rewrite <- Hd'.
    symmetry. apply Binary64Facts.round_comp. rewrite Ed'. ring.
  - rewrite (mul_step_comp _ Ed'). reflexivity.
Qed.

(** *** On well-shaped arguments the call returns *)

Hypothesis expm_shape :
  forall A : matrix complex, nrows A = ncols A -> shape (expm A) = shape A.

(** When [np.arange] returns the grid, [time_evolve] returns it with one
    sample per grid point, and with the copy of [rho0] alone when the grid
    is empty. *)
Lemma time_evolve_total (rho0 H : ndarray) (L_ops : list ndarray)
  (T_end dt : float) (s : store) (times : list float) :
  well_shaped s rho0 H L_ops ->
  np_arange (Fin 0) (Binary64.add T_end dt) dt = Ok times ->
  exists s' series,
    time_evolve expm rho0 H L_ops T_end dt s = (s', Ok (series, times)) /\
    length series = Nat.max 1 (length times).
Proof.
  intros [Hvalid [Hsq [Hbuf [[HHr HHc] Hops]]]] Hgrid.
  unfold time_evolve.
  cbv beta iota delta
    [mbind lift ret raise read load alloc write new_array copy flatten
     reshape iadd].
  cbn [data nrows ncols nr nc buf fst snd].
  set (N := nr rho0) in *.
  destruct (@hamiltonian_term_shape N (Mat (nr H) (nc H) (nth (buf H) s [])))
    as [L_H [HL_H HsH]].
  { unfold shape; simpl. rewrite HHr, HHc. reflexivity. }
  rewrite HL_H.
  set (L_D := NdArray (length s) _ _).
  set (s1 := s ++ [_]).
  destruct (@dissipator_loop_total N L_D L_ops s1) as [s2 Hloop1];
    [split; reflexivity | exact Hops |].
  pose proof (dissipator_loop_only_changes N L_D L_ops tt s1) as [Hlen1 Hkeep1].
  rewrite Hloop1 in Hlen1, Hkeep1 |- *.
  cbn [data nrows ncols nr nc buf fst snd] in *.
  unfold madd.
  match goal with
  | |- context [elementwise cadd L_H ?X] =>
      destruct (@elementwise_same_shape cadd L_H X) as [L_total [Htot Hstot]];
      [rewrite HsH; reflexivity |]
  end.
  rewrite Htot.
  rewrite Hgrid.
  unfold scipy_expm.
  assert (HsL : shape (scale_right L_total (of_float dt)) = (N * N, N * N)).
  { rewrite <- HsH, <- Hstot. reflexivity. }
  assert (Hsquare : nrows (scale_right L_total (of_float dt)) =
                    ncols (scale_right L_total (of_float dt))).
  { unfold shape in HsL. injection HsL as E1 E2. simpl. congruence. }
  rewrite Hsquare, Nat.eqb_refl.
  set (U_dt := expm _).
  assert (HU : shape U_dt = (N * N, N * N)).
  { unfold U_dt. rewrite expm_shape by exact Hsquare. exact HsL. }
  set (s3 := s2 ++ [nth (buf rho0) s2 []]).
  set (s4 := s3 ++ [nth (buf rho0) s3 []]).
  set (st0 := @pair loc (list ndarray) (length s2)
                [NdArray (length s3) N (nc rho0)]).
  assert (Hs2 : length s2 = length s + 1).
  { rewrite Hlen1. unfold s1. rewrite length_app. simpl. lia. }
  assert (Hvec : length (nth (fst st0) s4 []) = N * N).
  { unfold st0, s4, s3; simpl.
    rewrite app_nth1 by (rewrite length_app; simpl; lia).
    rewrite nth_middle.
    rewrite Hkeep1 by (unfold L_D; simpl; lia).
    unfold s1. rewrite app_nth1 by lia. exact Hbuf. }
  destruct (@propagation_loop_total N U_dt (tl times) st0 s4 HU Hvec)
    as [s5 [st5 Hloop2]].
  pose proof (propagation_loop_extends N U_dt (tl times) st0 s4) as [_ Hser].
  rewrite Hloop2 in Hser |- *. cbn [fst snd] in *.
  destruct (Hser st5 eq_refl) as [tail [Htail Hlen]].
  exists s5, (snd st5). split; [reflexivity |].
  rewrite Htail, length_app, Hlen. unfold st0; simpl.
  destruct times; simpl; lia.
Qed.


End WithExpm.

Lemma expm_taylor2_shape (A : matrix complex) :
  nrows A = ncols A -> shape (expm_taylor2 A) = shape A.
Proof. reflexivity. Qed.



Lemma time_evolve_does_not_mutate_witness :
  buf (NdArray 0 1 1) < length [[Cplx PInf zero]; [czero]] /\
  frame 2 [[Cplx PInf zero]; [czero]]
    (fst (time_evolve expm_taylor2 (NdArray 0 1 1) (NdArray 1 1 1) []
            (Fin 1) (Fin (1 # 2)) [[Cplx PInf zero]; [czero]])).
Proof.
  assert (Hvalid : buf (NdArray 0 1 1) < length [[Cplx PInf zero]; [czero]])
    by (simpl; lia).
  split; [exact Hvalid |].
  apply (@time_evolve_does_not_mutate expm_taylor2 (NdArray 0 1 1)
           (NdArray 1 1 1) [] (Fin 1) (Fin (1 # 2)) _ Hvalid).
Defined.

(** A run in which the blow-up guard fires.  [rho0 = [[inf]]]: the first
    product [U_dt @ rho_vec] is [inf + nan j] (buffer 5) and is replaced by
    zeros (buffer 6).  Buffer 0, the one of [rho0], still holds [inf], and
    the first trajectory entry has buffer 4, a copy. *)
Example time_evolve_guard_fires :
  exists s',
    time_evolve expm_taylor2 (NdArray 0 1 1) (NdArray 1 1 1) []
      (Fin 1) (Fin (1 # 2)) [[Cplx PInf zero]; [czero]] =
      (s', Ok ([NdArray 4 1 1; NdArray 6 1 1; NdArray 7 1 1],
               [Fin 0; Fin (1 # 2); Fin 1])) /\
    nth 0 s' [] = [Cplx PInf zero] /\
    nth 4 s' [] = [Cplx PInf zero] /\
    nth 5 s' [] = [Cplx PInf NaN] /\
    nth 6 s' [] = [Cplx (Fin 0) (Fin 0)].
Proof.
  eexists. split; [vm_compute; reflexivity |].
  repeat split.
Qed.

End EvolveFacts.

(** ** Resilience *)

Module ResilienceFacts.

Import Metrics.

(** Past the guard on [base_qhs] the divisor [max(base_qhs, 1e-6)] is not
    zero: the division never raises. *)
Lemma divisor_nonzero (base : float) :
  fle base eps6 = false -> feq (pymax base eps6) zero = false.
Proof.
  destruct base as [b | | |]; unfold pymax, fgt, eps6; simpl;
    try discriminate; try reflexivity.
  intros Hb.
  assert (Hlt : (1 # 1000000 < b)%Q).
  { apply Qnot_le_lt. intros H. apply Qle_bool_iff in H. congruence. }
  assert (Hle : Qle_bool (1 # 1000000) b = true).
  { apply Qle_bool_iff. apply Qlt_le_weak. exact Hlt. }
  rewrite Hle. simpl.
  destruct (Qeq_bool b 0) eqn:E; [| reflexivity].
  apply Qeq_bool_iff in E. rewrite E in Hlt. discriminate.
Qed.

Lemma drop_step_ok (base q : float) (drops : list float) :
  fle base eps6 = false ->
  drop_step base q drops = Ok (drops ++ [Spec.drop base q]).
Proof.
  intros Hb. unfold drop_step, pydiv.
  rewrite (divisor_nonzero _ Hb). reflexivity.
Qed.

Lemma compute_resilience_above (base : float) (perturbed : list float) :
  fle base eps6 = false ->
  compute_resilience base perturbed = Ok (Spec.resilience base perturbed).
Proof.
  intros Hb. unfold compute_resilience. rewrite Hb.
  rewrite (for_each_append _ (fun q => [Spec.drop base q])).
  2:{ intros q L _. apply drop_step_ok. exact Hb. }
  simpl.
  assert (Hmap : flat_map (fun q => [Spec.drop base q]) perturbed =
                 map (Spec.drop base) perturbed).
  { induction perturbed as [|q l IH]; simpl; congruence. }
  rewrite Hmap. reflexivity.
Qed.

(** C8: [compute_resilience] returns exactly 1.0 whenever
    [base_score <= 1e-6], whatever the perturbed list; otherwise it returns
    [clip(1 - mean of max(0, (base - q) / max(base, 1e-6)), 0, 1)], the mean
    of no score counting as 0. *)
Theorem compute_resilience_formula (base : float) (perturbed : list float) :
  (fle base (Fin (1 # 1000000)) = true ->
   compute_resilience base perturbed = Ok (Fin 1)) /\
  (fle base (Fin (1 # 1000000)) = false ->
   compute_resilience base perturbed =
   Ok (np_clip (Fin 1 - Spec.mean (map (Spec.drop base) perturbed))%float
         (Fin 0) (Fin 1))).
Proof.
  split.
  - intros Hb. unfold compute_resilience, eps6. rewrite Hb. reflexivity.
  - apply compute_resilience_above.
Qed.

Lemma compute_resilience_formula_witness :
  (fle (Fin 0) (Fin (1 # 1000000)) = true /\
   compute_resilience (Fin 0) [Fin (1 # 2); Fin 2] = Ok (Fin 1)) /\
  (fle (Fin 1) (Fin (1 # 1000000)) = false /\
   compute_resilience (Fin 1) [Fin (1 # 2); Fin 2] =
   Ok (np_clip
         (Fin 1 - Spec.mean (map (Spec.drop (Fin 1)) [Fin (1 # 2); Fin 2]))%float
         (Fin 0) (Fin 1))).
Proof.
  split.
  - split; [reflexivity |].
    apply (compute_resilience_formula (Fin 0) [Fin (1 # 2); Fin 2]).
    reflexivity.
  - split; [reflexivity |].
    apply (compute_resilience_formula (Fin 1) [Fin (1 # 2); Fin 2]).
    reflexivity.
Defined.

(** C10: for [base_score > 1e-6] and an empty perturbed list,
    [compute_resilience] returns exactly 1.0: the mean drop of no score is
    taken as 0.0, nothing is raised and no [nan] arises. *)
Theorem compute_resilience_empty (base : float) :
  fgt base (Fin (1 # 1000000)) = true ->
  compute_resilience base [] = Ok (Fin 1).
Proof.
  intros Hb. unfold compute_resilience, eps6.
  assert (Hle : fle base (Fin (1 # 1000000)) = false).
  { destruct base as [b | | |]; simpl in *; try discriminate; try reflexivity.
    destruct (Qle_bool b (1 # 1000000)); [discriminate | reflexivity]. }
  rewrite Hle. reflexivity.
Qed.

Lemma compute_resilience_empty_witness :
  fgt (Fin (1 # 2)) (Fin (1 # 1000000)) = true /\
  compute_resilience (Fin (1 # 2)) [] = Ok (Fin 1).
Proof.
  split; [reflexivity |].
  apply (compute_resilience_empty (Fin (1 # 2))). reflexivity.
Defined.

End ResilienceFacts.

(** ** Coherence lifetime *)

Module TauFacts.

Import Metrics.

Lemma nth_tl {A : Type} (l : list A) (i : nat) (d : A) :
  nth i (tl l) d = nth (i + 1) l d.
Proof.
  rewrite Nat.add_1_r. destruct l as [|a l]; [destruct i |]; reflexivity.
Qed.

Lemma length_removelast {A : Type} (l : list A) :
  length (removelast l) = length l - 1.
Proof.
  rewrite removelast_firstn_len, length_firstn. lia.
Qed.

Lemma nth_removelast {A : Type} (l : list A) (i : nat) (d : A) :
  i < length l - 1 -> nth i (removelast l) d = nth i l d.
Proof.
  intros Hi. rewrite removelast_firstn_len, nth_firstn.
  destruct (Nat.ltb_spec i (Nat.pred (length l))); [reflexivity | lia].
Qed.

(** On two 1-d arrays of one length nothing is broadcast. *)
Lemma elementwise1_same_length (f : float -> float -> float)
  (u v : list float) :
  length u = length v ->
  elementwise1 f u v =
  Ok (map (fun i => f (nth i u zero) (nth i v zero)) (seq 0 (length u))).
Proof.
  intros E. unfold elementwise1. rewrite <- E, broadcast_dim_same. simpl.
  f_equal. apply map_ext_in. intros i Hi. apply in_seq in Hi.
  unfold bidx. destruct (Nat.eqb_spec (length u) 1) as [E1 |]; [| reflexivity].
  replace i with 0 by lia. reflexivity.
Qed.

Lemma np_trapz_trapezoid (y x : list float) :
  length y = length x -> np_trapz y x = Ok (Spec.trapezoid y x).
Proof.
  intros E. unfold np_trapz, np_diff, Spec.trapezoid.
  rewrite (elementwise1_same_length fsub)
    by (rewrite length_tl, length_removelast; reflexivity).
  simpl.
  rewrite (elementwise1_same_length fadd)
    by (rewrite length_tl, length_removelast; reflexivity).
  simpl.
  rewrite (elementwise1_same_length fmul)
    by (rewrite !length_map, !length_seq, !length_tl; congruence).
  simpl. rewrite !length_map, !length_seq, !length_tl, map_map.
  do 2 f_equal. apply map_ext_in. intros i Hi. apply in_seq in Hi.
  set (F := fun i => (nth i (tl x) zero - nth i (removelast x) zero)%float).
  set (G := fun i => (nth i (tl y) zero + nth i (removelast y) zero)%float).
  rewrite (nth_indep (map F _) zero (F 0))
    by (rewrite length_map, length_seq; lia).
  rewrite (nth_indep (map G _) zero (G 0))
    by (rewrite length_map, length_seq; lia).
  rewrite (map_nth F), (map_nth G), !seq_nth by lia. simpl.
  unfold F, G. rewrite !nth_tl, !nth_removelast by lia. reflexivity.
Qed.

Lemma time_weighted_ok (times C : list float) :
  length C = length times ->
  elementwise1 fmul times C = Ok (Spec.time_weighted times C).
Proof.
  intros E. apply elementwise1_same_length. congruence.
Qed.

Lemma time_weighted_length (times C : list float) :
  length (Spec.time_weighted times C) = length times.
Proof. unfold Spec.time_weighted. rewrite length_map, length_seq. reflexivity. Qed.

(** What the cleaning does to one value. *)
Lemma clean_value (c : float) :
  (isfinite c = false -> np_maximum (if isfinite c then c else zero) zero = zero)
  /\ (flt c zero = true -> np_maximum (if isfinite c then c else zero) zero = zero)
  /\ (isfinite c = true -> flt c zero = false ->
      feq (np_maximum (if isfinite c then c else zero) zero) c = true).
Proof.
  destruct c as [q | | |]; simpl;
    try (repeat split; intros; try discriminate; reflexivity).
  split; [discriminate |]. split.
  - intros Hneg. destruct (Qle_bool q 0) eqn:E; [reflexivity |].
    assert (H0q : Qle_bool 0 q = true).
    { apply Qle_bool_iff. apply Qlt_le_weak. apply Qnot_le_lt.
      intros H. apply Qle_bool_iff in H. congruence. }
    rewrite H0q in Hneg. discriminate.
  - intros _ Hnonneg. destruct (Qle_bool q 0) eqn:E.
    + apply Qle_bool_iff in E.
      destruct (Qle_bool 0 q) eqn:E'; [| discriminate].
      apply Qle_bool_iff in E'. apply Qeq_bool_iff. lra.
    + apply Qeq_bool_iff. reflexivity.
Qed.

Section WithSqrt.
Variable np_sqrt : float -> float.

(** C7: in [compute_tau_c], on a trajectory and a time grid of one length,
    every non-finite and every negative coherence value is replaced by 0
    before integration and every other value is kept; the function returns
    exactly 0.0 when the trapezoidal integral of the coherence is at most
    [1e-12], and when the ratio [num / den] is not finite; otherwise it
    returns that ratio of trapezoidal integrals. *)
Theorem compute_tau_c_guards (rho_t_series : list (matrix complex))
  (times : list float) :
  length rho_t_series = length times ->
  let raw := map (coherence_measure np_sqrt) rho_t_series in
  let C := clean raw in
  let den := Spec.trapezoid C times in
  let num := Spec.trapezoid (Spec.time_weighted times C) times in
  (length C = length raw /\
   forall i, i < length raw ->
     (isfinite (nth i raw zero) = false -> nth i C zero = Fin 0) /\
     (flt (nth i raw zero) (Fin 0) = true -> nth i C zero = Fin 0) /\
     (isfinite (nth i raw zero) = true -> flt (nth i raw zero) (Fin 0) = false ->
      feq (nth i C zero) (nth i raw zero) = true)) /\
  (fle den (Fin (1 # 1000000000000)) = true ->
   compute_tau_c np_sqrt rho_t_series times = Ok (Fin 0)) /\
  (fle den (Fin (1 # 1000000000000)) = false ->
   isfinite (num / den)%float = false ->
   compute_tau_c np_sqrt rho_t_series times = Ok (Fin 0)) /\
  (fle den (Fin (1 # 1000000000000)) = false ->
   isfinite (num / den)%float = true ->
   compute_tau_c np_sqrt rho_t_series times = Ok (num / den)%float).
Proof.
  intros Hlen raw C den num.
  assert (HC : length C = length times).
  { unfold C, clean, raw. rewrite !length_map. exact Hlen. }
  assert (Hrun : compute_tau_c np_sqrt rho_t_series times =
                 if fle den (Fin (1 # 1000000000000)) then Ok zero
                 else if negb (isfinite (num / den)%float) then Ok zero
                      else Ok (num / den)%float).
  { unfold compute_tau_c. fold raw. fold C.
    rewrite (np_trapz_trapezoid C times HC). simpl. fold den.
    destruct (fle den _); [reflexivity |].
    rewrite (time_weighted_ok times C HC). simpl.
    rewrite np_trapz_trapezoid by apply time_weighted_length.
    reflexivity. }
  split; [split |].
  - unfold C, clean. rewrite !length_map. reflexivity.
  - intros i Hi. unfold C, clean. rewrite map_map.
    set (F := fun c => np_maximum (if isfinite c then c else zero) zero).
    rewrite (nth_indep (map F raw) zero (F zero))
      by (rewrite length_map; exact Hi).
    rewrite (map_nth F). apply clean_value.
  - split; [| split].
    + intros Hden. rewrite Hrun, Hden. reflexivity.
    + intros Hden Hfin. rewrite Hrun, Hden, Hfin. reflexivity.
    + intros Hden Hfin. rewrite Hrun, Hden, Hfin. reflexivity.
Qed.

End WithSqrt.

Lemma compute_tau_c_guards_witness :
  length [Mat 2 2 [czero; cone; cone; czero];
          Mat 2 2 [czero; cone; cone; czero];
          Mat 2 2 [czero; czero; czero; czero]] =
  length [Fin 0; Fin 1; Fin 2] /\
  compute_tau_c approx_sqrt
    [Mat 2 2 [czero; cone; cone; czero];
     Mat 2 2 [czero; cone; cone; czero];
     Mat 2 2 [czero; czero; czero; czero]]
    [Fin 0; Fin 1; Fin 2] =
  Ok (Spec.trapezoid
        (Spec.time_weighted [Fin 0; Fin 1; Fin 2]
           (clean (map (coherence_measure approx_sqrt)
                     [Mat 2 2 [czero; cone; cone; czero];
                      Mat 2 2 [czero; cone; cone; czero];
                      Mat 2 2 [czero; czero; czero; czero]])))
        [Fin 0; Fin 1; Fin 2]
      / Spec.trapezoid
          (clean (map (coherence_measure approx_sqrt)
                    [Mat 2 2 [czero; cone; cone; czero];
                     Mat 2 2 [czero; cone; cone; czero];
                     Mat 2 2 [czero; czero; czero; czero]]))
          [Fin 0; Fin 1; Fin 2])%float.
Proof.
  split; [reflexivity |].
  apply (@compute_tau_c_guards approx_sqrt
           [Mat 2 2 [czero; cone; cone; czero];
            Mat 2 2 [czero; cone; cone; czero];
            Mat 2 2 [czero; czero; czero; czero]]
           [Fin 0; Fin 1; Fin 2] eq_refl).
  - vm_compute. reflexivity.
  - vm_compute. reflexivity.
Defined.

End TauFacts.

(** * Properties of the rest of the code *)

(** ** [compute_ete]: exceptions and range *)

Module EteMore.

Import Metrics.

Lemma getitem_raises_index_error {A : Type} (M : matrix A) (i j : nat) (e : exn) :
  getitem M i j = Raise e -> e = IndexError.
Proof.
  unfold getitem, index.
  destruct ((i <? nrows M) && (j <? ncols M)).
  - destruct (nth_error (data M) (i * ncols M + j)); congruence.
  - congruence.
Qed.

Lemma getitem_outside {A : Type} (M : matrix A) (i j : nat) :
  nrows M <= i \/ ncols M <= j -> getitem M i j = Raise IndexError.
Proof.
  intros H. unfold getitem.
  destruct (Nat.ltb_spec i (nrows M)); destruct (Nat.ltb_spec j (ncols M));
    simpl; auto; lia.
Qed.

(** X1. [compute_ete] raises [IndexError], whatever the rates and the other
    samples are, when the sink index lies outside one sample of the
    trajectory. *)
Theorem compute_ete_index_error (trajectory : list (matrix complex))
  (sink : nat) (k_sink dt : float) :
  Exists (fun rho => nrows rho <= sink \/ ncols rho <= sink) trajectory ->
  compute_ete trajectory sink k_sink dt = Raise IndexError.
Proof.
  intros Hex. unfold compute_ete.
  assert (Hloop : forall ete,
            for_each (ete_step sink k_sink dt) trajectory ete = Raise IndexError).
  { induction Hex as [rho l Hout | rho l _ IH]; intros ete; simpl.
    - unfold ete_step at 1. rewrite getitem_outside by exact Hout. reflexivity.
    - unfold ete_step at 1.
      destruct (getitem rho sink sink) as [z | e] eqn:E; simpl.
      + apply IH.
      + rewrite (getitem_raises_index_error _ _ _ E). reflexivity. }
  rewrite Hloop. reflexivity.
Qed.

Lemma compute_ete_index_error_witness :
  Exists (fun rho : matrix complex => nrows rho <= 2 \/ ncols rho <= 2)
    [Mat 3 3 (repeat czero 9); Mat 2 2 (repeat cone 4)] /\
  compute_ete [Mat 3 3 (repeat czero 9); Mat 2 2 (repeat cone 4)]
    2 (Fin 1) (Fin (1 # 2)) = Raise IndexError.
Proof.
  assert (H : Exists (fun rho : matrix complex => nrows rho <= 2 \/ ncols rho <= 2)
                [Mat 3 3 (repeat czero 9); Mat 2 2 (repeat cone 4)]).
  { apply Exists_cons_tl. apply Exists_cons_hd. left. simpl. lia. }
  split; [exact H |].
  apply (compute_ete_index_error (Fin 1) (Fin (1 # 2)) H).
Defined.

Lemma np_clip_unit_range (x : float) :
  np_clip x zero one = NaN \/
  exists q : Q, np_clip x zero one = Fin q /\ (0 <= q <= 1)%Q.
Proof.
  destruct x as [q | | |].
  - right. exists (Exact.qclip01 q). split.
    + apply EteFacts.np_clip_exact.
    + apply EteFacts.qclip01_bounds.
  - right. exists 1%Q. split; [reflexivity | lra].
  - right. exists 0%Q. split; [reflexivity | lra].
  - left. reflexivity.
Qed.

(** X2. Whatever the trajectory and the rates, a value returned by
    [compute_ete] is [nan] or lies in [[0, 1]]: no other value, and no
    infinity, comes back. *)
Theorem compute_ete_range (trajectory : list (matrix complex))
  (sink : nat) (k_sink dt e : float) :
  compute_ete trajectory sink k_sink dt = Ok e ->
  e = NaN \/ exists q : Q, e = Fin q /\ (0 <= q <= 1)%Q.
Proof.
  unfold compute_ete.
  destruct (for_each _ trajectory zero) as [ete | err]; simpl;
    [| discriminate].
  intros E. injection E as <-. apply np_clip_unit_range.
Qed.

Lemma compute_ete_range_witness :
  compute_ete [Mat 1 1 [Cplx PInf zero]] 0 (Fin 1) (Fin (1 # 2)) = Ok (Fin 1) /\
  (Fin 1 = NaN \/ exists q : Q, Fin 1 = Fin q /\ (0 <= q <= 1)%Q).
Proof.
  assert (H : compute_ete [Mat 1 1 [Cplx PInf zero]] 0 (Fin 1) (Fin (1 # 2))
              = Ok (Fin 1)) by reflexivity.
  split; [exact H |].
  exact (compute_ete_range _ _ _ _ H).
Defined.

End EteMore.

(** ** [compute_resilience]: range and the case of no drop *)

Module ResilienceMore.

Import Metrics Pred.

Lemma pymax_zero_nonneg (d : float) : nonneg_or_inf (pymax zero d).
Proof.
  unfold pymax, fgt. destruct d as [q | | |]; simpl; try lra; auto.
  destruct (Qle_bool q 0) eqn:E; simpl; [lra |].
  apply Qlt_le_weak, Qnot_le_lt. intros H. apply Qle_bool_iff in H. congruence.
Qed.

Lemma fadd_nonneg (x y : float) :
  nonneg_or_inf x -> nonneg_or_inf y -> nonneg_or_inf (x + y)%float.
Proof.
  destruct x as [a | | |], y as [b | | |]; simpl; try tauto. lra.
Qed.

Lemma fold_fadd_nonneg (l : list float) (acc : float) :
  nonneg_or_inf acc -> Forall nonneg_or_inf l ->
  nonneg_or_inf (fold_left fadd l acc).
Proof.
  intros Hacc Hl. revert acc Hacc.
  induction Hl as [| x l Hx _ IH]; intros acc Hacc; simpl; [exact Hacc |].
  apply IH. apply fadd_nonneg; assumption.
Qed.

Lemma mean_nonneg (l : list float) :
  Forall nonneg_or_inf l -> nonneg_or_inf (Spec.mean l).
Proof.
  intros Hl. destruct l as [| x l]; [simpl; lra |].
  unfold Spec.mean, fsum.
  assert (Hsum : nonneg_or_inf (fold_left fadd (x :: l) zero)).
  { apply fold_fadd_nonneg; [simpl; lra | exact Hl]. }
  assert (Hn : (0 < inject_Z (Z.of_nat (length (x :: l))))%Q).
  { change 0%Q with (inject_Z 0). rewrite <- Zlt_Qlt. simpl. lia. }
  unfold of_nat. set (n := inject_Z _) in *.
  destruct (fold_left fadd (x :: l) zero) as [a | | |]; simpl in *;
    try tauto.
  apply Qle_shift_div_l; lra.
Qed.

Lemma clip_one_minus (m : float) :
  nonneg_or_inf m ->
  exists r : Q, np_clip (one - m)%float zero one = Fin r /\ (0 <= r <= 1)%Q.
Proof.
  destruct m as [a | | |]; simpl; try tauto; intros Ha.
  - exists (Exact.qclip01 (1 + - a)). split.
    + apply EteFacts.np_clip_exact.
    + apply EteFacts.qclip01_bounds.
  - exists 0%Q. split; [reflexivity | lra].
Qed.

(** X3. [compute_resilience] never raises and never returns [nan] or an
    infinity: for every base score and every list of perturbed scores,
    finite or not, it returns a finite value in [[0, 1]]. *)
Theorem compute_resilience_range (base : float) (perturbed : list float) :
  exists r : Q,
    compute_resilience base perturbed = Ok (Fin r) /\ (0 <= r <= 1)%Q.
Proof.
  destruct (fle base eps6) eqn:Hb.
  - exists 1%Q. unfold compute_resilience. rewrite Hb. split; [reflexivity | lra].
  - rewrite (@ResilienceFacts.compute_resilience_above base perturbed Hb).
    destruct (@clip_one_minus (Spec.mean (map (Spec.drop base) perturbed)))
      as [r [Hr Hrange]].
    + apply mean_nonneg. apply Forall_forall. intros d Hd.
      apply in_map_iff in Hd. destruct Hd as [q [<- _]].
      apply pymax_zero_nonneg.
    + exists r. split; [| exact Hrange].
      unfold Spec.resilience. rewrite Hr. reflexivity.
Qed.

(** *** No drop *)

Lemma pymax_base (base : float) :
  fle base eps6 = false -> pymax base eps6 = base.
Proof.
  destruct base as [b | | |]; unfold pymax, fgt, eps6; simpl;
    try discriminate; try reflexivity.
  intros Hb.
  assert (Hle : Qle_bool (1 # 1000000) b = true).
  { apply Qle_bool_iff. apply Qlt_le_weak. apply Qnot_le_lt.
    intros H. apply Qle_bool_iff in H. congruence. }
  rewrite Hle. reflexivity.
Qed.

Lemma drop_zero (base q : float) :
  fle base eps6 = false -> fgt base q = false -> Spec.drop base q = zero.
Proof.
  intros Hb Hq. unfold Spec.drop. fold eps6. rewrite (@pymax_base base Hb).
  unfold pymax. 
  assert (Hd : fgt ((base - q) / base)%float zero = false);
    [| rewrite Hd; reflexivity].
  destruct base as [b | | |]; try discriminate Hb;
    destruct q as [x | | |]; try discriminate Hq; try reflexivity.
  - unfold fgt, fle, flt, eps6 in *. simpl in *.
    assert (Hb' : (1 # 1000000 < b)%Q).
    { apply Qnot_le_lt. intros H. apply Qle_bool_iff in H. congruence. }
    assert (Hq' : (b <= x)%Q).
    { destruct (Qle_bool b x) eqn:E; [| discriminate Hq].
      apply Qle_bool_iff. exact E. }
    unfold Qsign. destruct (Qcompare_spec b 0) as [E | E | E]; try lra.
    simpl. 
    assert (Hle : Qle_bool ((b + - x) / b) 0 = true).
    { apply Qle_bool_iff. apply Qle_shift_div_r; lra. }
    rewrite Hle. reflexivity.
  - unfold fle, eps6 in Hb. simpl in *. unfold Qsign.
    assert (Hb' : (1 # 1000000 < b)%Q).
    { apply Qnot_le_lt. intros H. apply Qle_bool_iff in H. congruence. }
    destruct (Qcompare_spec b 0) as [E | E | E]; try lra; reflexivity.
Qed.

Lemma fsum_zeros (n : nat) (acc : Q) :
  exists s : Q, fold_left fadd (repeat zero n) (Fin acc) = Fin s /\ (s == acc)%Q.
Proof.
  revert acc; induction n as [|n IH]; intros acc; simpl.
  - exists acc. split; reflexivity.
  - destruct (IH (acc + 0)%Q) as [s [Hs Es]].
    exists s. split; [exact Hs | rewrite Es; ring].
Qed.

(** X4. When no perturbed score is below the base score ([nan] scores
    included), [compute_resilience] returns exactly 1.0. *)
Theorem compute_resilience_no_drop (base : float) (perturbed : list float) :
  Forall (fun q => fgt base q = false) perturbed ->
  exists r : Q,
    compute_resilience base perturbed = Ok (Fin r) /\ (r == 1)%Q.
Proof.
  intros Hq. destruct (fle base eps6) eqn:Hb.
  - exists 1%Q. unfold compute_resilience. rewrite Hb.
    split; reflexivity.
  - rewrite (@ResilienceFacts.compute_resilience_above base perturbed Hb).
    unfold Spec.resilience.
    assert (Hdrops : map (Spec.drop base) perturbed =
                     repeat zero (length perturbed)).
    { induction Hq as [| q l Hq1 _ IH]; simpl; [reflexivity |].
      rewrite (@drop_zero base q Hb Hq1), IH. reflexivity. }
    rewrite Hdrops.
    destruct (length perturbed) as [|n] eqn:En.
    + exists 1%Q. split; reflexivity.
    + destruct (fsum_zeros (S n) 0) as [s [Hs Es]].
      unfold Spec.mean. rewrite repeat_length.
      change (repeat zero (S n)) with (zero :: repeat zero n) at 1.
      cbv iota. unfold fsum. fold (repeat zero (S n)) in Hs |- *.
      change (Fin 0) with zero in Hs. rewrite Hs.
      assert (Hn : (0 < inject_Z (Z.of_nat (S n)))%Q).
      { change 0%Q with (inject_Z 0). rewrite <- Zlt_Qlt. lia. }
      unfold of_nat. set (m := inject_Z (Z.of_nat (S n))) in *.
      simpl. unfold Qsign.
      destruct (Qcompare_spec m 0) as [E | E | E]; try lra.
      exists (Exact.qclip01 (1 + - (s / m))). split.
      * apply f_equal. apply EteFacts.np_clip_exact.
      * assert (Hz : (s / m == 0)%Q).
        { rewrite Es. unfold Qdiv. ring. }
        destruct (EteFacts.qclip01_cases (1 + - (s / m)))
          as [[Hx Ex] | [[Hx Ex] | [Hx Ex]]]; rewrite Ex; lra.
Qed.

Lemma compute_resilience_no_drop_witness :
  Forall (fun q => fgt (Fin (1 # 2)) q = false) [Fin (1 # 2); Fin 1; NaN] /\
  exists r : Q,
    compute_resilience (Fin (1 # 2)) [Fin (1 # 2); Fin 1; NaN] = Ok (Fin r) /\
    (r == 1)%Q.
Proof.
  assert (H : Forall (fun q => fgt (Fin (1 # 2)) q = false)
                [Fin (1 # 2); Fin 1; NaN]).
  { repeat constructor. }
  split; [exact H |].
  exact (@compute_resilience_no_drop _ _ H).
Defined.

End ResilienceMore.

(** ** [coherence_measure]: the diagonal does not count *)

Module CoherenceMore.

Import Metrics.

Lemma diagonal_position (i j c : nat) :
  j < c ->
  ((i * c + j) mod (c + 1) =? 0) && (i * c + j <? c * c) = (i =? j).
Proof.
  intros Hj. destruct (Nat.eqb_spec i j) as [-> | Hne].
  - replace (j * c + j) with (j * (c + 1)) by lia.
    rewrite Nat.Div0.mod_mul. simpl.
    apply Nat.ltb_lt. nia.
  - destruct (Nat.ltb_spec (i * c + j) (c * c)) as [Hlt | Hge];
      [| apply andb_false_r].
    rewrite andb_true_r. apply Nat.eqb_neq. intros Hmod.
    apply Nat.Div0.div_exact in Hmod.
    set (k := (i * c + j) / (c + 1)) in *.
    assert (Hi : i < c) by nia.
    assert (Hk : k = i) by nia.
    nia.
Qed.

Lemma fill_diagonal0_wf (a : matrix complex) : wf a -> wf (fill_diagonal0 a).
Proof.
  unfold wf, fill_diagonal0; simpl. intros H.
  rewrite length_map, length_combine, length_seq, Nat.min_id. exact H.
Qed.

(** [np.fill_diagonal(a, 0.0)] zeroes the entries [(i, i)] and no other,
    whatever the shape of [a]. *)
Lemma fill_diagonal0_entry (a : matrix complex) (i j : nat) :
  wf a -> i < nrows a -> j < ncols a ->
  mget czero (fill_diagonal0 a) i j =
  if i =? j then czero else mget czero a i j.
Proof.
  intros Hwf Hi Hj. unfold mget, fill_diagonal0; simpl.
  set (c := ncols a) in *. set (p := i * c + j).
  assert (Hp : p < length (data a)).
  { rewrite Hwf. apply flat_index_lt; assumption. }
  set (F := fun q : nat * complex =>
              if (fst q mod (c + 1) =? 0) && (fst q <? c * c)
              then czero else snd q).
  rewrite (nth_indep (map F _) czero (F (0, czero)))
    by (rewrite length_map, length_combine, length_seq, Nat.min_id; exact Hp).
  rewrite (map_nth F), combine_nth by apply length_seq.
  rewrite seq_nth by exact Hp. unfold F; simpl.
  unfold p. rewrite diagonal_position by exact Hj. reflexivity.
Qed.

Section WithSqrt.
Variable np_sqrt : float -> float.

(** X5. [coherence_measure] reads the off-diagonal entries only: two arrays of
    one shape that agree off the diagonal have the same coherence, whatever
    their diagonals (the populations) are. *)
Theorem coherence_measure_ignores_diagonal (a b : matrix complex) :
  wf a -> wf b -> shape a = shape b ->
  (forall i j, i < nrows a -> j < ncols a -> i <> j ->
     mget czero a i j = mget czero b i j) ->
  coherence_measure np_sqrt a = coherence_measure np_sqrt b.
Proof.
  intros Ha Hb Hs Hoff. unfold coherence_measure. f_equal.
  unfold shape in Hs. injection Hs as Hr Hc.
  rewrite (mbuild_mget czero (fill_diagonal0_wf Ha)).
  rewrite (mbuild_mget czero (fill_diagonal0_wf Hb)).
  change (nrows (fill_diagonal0 a)) with (nrows a).
  change (ncols (fill_diagonal0 a)) with (ncols a).
  change (nrows (fill_diagonal0 b)) with (nrows b).
  change (ncols (fill_diagonal0 b)) with (ncols b).
  rewrite <- Hr, <- Hc. apply mbuild_ext. intros i j Hi Hj.
  rewrite !fill_diagonal0_entry by (try assumption; congruence).
  destruct (Nat.eqb_spec i j); [reflexivity | apply Hoff; assumption].
Qed.

End WithSqrt.

Lemma coherence_measure_ignores_diagonal_witness :
  wf (Mat 2 2 [cone; cone; cone; czero]) /\
  coherence_measure approx_sqrt (Mat 2 2 [cone; cone; cone; czero]) =
  coherence_measure approx_sqrt (Mat 2 2 [czero; cone; cone; cone]).
Proof.
  split; [reflexivity |].
  apply (@coherence_measure_ignores_diagonal approx_sqrt
           (Mat 2 2 [cone; cone; cone; czero])
           (Mat 2 2 [czero; cone; cone; cone])); try reflexivity.
  intros [| [| i]] [| [| j]] Hi Hj Hne; simpl in *; try lia; reflexivity.
Defined.

End CoherenceMore.

(** ** [compute_tau_c]: the lifetime is finite and not negative *)

Module TauMore.

Import Metrics.

Local Open Scope Q_scope.

(** *** Sums of finite values *)

Lemma fold_fadd_exact (l : list Q) (a : Q) :
  fold_left fadd (map Fin l) (Fin a) = Fin (fold_left Qplus l a).
Proof.
  revert a; induction l as [|x l IH]; intros a; simpl; [reflexivity |].
  apply IH.
Qed.

Lemma fold_qplus_le {X : Type} (g h : X -> Q) (l : list X) (a b : Q) :
  a <= b -> (forall x, In x l -> g x <= h x) ->
  fold_left Qplus (map g l) a <= fold_left Qplus (map h l) b.
Proof.
  revert a b; induction l as [|x l IH]; intros a b Hab H; simpl;
    [exact Hab |].
  apply IH.
  - pose proof (H x (or_introl eq_refl)). lra.
  - intros y Hy. apply H. right. exact Hy.
Qed.

Lemma fold_qplus_scale {X : Type} (k : Q) (g : X -> Q) (l : list X) (a : Q) :
  fold_left Qplus (map (fun x => k * g x) l) (k * a) ==
  k * fold_left Qplus (map g l) a.
Proof.
  revert a; induction l as [|x l IH]; intros a; simpl; [reflexivity |].
  rewrite <- IH.
  assert (E : k * a + k * g x == k * (a + g x)) by ring.
  clear IH. revert E. generalize (k * a + k * g x) (k * (a + g x)).
  induction (map (fun x0 => k * g x0) l) as [|y m IHm]; intros u v E; simpl;
    [exact E |].
  apply IHm. rewrite E. reflexivity.
Qed.

(** *** The cleaned coherence values are finite and non-negative *)

Lemma clean_exact (raw : list float) :
  exists cs : list Q,
    clean raw = map Fin cs /\ length cs = length raw /\
    forall i, 0 <= nth i cs 0.
Proof.
  induction raw as [|c raw [cs [Hcs [Hlen Hpos]]]].
  - exists []. repeat split. intros [|i]; simpl; lra.
  - unfold clean in *. simpl. rewrite Hcs.
    assert (Hc : exists q, np_maximum (if isfinite c then c else zero) zero
                           = Fin q /\ 0 <= q).
    { destruct c as [q | | |]; simpl; try (exists 0; split; [reflexivity | lra]).
      destruct (Qle_bool q 0) eqn:E.
      - exists 0. split; [reflexivity | lra].
      - exists q. split; [reflexivity |].
        apply Qlt_le_weak, Qnot_le_lt. intros H.
        apply Qle_bool_iff in H. congruence. }
    destruct Hc as [q [Hq Hq0]]. rewrite Hq.
    exists (q :: cs). split; [reflexivity |]. split; [simpl; lia |].
    intros [|i]; simpl; [exact Hq0 | apply Hpos].
Qed.

(** *** The trapezoid sums on finite values *)

(** One term of the trapezoid sum of the samples [y] over the grid [x]. *)
Lemma trapezoid_exact (y x : list Q) :
  Spec.trapezoid (map Fin y) (map Fin x) =
  Fin (fold_left Qplus
         (map (fun i => (nth (i + 1) x 0 + - nth i x 0)
                        * (nth (i + 1) y 0 + nth i y 0) / 2)
              (seq 0 (length x - 1))) 0).
Proof.
  unfold Spec.trapezoid, fsum. rewrite length_map.
  rewrite <- fold_fadd_exact, map_map. f_equal.
  apply map_ext. intros i. change zero with (Fin 0).
  rewrite !(map_nth Fin). reflexivity.
Qed.

Lemma time_weighted_exact (ts cs : list Q) :
  Spec.time_weighted (map Fin ts) (map Fin cs) =
  map Fin (map (fun i => nth i ts 0 * nth i cs 0) (seq 0 (length ts))).
Proof.
  unfold Spec.time_weighted. rewrite length_map, map_map.
  apply map_ext. intros i. change zero with (Fin 0).
  rewrite !(map_nth Fin). reflexivity.
Qed.

Lemma sorted_adjacent (ts : list Q) :
  (forall i : nat, (i + 1 < length ts)%nat -> nth i ts 0 <= nth (i + 1) ts 0) ->
  forall i j : nat, (i <= j)%nat -> (j < length ts)%nat ->
                    nth i ts 0 <= nth j ts 0.
Proof.
  intros Hadj i j Hij Hj. induction Hij as [| j Hij IH].
  - lra.
  - specialize (IH ltac:(lia)).
    pose proof (Hadj j ltac:(lia)) as H. rewrite Nat.add_1_r in H. lra.
Qed.

Section WithSqrt.
Variable np_sqrt : float -> float.

Lemma compute_tau_c_window (rho_t_series : list (matrix complex))
  (ts : list Q) :
  length rho_t_series = length ts ->
  (forall i : nat, (i + 1 < length ts)%nat -> nth i ts 0 <= nth (i + 1) ts 0) ->
  exists tau : Q,
    compute_tau_c np_sqrt rho_t_series (map Fin ts) = Ok (Fin tau) /\
    (tau = 0 \/ nth 0 ts 0 <= tau <= nth (length ts - 1) ts 0).
Proof.
  intros Hlen Hadj.
  destruct (clean_exact (map (coherence_measure np_sqrt) rho_t_series))
    as [cs [Hcs [Hlcs Hpos]]].
  rewrite length_map in Hlcs.
  unfold compute_tau_c. rewrite Hcs.
  assert (Hlcs' : length (map Fin cs) = length (map Fin ts)).
  { rewrite !length_map. congruence. }
  rewrite (@TauFacts.np_trapz_trapezoid _ _ Hlcs').
  simpl. rewrite trapezoid_exact.
  set (n := length ts) in *.
  set (dterm := fun i : nat => (nth (i + 1) ts 0 + - nth i ts 0)
                        * (nth (i + 1) cs 0 + nth i cs 0) / 2).
  set (den := fold_left Qplus (map dterm (seq 0 (n - 1))) 0).
  unfold fle.
  destruct (Qle_bool den (1 # 1000000000000)) eqn:Eden.
  { exists 0. split; [reflexivity | left; reflexivity]. }
  assert (Hden : 1 # 1000000000000 < den).
  { apply Qnot_le_lt. intros H. apply Qle_bool_iff in H. congruence. }
  rewrite (@TauFacts.time_weighted_ok _ _ Hlcs').
  simpl. rewrite time_weighted_exact.
  rewrite TauFacts.np_trapz_trapezoid
    by (rewrite !length_map, length_seq; reflexivity).
  simpl. rewrite trapezoid_exact. fold n.
  set (ws := map (fun i => nth i ts 0 * nth i cs 0) (seq 0 n)).
  set (nterm := fun i : nat => (nth (i + 1) ts 0 + - nth i ts 0)
                        * (nth (i + 1) ws 0 + nth i ws 0) / 2).
  set (num := fold_left Qplus (map nterm (seq 0 (n - 1))) 0).
  assert (Hsign : Qsign den = Gt).
  { unfold Qsign. destruct (Qcompare_spec den 0); try lra. reflexivity. }
  simpl. rewrite Hsign. simpl.
  exists (num / den). split; [reflexivity | right].
  assert (Hws : forall i, (i < n)%nat -> nth i ws 0 = nth i ts 0 * nth i cs 0).
  { intros i Hi. unfold ws.
    set (F := fun i => nth i ts 0 * nth i cs 0).
    rewrite (nth_indep (map F (seq 0 n)) 0 (F 0%nat))
      by (rewrite length_map, length_seq; exact Hi).
    rewrite (map_nth F), seq_nth by exact Hi. reflexivity. }
  assert (Hterm : forall i, In i (seq 0 (n - 1)) ->
            nth 0 ts 0 * dterm i <= nterm i /\
            nterm i <= nth (n - 1) ts 0 * dterm i).
  { intros i Hi. apply in_seq in Hi. unfold dterm, nterm.
    rewrite !Hws by lia.
    pose proof (Hadj i ltac:(lia)) as Hstep.
    pose proof (@sorted_adjacent ts Hadj 0%nat i ltac:(lia) ltac:(lia)) as Hlo.
    pose proof (@sorted_adjacent ts Hadj (i + 1)%nat (n - 1)%nat
                  ltac:(lia) ltac:(lia)) as Hhi.
    pose proof (Hpos i) as Hc0. pose proof (Hpos (i + 1)%nat) as Hc1.
    set (t0 := nth 0 ts 0) in *. set (tl := nth (n - 1) ts 0) in *.
    set (a := nth i ts 0) in *. set (b := nth (i + 1) ts 0) in *.
    set (c := nth i cs 0) in *. set (d := nth (i + 1) cs 0) in *.
    assert (E1 : (b + - a) * (b * d + a * c) / 2 - t0 * ((b + - a) * (d + c) / 2)
                 == (b - a) * ((b - t0) * d + (a - t0) * c) / 2) by field.
    assert (E2 : tl * ((b + - a) * (d + c) / 2) - (b + - a) * (b * d + a * c) / 2
                 == (b - a) * ((tl - b) * d + (tl - a) * c) / 2) by field.
    assert (P1 : 0 <= (b - a) * ((b - t0) * d + (a - t0) * c) / 2).
    { apply Qle_shift_div_l; [lra |]. rewrite Qmult_0_l.
      apply Qmult_le_0_compat; [lra |].
      assert (0 <= (b - t0) * d) by (apply Qmult_le_0_compat; lra).
      assert (0 <= (a - t0) * c) by (apply Qmult_le_0_compat; lra).
      lra. }
    assert (P2 : 0 <= (b - a) * ((tl - b) * d + (tl - a) * c) / 2).
    { apply Qle_shift_div_l; [lra |]. rewrite Qmult_0_l.
      apply Qmult_le_0_compat; [lra |].
      assert (0 <= (tl - b) * d) by (apply Qmult_le_0_compat; lra).
      assert (0 <= (tl - a) * c) by (apply Qmult_le_0_compat; lra).
      lra. }
    split; lra. }
  assert (Hlo : nth 0 ts 0 * den <= num).
  { unfold den, num. rewrite <- fold_qplus_scale.
    apply fold_qplus_le; [lra |]. intros i Hi. apply Hterm. exact Hi. }
  assert (Hhi : num <= nth (n - 1) ts 0 * den).
  { unfold den, num. rewrite <- fold_qplus_scale.
    apply fold_qplus_le; [lra |]. intros i Hi. apply Hterm. exact Hi. }
  split.
  - apply Qle_shift_div_l; lra.
  - apply Qle_shift_div_r; lra.
Qed.

Lemma compute_tau_c_finite_nonneg (rho_t_series : list (matrix complex))
  (ts : list Q) :
  length rho_t_series = length ts ->
  (forall i : nat, (i + 1 < length ts)%nat -> nth i ts 0 <= nth (i + 1) ts 0) ->
  0 <= nth 0 ts 0 ->
  exists tau : Q,
    compute_tau_c np_sqrt rho_t_series (map Fin ts) = Ok (Fin tau) /\
    0 <= tau.
Proof.
  intros Hlen Hadj H0.
  destruct (@compute_tau_c_window rho_t_series ts Hlen Hadj)
    as [tau [Hrun Hwin]].
  exists tau. split; [exact Hrun |].
  destruct Hwin as [-> | Hwin]; lra.
Qed.

(** X6. On a finite, non-decreasing time grid that does not start before 0,
    with one sample of the trajectory per grid point, [compute_tau_c]
    returns a finite value that is not negative. *)
Theorem compute_tau_c_nonneg (rho_t_series : list (matrix complex))
  (ts : list Q) :
  length rho_t_series = length ts ->
  (forall i : nat, (i + 1 < length ts)%nat -> nth i ts 0 <= nth (i + 1) ts 0) ->
  0 <= nth 0 ts 0 ->
  exists tau : Q,
    compute_tau_c np_sqrt rho_t_series (map Fin ts) = Ok (Fin tau) /\
    0 <= tau.
Proof. exact (@compute_tau_c_finite_nonneg rho_t_series ts). Qed.

End WithSqrt.

Lemma compute_tau_c_nonneg_witness :
  exists tau : Q,
    compute_tau_c approx_sqrt
      [Mat 2 2 [czero; cone; cone; czero];
       Mat 2 2 [czero; cone; cone; czero];
       Mat 2 2 [czero; czero; czero; czero]]
      (map Fin [0; 1; 2]) = Ok (Fin tau) /\
    0 <= tau.
Proof.
  apply (@compute_tau_c_nonneg approx_sqrt
           [Mat 2 2 [czero; cone; cone; czero];
            Mat 2 2 [czero; cone; cone; czero];
            Mat 2 2 [czero; czero; czero; czero]] [0; 1; 2] eq_refl).
  - intros [| [| i]] Hi; simpl in *; try lia; discriminate.
  - simpl. lra.
Defined.

End TauMore.

(** ** [find_gamma_star]: the optimum of a sweep *)

Module GammaStarMore.

Import Sweep MetricsMore SweepSpec.

Local Open Scope Q_scope.

Lemma max_by_ETE_spec (rest : list (float * Q)) (gb : float) (kb : Q) :
  exists (g : float) (e : Q),
    max_by_ETE (point (gb, kb)) (Fin kb) (map point rest) =
      Return (point (g, e)) /\
    kb <= e /\
    (forall p, In p rest -> snd p <= e) /\
    ((g, e) = (gb, kb) \/
     exists r1 r2, rest = r1 ++ (g, e) :: r2 /\ kb < e /\
                   forall p, In p r1 -> snd p < e).
Proof.
  revert gb kb; induction rest as [| [gp sp] rest IH]; intros gb kb.
  - exists gb, kb. simpl. split; [reflexivity |]. split; [lra |].
    split; [intros p [] | left; reflexivity].
  - simpl. unfold fgt, flt.
    destruct (Qle_bool sp kb) eqn:E; simpl.
    + apply Qle_bool_iff in E.
      destruct (IH gb kb) as [g [e [Hrun [Hge [Hall Hfirst]]]]].
      exists g, e. split; [exact Hrun |]. split; [exact Hge |].
      split.
      * intros p [<- | Hp]; [simpl; lra | apply Hall; exact Hp].
      * destruct Hfirst as [Heq | [r1 [r2 [Hsplit [Hlt Hr1]]]]];
          [left; exact Heq | right].
        exists ((gp, sp) :: r1), r2. rewrite Hsplit. split; [reflexivity |].
        split; [exact Hlt |].
        intros p [<- | Hp]; [simpl; lra | apply Hr1; exact Hp].
    + assert (Hlt : kb < sp).
      { apply Qnot_le_lt. intros H. apply Qle_bool_iff in H. congruence. }
      destruct (IH gp sp) as [g [e [Hrun [Hge [Hall Hfirst]]]]].
      exists g, e. split; [exact Hrun |]. split; [lra |].
      split.
      * intros p [<- | Hp]; [simpl; lra | apply Hall; exact Hp].
      * right.
        destruct Hfirst as [Heq | [r1 [r2 [Hsplit [Hlt' Hr1]]]]].
        -- injection Heq as -> ->. exists [], rest.
           split; [reflexivity |]. split; [exact Hlt |]. intros p [].
        -- exists ((gp, sp) :: r1), r2. rewrite Hsplit.
           split; [reflexivity |]. split; [lra |].
           intros p [<- | Hp]; [simpl; lra | apply Hr1; exact Hp].
Qed.

Lemma find_gamma_star_earliest (sweep : list (float * Q)) :
  sweep <> [] ->
  exists (g : float) (e : Q) (before after : list (float * Q)),
    find_gamma_star (map point sweep) = Return (g, Fin e) /\
    sweep = before ++ (g, e) :: after /\
    (forall p, In p before -> snd p < e) /\
    (forall p, In p sweep -> snd p <= e).
Proof.
  destruct sweep as [| [g0 e0] rest]; [congruence | intros _].
  destruct (max_by_ETE_spec rest g0 e0)
    as [g [e [Hrun [Hge [Hall Hfirst]]]]].
  simpl. simpl in Hrun. rewrite Hrun. simpl.
  destruct Hfirst as [Heq | [r1 [r2 [Hsplit [Hlt Hr1]]]]].
  - injection Heq as -> ->. exists g0, e0, [], rest.
    split; [reflexivity |]. split; [reflexivity |].
    split; [intros p [] |].
    intros p [<- | Hp]; [simpl; lra | apply Hall; exact Hp].
  - exists g, e, ((g0, e0) :: r1), r2. rewrite Hsplit.
    split; [reflexivity |]. split; [reflexivity |]. split.
    + intros p [<- | Hp]; [simpl; lra | apply Hr1; exact Hp].
    + rewrite <- Hsplit.
      intros p [<- | Hp]; [simpl; lra | apply Hall; exact Hp].
Qed.

(** X7. On a non-empty sweep whose entries hold a ["gamma"] and a finite
    ["ETE"], [find_gamma_star] returns the ["gamma"] and the ["ETE"] of an
    entry of the sweep whose ["ETE"] is the largest, and of the earliest
    such entry when several share it. *)
Theorem find_gamma_star_first_maximum (sweep : list (float * Q)) :
  sweep <> [] ->
  exists (g : float) (e : Q) (before after : list (float * Q)),
    find_gamma_star (map point sweep) = Return (g, Fin e) /\
    sweep = before ++ (g, e) :: after /\
    (forall p, In p before -> snd p < e) /\
    (forall p, In p sweep -> snd p <= e).
Proof. exact (@find_gamma_star_earliest sweep). Qed.

Lemma find_gamma_star_first_maximum_witness :
  [(Fin (1 # 100), 1 # 2); (Fin (2 # 100), 3 # 4); (Fin (3 # 100), 3 # 4)]
    <> [] /\
  exists (g : float) (e : Q) (before after : list (float * Q)),
    find_gamma_star
      (map point [(Fin (1 # 100), 1 # 2); (Fin (2 # 100), 3 # 4);
                  (Fin (3 # 100), 3 # 4)]) = Return (g, Fin e) /\
    [(Fin (1 # 100), 1 # 2); (Fin (2 # 100), 3 # 4); (Fin (3 # 100), 3 # 4)]
      = before ++ (g, e) :: after /\
    (forall p, In p before -> snd p < e) /\
    (forall p,
       In p [(Fin (1 # 100), 1 # 2); (Fin (2 # 100), 3 # 4);
             (Fin (3 # 100), 3 # 4)] -> snd p <= e).
Proof.
  assert (H : [(Fin (1 # 100), 1 # 2); (Fin (2 # 100), 3 # 4);
               (Fin (3 # 100), 3 # 4)] <> []) by discriminate.
  split; [exact H |].
  exact (@find_gamma_star_first_maximum _ H).
Defined.

(** The earliest of two entries with the largest efficiency wins. *)
Example find_gamma_star_tie :
  find_gamma_star
    (map point [(Fin (1 # 100), 1 # 2); (Fin (2 # 100), 3 # 4);
                (Fin (3 # 100), 3 # 4)]) =
  Return (Fin (2 # 100), Fin (3 # 4)).
Proof. reflexivity. Qed.



(** X8. An entry without an ["ETE"] makes [find_gamma_star] raise
    [KeyError("ETE")], wherever the entry stands and whatever the other
    entries hold. *)
Theorem find_gamma_star_missing_ETE (sweep : list entry) :
  Exists (fun d => ETE d = None) sweep ->
  find_gamma_star sweep = Throw (KeyError Keys.ETE).
Proof.
  intros Hex.
  assert (Hloop : forall rest best k,
            Exists (fun d => ETE d = None) rest ->
            max_by_ETE best k rest = Throw (KeyError Keys.ETE)).
  { intros rest. induction rest as [| d rest IH]; intros best k Hrest.
    - inversion Hrest.
    - simpl. destruct (ETE d) as [kd |] eqn:Ed; simpl; [| reflexivity].
      inversion Hrest as [? ? Hd | ? ? Hd]; subst; [congruence |].
      destruct (fgt kd k); apply IH; exact Hd. }
  destruct sweep as [| d rest]; [inversion Hex |].
  simpl. destruct (ETE d) as [kd |] eqn:Ed; simpl; [| reflexivity].
  inversion Hex as [? ? Hd | ? ? Hd]; subst; [congruence |].
  rewrite (Hloop rest d kd Hd). reflexivity.
Qed.

Lemma find_gamma_star_missing_ETE_witness :
  Exists (fun d => ETE d = None)
    [Entry (Some (Fin (1 # 100))) (Some (Fin (1 # 2)));
     Entry (Some (Fin (2 # 100))) None] /\
  find_gamma_star
    [Entry (Some (Fin (1 # 100))) (Some (Fin (1 # 2)));
     Entry (Some (Fin (2 # 100))) None] = Throw (KeyError Keys.ETE).
Proof.
  assert (H : Exists (fun d => ETE d = None)
                [Entry (Some (Fin (1 # 100))) (Some (Fin (1 # 2)));
                 Entry (Some (Fin (2 # 100))) None]).
  { apply Exists_cons_tl. apply Exists_cons_hd. reflexivity. }
  split; [exact H |].
  exact (@find_gamma_star_missing_ETE _ H).
Defined.

End GammaStarMore.

(** ** [normalize_tau_c]: the cohort normalization *)

Module NormalizeMore.

Import MetricsMore.

Local Open Scope Q_scope.

(** *** Sorting keeps the values *)

Lemma insert_sorted_In (x y : float) (l : list float) :
  In y (insert_sorted x l) -> y = x \/ In y l.
Proof.
  induction l as [| z l IH]; simpl.
  - intros [<- | []]. left; reflexivity.
  - destruct (sorts_before x z); simpl.
    + intros [<- | H]; [left; reflexivity | right; exact H].
    + intros [<- | H]; [right; left; reflexivity |].
      destruct (IH H) as [-> | H']; [left; reflexivity | right; right; exact H'].
Qed.

Lemma np_sort_In (y : float) (l : list float) : In y (np_sort l) -> In y l.
Proof.
  induction l as [| x l IH]; simpl; [tauto |].
  intros H. destruct (insert_sorted_In _ _ _ H) as [-> | H'];
    [left; reflexivity | right; apply IH; exact H'].
Qed.

Lemma insert_sorted_length (x : float) (l : list float) :
  length (insert_sorted x l) = S (length l).
Proof.
  induction l as [| z l IH]; simpl; [reflexivity |].
  destruct (sorts_before x z); simpl; [reflexivity | rewrite IH; reflexivity].
Qed.

Lemma np_sort_length (l : list float) : length (np_sort l) = length l.
Proof.
  induction l as [| x l IH]; simpl; [reflexivity |].
  rewrite insert_sorted_length, IH. reflexivity.
Qed.

(** The percentiles of the values 4, 1, 3, 2: the 5th is 1.15 and the
    95th is 3.85. *)
Example np_percentile_example :
  np_sort [Fin 4; Fin 1; Fin 3; Fin 2] = [Fin 1; Fin 2; Fin 3; Fin 4] /\
  (exists p5 p95,
     np_percentile [Fin 4; Fin 1; Fin 3; Fin 2] 5 = Ok (Fin p5) /\
     np_percentile [Fin 4; Fin 1; Fin 3; Fin 2] 95 = Ok (Fin p95) /\
     p5 == 115 # 100 /\ p95 == 385 # 100).
Proof.
  split; [reflexivity |].
  do 2 eexists. split; [vm_compute; reflexivity |].
  split; [vm_compute; reflexivity |]. split; reflexivity.
Qed.

(** *** Percentiles of finite data *)

Lemma existsb_isnan_finite (qs : list Q) : existsb isnan (map Fin qs) = false.
Proof. induction qs as [| q qs IH]; simpl; auto. Qed.

(** The interpolation of two finite values lies in their convex hull. *)
Lemma lerp_exact (a b t : Q) :
  exists v : Q, lerp (Fin a) (Fin b) (Fin t) = Fin v /\
                v == a + (b - a) * t.
Proof.
  unfold lerp, fle.
  destruct (Qle_bool (1 # 2) t); simpl; eexists; split;
    try reflexivity; ring.
Qed.

Lemma np_percentile_finite (qs : list Q) (q : Q) :
  qs <> [] -> 0 <= q <= 100 ->
  exists a b t v : Q,
    np_percentile (map Fin qs) q = Ok (Fin v) /\
    In a qs /\ In b qs /\ 0 <= t < 1 /\ v == a + (b - a) * t.
Proof.
  intros Hne Hq. unfold np_percentile.
  destruct (map Fin qs) as [| x0 rest] eqn:Emap.
  { destruct qs; [congruence | discriminate]. }
  rewrite <- Emap. clear x0 rest Emap.
  rewrite existsb_isnan_finite, length_map.
  set (n := length qs).
  assert (Hn : (0 < n)%nat).
  { unfold n. destruct qs; [congruence | simpl; lia]. }
  set (v := inject_Z (Z.of_nat (n - 1)) * (q / 100)).
  assert (Hv0 : 0 <= v).
  { unfold v. apply Qmult_le_0_compat.
    - change 0 with (inject_Z 0). rewrite <- Zle_Qle. lia.
    - apply Qle_shift_div_l; lra. }
  assert (Hv1 : v <= inject_Z (Z.of_nat (n - 1))).
  { unfold v.
    assert (H1 : q / 100 <= 1) by (apply Qle_shift_div_r; lra).
    assert (H0 : 0 <= inject_Z (Z.of_nat (n - 1))).
    { change 0 with (inject_Z 0). rewrite <- Zle_Qle. lia. }
    nra. }
  pose proof (Qfloor_le v) as Hf1. pose proof (Qlt_floor v) as Hf2.
  assert (Hfl0 : (0 <= Qfloor v)%Z).
  { assert (H : inject_Z (-1) < inject_Z (Qfloor v)).
    { rewrite inject_Z_plus in Hf2. change (inject_Z (-1)) with (-1).
      change (inject_Z 1) with 1 in Hf2. lra. }
    rewrite <- Zlt_Qlt in H. lia. }
  assert (Hfl1 : (Qfloor v <= Z.of_nat (n - 1))%Z).
  { rewrite Zle_Qle. lra. }
  set (i := Z.to_nat (Qfloor v)).
  assert (Hi : (i < n)%nat) by (unfold i; lia).
  set (j := Nat.min (i + 1) (n - 1)).
  assert (Hj : (j < n)%nat) by (unfold j; lia).
  assert (Hnth : forall k, (k < n)%nat ->
            exists x, nth k (np_sort (map Fin qs)) NaN = Fin x /\ In x qs).
  { intros k Hk.
    assert (Hin : In (nth k (np_sort (map Fin qs)) NaN) (map Fin qs)).
    { apply np_sort_In. apply nth_In.
      rewrite np_sort_length, length_map. exact Hk. }
    apply in_map_iff in Hin. destruct Hin as [x [Hx Hin]].
    exists x. split; [symmetry; exact Hx | exact Hin]. }
  destruct (Hnth i Hi) as [a [Ha Hina]].
  destruct (Hnth j Hj) as [b [Hb Hinb]].
  rewrite Ha, Hb.
  destruct (lerp_exact a b (v - inject_Z (Qfloor v))) as [w [Hw Ew]].
  exists a, b, (v - inject_Z (Qfloor v)), w.
  split; [rewrite Hw; reflexivity |].
  split; [exact Hina |]. split; [exact Hinb |].
  split; [| exact Ew].
  rewrite inject_Z_plus in Hf2. change (inject_Z 1) with 1 in Hf2. lra.
Qed.

(** *** The normalization of a finite cohort, in closed form *)

Lemma normalize_tau_c_exact (qs : list Q) :
  qs <> [] ->
  exists p5 dd : Q,
    normalize_tau_c (map Fin qs) =
      Ok (map Fin (map (fun t => Exact.qclip01 ((t + - p5) / dd)) qs)) /\
    1 # 1000000 <= dd /\
    (forall c, (forall x, In x qs -> x == c) -> p5 == c).
Proof.
  intros Hne.
  destruct (@np_percentile_finite qs 5 Hne ltac:(lra))
    as [a5 [b5 [t5 [p5 [H5 [Ha5 [Hb5 [Ht5 E5]]]]]]]].
  destruct (@np_percentile_finite qs 95 Hne ltac:(lra))
    as [a95 [b95 [t95 [p95 [H95 _]]]]].
  unfold normalize_tau_c. rewrite H5, H95. simpl.
  set (d := p95 + - p5).
  assert (Hden : exists dd, pymax (Fin d) (Fin (1 # 1000000)) = Fin dd /\
                            1 # 1000000 <= dd).
  { unfold pymax, fgt, flt.
    destruct (Qle_bool (1 # 1000000) d) eqn:E; simpl.
    - exists d. split; [reflexivity | apply Qle_bool_iff; exact E].
    - exists (1 # 1000000). split; [reflexivity | lra]. }
  destruct Hden as [dd [Hdd Hge]]. rewrite Hdd.
  exists p5, dd. split; [| split; [exact Hge |]].
  - f_equal. rewrite !map_map. apply map_ext. intros t. simpl.
    assert (Hsign : Qsign dd = Gt).
    { unfold Qsign. destruct (Qcompare_spec dd 0); try lra. reflexivity. }
    rewrite Hsign. apply EteFacts.np_clip_exact.
  - intros c Hc. rewrite E5, (Hc a5 Ha5), (Hc b5 Hb5). ring.
Qed.

(** X9. For a non-empty cohort, whatever its values, [normalize_tau_c]
    returns one value per sample, each of them [nan] or a finite value in
    [[0, 1]]. *)
Theorem normalize_tau_c_range (tau_values : list float) :
  tau_values <> [] ->
  exists out : list float,
    normalize_tau_c tau_values = Ok out /\
    length out = length tau_values /\
    Forall Pred.unit_or_nan out.
Proof.
  intros Hne. destruct tau_values as [| x l]; [congruence |].
  assert (Hp : forall q, exists p, np_percentile (x :: l) q = Ok p).
  { intros q. unfold np_percentile.
    destruct (existsb isnan (x :: l)); eexists; reflexivity. }
  destruct (Hp 5) as [p5 E5]. destruct (Hp 95) as [p95 E95].
  unfold normalize_tau_c. rewrite E5, E95. cbn [bind].
  eexists. split; [reflexivity |]. split; [rewrite !length_map; reflexivity |].
  apply Forall_forall. intros v Hv.
  apply in_map_iff in Hv. destruct Hv as [t [<- _]].
  destruct (EteMore.np_clip_unit_range t) as [E | [q [E Hq]]]; rewrite E.
  - left. reflexivity.
  - right. exact Hq.
Qed.

Lemma normalize_tau_c_range_witness :
  exists out : list float,
    normalize_tau_c [Fin 4; PInf; Fin 3; NInf] = Ok out /\
    length out = length [Fin 4; PInf; Fin 3; NInf] /\
    Forall Pred.unit_or_nan out.
Proof.
  apply (@normalize_tau_c_range [Fin 4; PInf; Fin 3; NInf]). discriminate.
Defined.

(** X10. [normalize_tau_c] never reverses the order of a finite cohort: when
    the lifetime of sample [i] is not larger than that of sample [j], the
    normalized value of [j] is not below that of [i]. *)
Theorem normalize_tau_c_monotone (qs : list Q) :
  qs <> [] ->
  exists out : list float,
    normalize_tau_c (map Fin qs) = Ok out /\
    length out = length qs /\
    forall i j : nat, (i < length qs)%nat -> (j < length qs)%nat ->
      nth i qs 0 <= nth j qs 0 ->
      flt (nth j out NaN) (nth i out NaN) = false.
Proof.
  intros Hne. destruct (normalize_tau_c_exact Hne) as [p5 [dd [Hrun [Hdd _]]]].
  eexists. split; [exact Hrun |]. split; [rewrite !length_map; reflexivity |].
  intros i j Hi Hj Hle.
  set (F := fun t => Exact.qclip01 ((t + - p5) / dd)).
  rewrite (@nth_indep _ (map Fin (map F qs)) j NaN (Fin (F 0)))
    by (rewrite !length_map; exact Hj).
  rewrite (@nth_indep _ (map Fin (map F qs)) i NaN (Fin (F 0)))
    by (rewrite !length_map; exact Hi).
  rewrite !(map_nth Fin), !(map_nth F). unfold flt.
  assert (H : F (nth i qs 0) <= F (nth j qs 0)).
  { unfold F. apply EteFacts.qclip01_monotone.
    apply Qle_shift_div_l; [lra |].
    assert (E : (nth i qs 0 + - p5) / dd * dd == nth i qs 0 + - p5)
      by (field; lra).
    rewrite E. lra. }
  apply Qle_bool_iff in H. rewrite H. reflexivity.
Qed.

Lemma normalize_tau_c_monotone_witness :
  exists out : list float,
    normalize_tau_c (map Fin [4; 1; 3; 2]) = Ok out /\
    length out = length [4; 1; 3; 2] /\
    forall i j : nat, (i < length [4; 1; 3; 2])%nat ->
      (j < length [4; 1; 3; 2])%nat ->
      nth i [4; 1; 3; 2] 0 <= nth j [4; 1; 3; 2] 0 ->
      flt (nth j out NaN) (nth i out NaN) = false.
Proof.
  apply (@normalize_tau_c_monotone [4; 1; 3; 2]). discriminate.
Defined.

(** X11. A cohort whose lifetimes are all the same finite value is normalized
    to zeros, one per sample. *)
Theorem normalize_tau_c_constant (qs : list Q) (c : Q) :
  qs <> [] -> (forall x, In x qs -> x == c) ->
  exists out : list Q,
    normalize_tau_c (map Fin qs) = Ok (map Fin out) /\
    length out = length qs /\
    forall v, In v out -> v == 0.
Proof.
  intros Hne Hc.
  destruct (normalize_tau_c_exact Hne) as [p5 [dd [Hrun [Hdd Hp5]]]].
  eexists. split; [exact Hrun |]. split; [apply length_map |].
  intros v Hv. apply in_map_iff in Hv. destruct Hv as [t [<- Ht]].
  assert (E : (t + - p5) / dd == 0).
  { rewrite (Hc t Ht), (Hp5 c Hc). field. lra. }
  destruct (EteFacts.qclip01_cases ((t + - p5) / dd))
    as [[Hx Ex] | [[Hx Ex] | [Hx Ex]]]; rewrite Ex; lra.
Qed.

Lemma normalize_tau_c_constant_witness :
  [3; 3; 3] <> [] /\
  exists out : list Q,
    normalize_tau_c (map Fin [3; 3; 3]) = Ok (map Fin out) /\
    length out = length [3; 3; 3] /\
    forall v, In v out -> v == 0.
Proof.
  assert (H : [3; 3; 3] <> []) by discriminate.
  split; [exact H |].
  apply (@normalize_tau_c_constant [3; 3; 3] 3 H).
  intros x [<- | [<- | [<- | []]]]; reflexivity.
Defined.

(** X12. One [nan] lifetime in the cohort turns every normalized value into
    [nan]. *)
Theorem normalize_tau_c_nan (tau_values : list float) :
  In NaN tau_values ->
  normalize_tau_c tau_values = Ok (map (fun _ => NaN) tau_values).
Proof.
  intros Hin.
  assert (Hex : existsb isnan tau_values = true).
  { apply existsb_exists. exists NaN. split; [exact Hin | reflexivity]. }
  unfold normalize_tau_c, np_percentile.
  destruct tau_values as [| x l]; [destruct Hin |].
  rewrite Hex. simpl. f_equal. rewrite map_map. f_equal.
  - destruct x; reflexivity.
  - apply map_ext. intros t. destruct t; reflexivity.
Qed.

Lemma normalize_tau_c_nan_witness :
  In NaN [Fin 1; NaN; Fin 3] /\
  normalize_tau_c [Fin 1; NaN; Fin 3] =
  Ok (map (fun _ => NaN) [Fin 1; NaN; Fin 3]).
Proof.
  assert (H : In NaN [Fin 1; NaN; Fin 3]) by (right; left; reflexivity).
  split; [exact H |]. exact (@normalize_tau_c_nan _ H).
Defined.

End NormalizeMore.

(** ** [time_evolve]: the samples of the trajectory *)

Module TrajectoryMore.

Import Heap StoreRel HeapFacts Simulate Sample.

Lemma finite_sample_extends (N : nat) (s s' : store) (h : ndarray) :
  extends s s' -> finite_sample N s h -> finite_sample N s' h.
Proof.
  intros Hext [Hb [Hr [Hc [Hlen Hfin]]]].
  pose proof (extends_length Hext) as Hl.
  unfold finite_sample. rewrite (extends_nth Hext Hb).
  repeat split; try assumption. lia.
Qed.

Lemma nan_to_num_finite (v : list complex) :
  forallb cisfinite (map cnan_to_num0 v) = true.
Proof.
  induction v as [| z v IH]; simpl; [reflexivity |].
  rewrite IH, andb_true_r. unfold cisfinite, cnan_to_num0; simpl.
  destruct (re z), (im z); reflexivity.
Qed.

Section WithExpm.
Variable expm : matrix complex -> matrix complex.

(** One step appends one array: a fresh [N] by [N] buffer of finite
    entries, the blow-up guard having replaced the others. *)
Lemma advance_sample (N : nat) (U_dt : matrix complex) (t : float)
  (st st1 : loc * list ndarray) (s s1 : store) :
  advance N U_dt t st s = (s1, Ok st1) ->
  extends s s1 /\
  exists h, snd st1 = snd st ++ [h] /\ finite_sample N s1 h.
Proof.
  destruct st as [rho_vec series]. unfold advance.
  cbv beta iota delta
    [mbind lift ret raise read load alloc write reshape fst snd].
  destruct (matvec U_dt _) as [v' | e]; [| discriminate].
  destruct (forallb cisfinite v') eqn:Efin;
    cbv beta iota delta
      [mbind lift ret raise read load alloc write reshape fst snd].
  - rewrite nth_middle.
    destruct (Nat.eqb_spec (length v') (N * N)) as [Elen |]; [| discriminate].
    intros E. injection E as <- <-.
    split; [apply extends_app |].
    eexists. split; [reflexivity |].
    unfold finite_sample; simpl. rewrite nth_middle, length_app. simpl.
    repeat split; try assumption; lia.
  - rewrite <- app_assoc. simpl.
    replace (length (s ++ [v'])) with (length s + 1)
      by (rewrite length_app; reflexivity).
    assert (Hnth : nth (length s + 1) (s ++ [v'; map cnan_to_num0 v']) []
                   = map cnan_to_num0 v').
    { rewrite app_nth2 by lia.
      replace (length s + 1 - length s) with 1 by lia. reflexivity. }
    rewrite Hnth, length_map.
    destruct (Nat.eqb_spec (length v') (N * N)) as [Elen |]; [| discriminate].
    intros E. injection E as <- <-.
    split; [apply extends_app |].
    eexists. split; [reflexivity |].
    unfold finite_sample; simpl. rewrite Hnth, length_app, length_map. simpl.
    repeat split; try assumption; try lia. apply nan_to_num_finite.
Qed.

Lemma propagation_loop_samples (N : nat) (U_dt : matrix complex)
  (ts : list float) (st st' : loc * list ndarray) (s s' : store) :
  mfor_each (advance N U_dt) ts st s = (s', Ok st') ->
  extends s s' /\
  exists tail, snd st' = snd st ++ tail /\ length tail = length ts /\
               Forall (finite_sample N s') tail.
Proof.
  revert st s; induction ts as [| t ts IH]; intros st s; simpl.
  - unfold ret. intros E. injection E as <- <-.
    split; [apply extends_refl |].
    exists []. rewrite app_nil_r. repeat split. constructor.
  - unfold mbind at 1.
    destruct (advance N U_dt t st s) as [s1 [st1 | e]] eqn:Estep;
      [| discriminate].
    intros Erest.
    destruct (advance_sample _ _ _ _ _ Estep) as [Hext1 [h [Hh Hsample]]].
    destruct (IH _ _ Erest) as [Hext2 [tail [Htail [Hlen Hall]]]].
    split; [eapply extends_trans; eassumption |].
    exists (h :: tail). rewrite Htail, Hh, <- app_assoc.
    split; [reflexivity |]. split; [simpl; lia |].
    constructor; [| exact Hall].
    eapply finite_sample_extends; eassumption.
Qed.

(** What a returning call of [time_evolve] went through: the grid is the
    one of [np.arange], and the trajectory is the state of the propagation
    loop, started from a copy [h0] of [rho0]. *)
Lemma time_evolve_inversion (rho0 H : ndarray) (L_ops : list ndarray)
  (T_end dt : float) (s s' : store) (series : list ndarray)
  (times : list float) :
  time_evolve expm rho0 H L_ops T_end dt s = (s', Ok (series, times)) ->
  np_arange (Fin 0) (Binary64.add T_end dt) dt = Ok times /\
  exists (s4 : store) (U_dt : matrix complex) (rho_vec : loc) (h0 : ndarray)
         (st : loc * list ndarray),
    mfor_each (advance (nr rho0) U_dt) (tl times) (rho_vec, [h0]) s4
      = (s', Ok st) /\
    series = snd st /\
    nr h0 = nr rho0 /\ nc h0 = nc rho0 /\
    buf h0 < length s4 /\ length s <= buf h0 /\
    (buf rho0 < length s -> nth (buf h0) s4 [] = nth (buf rho0) s []).
Proof.
  intros E. unfold time_evolve in E.
  cbv beta iota delta
    [mbind lift ret raise read load alloc write new_array copy flatten
     reshape iadd] in E.
  cbn [data nrows ncols nr nc buf fst snd] in E.
  destruct (hamiltonian_term _ _) as [L_H | e]; [| discriminate].
  set (N := nr rho0) in *.
  set (L_D := NdArray (length s) _ _) in E.
  set (s1 := s ++ [_]) in E.
  pose proof (EvolveFacts.dissipator_loop_only_changes N L_D L_ops tt s1)
    as [Hlen1 Hkeep1].
  destruct (mfor_each (accumulate N L_D) L_ops tt s1) as [s2 [[] | e]];
    cbn [data nrows ncols nr nc buf fst snd] in *; [| discriminate].
  assert (Hs2 : length s2 = length s + 1).
  { rewrite Hlen1. unfold s1. rewrite length_app. simpl. lia. }
  destruct (madd L_H _) as [L_total | e]; [| discriminate].
  destruct (np_arange _ _ _) as [times0 | e]; [| discriminate].
  set (s3 := s2 ++ [nth (buf rho0) s2 []]) in E.
  set (s4 := s3 ++ [nth (buf rho0) s3 []]) in E.
  destruct (scipy_expm expm _) as [U_dt | e]; [| discriminate].
  destruct (mfor_each (advance N U_dt) (tl times0) _ s4)
    as [s5 [st | e]] eqn:Eloop; [| discriminate].
  injection E as <- <- <-.
  split; [reflexivity |].
  exists s4, U_dt, (length s2), (NdArray (length s3) N (nc rho0)), st.
  assert (Hs3 : length s3 = length s + 2).
  { unfold s3. rewrite length_app. simpl. lia. }
  split; [exact Eloop |]. split; [reflexivity |].
  split; [reflexivity |]. split; [reflexivity |]. cbn [buf].
  split; [unfold s4; rewrite length_app; simpl; lia |].
  split; [lia |].
  intros Hvalid. unfold s4. rewrite nth_middle.
  unfold s3. rewrite app_nth1 by lia.
  rewrite Hkeep1 by (unfold L_D; simpl; lia).
  unfold s1. apply app_nth1. exact Hvalid.
Qed.

(** X13. A returned trajectory has one sample per grid point, and one sample,
    the copy of [rho0], when the grid is empty. *)
Theorem time_evolve_trajectory_length (rho0 H : ndarray)
  (L_ops : list ndarray) (T_end dt : float) (s s' : store)
  (series : list ndarray) (times : list float) :
  time_evolve expm rho0 H L_ops T_end dt s = (s', Ok (series, times)) ->
  length series = Nat.max 1 (length times).
Proof.
  intros E.
  destruct (time_evolve_inversion _ _ _ _ _ _ E)
    as [_ [s4 [U_dt [rho_vec [h0 [st [Eloop [-> _]]]]]]]].
  destruct (propagation_loop_samples _ _ _ _ _ Eloop)
    as [_ [tail [Htail [Hlen _]]]].
  cbn [snd] in Htail. rewrite Htail, length_app, Hlen, length_tl.
  cbn [length]. lia.
Qed.

(** X14. Every sample of a returned trajectory after the first is an
    [N] by [N] array, [N] the number of rows of [rho0], whose entries are
    all finite: the blow-up guard lets no [nan] and no infinity through,
    whatever the propagator is. *)
Theorem time_evolve_samples_finite (rho0 H : ndarray) (L_ops : list ndarray)
  (T_end dt : float) (s s' : store) (series : list ndarray)
  (times : list float) :
  time_evolve expm rho0 H L_ops T_end dt s = (s', Ok (series, times)) ->
  Forall (finite_sample (nr rho0) s') (tl series).
Proof.
  intros E.
  destruct (time_evolve_inversion _ _ _ _ _ _ E)
    as [_ [s4 [U_dt [rho_vec [h0 [st [Eloop [-> _]]]]]]]].
  destruct (propagation_loop_samples _ _ _ _ _ Eloop)
    as [_ [tail [Htail [_ Hall]]]].
  rewrite Htail. exact Hall.
Qed.

(** When [rho0] itself is a square array of finite entries, every sample is
    such an array. *)
Lemma time_evolve_all_finite (rho0 H : ndarray) (L_ops : list ndarray)
  (T_end dt : float) (s s' : store) (series : list ndarray)
  (times : list float) :
  time_evolve expm rho0 H L_ops T_end dt s = (s', Ok (series, times)) ->
  buf rho0 < length s -> nc rho0 = nr rho0 ->
  length (nth (buf rho0) s []) = nr rho0 * nr rho0 ->
  forallb cisfinite (nth (buf rho0) s []) = true ->
  Forall (finite_sample (nr rho0) s') series.
Proof.
  intros E Hvalid Hsq Hlen Hfin.
  destruct (time_evolve_inversion _ _ _ _ _ _ E)
    as [_ [s4 [U_dt [rho_vec [h0 [st [Eloop [-> [Hr [Hc [Hb [_ Hcopy]]]]]]]]]]]].
  destruct (propagation_loop_samples _ _ _ _ _ Eloop)
    as [Hext [tail [Htail [_ Hall]]]].
  cbn [snd] in Htail. rewrite Htail. simpl. constructor; [| exact Hall].
  apply (finite_sample_extends Hext).
  unfold finite_sample. rewrite (Hcopy Hvalid).
  repeat split; try assumption. congruence.
Qed.

End WithExpm.

(** With [T_end = -1] and [dt = 1/2] the grid is empty and the trajectory
    holds its one sample. *)
Lemma time_evolve_trajectory_length_witness :
  exists s' series times,
    time_evolve expm_taylor2 (NdArray 0 1 1) (NdArray 1 1 1) []
      (Fin (-1)) (Fin (1 # 2)) [[cone]; [czero]] = (s', Ok (series, times)) /\
    times = [] /\
    length series = Nat.max 1 (length times).
Proof.
  destruct (time_evolve expm_taylor2 (NdArray 0 1 1) (NdArray 1 1 1) []
              (Fin (-1)) (Fin (1 # 2)) [[cone]; [czero]])
    as [s' [[series times] | e]] eqn:E.
  - exists s', series, times. split; [reflexivity |].
    split; [vm_compute in E; congruence |].
    exact (@time_evolve_trajectory_length expm_taylor2 _ _ _ _ _ _ _ _ _ E).
  - vm_compute in E. discriminate.
Defined.

Lemma time_evolve_samples_finite_witness :
  exists s' series times,
    time_evolve expm_taylor2 (NdArray 0 1 1) (NdArray 1 1 1) []
      (Fin 1) (Fin (1 # 2)) [[Cplx PInf zero]; [czero]]
      = (s', Ok (series, times)) /\
    Forall (finite_sample 1 s') (tl series).
Proof.
  destruct (time_evolve expm_taylor2 (NdArray 0 1 1) (NdArray 1 1 1) []
              (Fin 1) (Fin (1 # 2)) [[Cplx PInf zero]; [czero]])
    as [s' [[series times] | e]] eqn:E.
  - exists s', series, times. split; [reflexivity |].
    exact (@time_evolve_samples_finite expm_taylor2 _ _ _ _ _ _ _ _ _ E).
  - vm_compute in E. discriminate.
Defined.

End TrajectoryMore.

(** ** The configured time grid *)

Module GridMore.

Import Config Binary64 Binary64Facts.

Local Open Scope Q_scope.

Lemma round_between (hi q : Q) :
  representable hi -> 0 <= q <= hi ->
  exists r : Q, round q = Fin r /\ 0 <= r <= hi.
Proof.
  intros Hhi [Hq0 Hq].
  destruct (representable_round Hhi) as [hi' [E Ehi]].
  pose proof (@round_nonneg q Hq0) as Hn.
  pose proof (@round_monotone q hi Hq) as Hm. rewrite E in Hm.
  destruct (round q) as [r | | |]; simpl in *; try contradiction;
    try discriminate.
  apply Qle_bool_iff in Hm. exists r. split; [reflexivity | lra].
Qed.

(** The grid points [0.0 + i * c] are finite and bounded as long as [i] is,
    for a step [c] in [[0, 1]]. *)
Lemma double_point_bounded (c hi : Q) (i : nat) :
  0 <= c <= 1 -> representable hi -> inject_Z (Z.of_nat i) <= hi ->
  exists t : Q, Spec.double_point (Fin c) i = Fin t /\ 0 <= t <= hi.
Proof.
  intros Hc Hhi Hi.
  assert (Hi0 : 0 <= inject_Z (Z.of_nat i)).
  { change 0 with (inject_Z 0). rewrite <- Zle_Qle. lia. }
  unfold Spec.double_point, of_nat.
  assert (Hi' : 0 <= inject_Z (Z.of_nat i) <= hi) by (split; assumption).
  destruct (@round_between hi (inject_Z (Z.of_nat i)) Hhi Hi')
    as [m [-> Hm]].
  unfold mul.
  assert (Hmc : 0 <= m * c <= hi) by nra.
  destruct (@round_between hi (m * c) Hhi Hmc) as [p [-> Hp]].
  unfold add.
  assert (Hp' : 0 <= 0 + p <= hi) by lra.
  destruct (@round_between hi (0 + p) Hhi Hp') as [t [-> Ht]].
  exists t. split; [reflexivity | exact Ht].
Qed.

(** They do not decrease with [i], however the products round. *)
Lemma double_point_monotone (c : Q) (i j : nat) :
  0 < c -> (i <= j)%nat ->
  fle (Spec.double_point (Fin c) i) (Spec.double_point (Fin c) j) = true.
Proof.
  intros Hc Hij. unfold Spec.double_point, of_nat.
  assert (Hi0 : 0 <= inject_Z (Z.of_nat i)).
  { change 0 with (inject_Z 0). rewrite <- Zle_Qle. lia. }
  assert (Hle : inject_Z (Z.of_nat i) <= inject_Z (Z.of_nat j)).
  { rewrite <- Zle_Qle. lia. }
  assert (Hj0 : 0 <= inject_Z (Z.of_nat j)) by lra.
  pose proof (@round_nonneg _ Hi0) as Hni.
  pose proof (@round_nonneg _ Hj0) as Hnj.
  pose proof (@round_monotone _ _ Hle) as Hm.
  destruct (@mul_step_monotone _ _ c Hni Hnj Hm Hc) as [Hpi [Hpj Hp]].
  assert (H0 : nonneg (Fin 0)) by (simpl; lra).
  assert (H00 : fle (Fin 0) (Fin 0) = true) by reflexivity.
  destruct (@add_nonneg_monotone _ _ _ _ H0 H0 Hpi Hpj H00 Hp)
    as [_ [_ H]].
  exact H.
Qed.

(** A list of finite values is the image of a list of rationals. *)
Lemma finite_values (l : list float) :
  (forall i : nat, (i < length l)%nat -> exists t : Q, nth i l NaN = Fin t) ->
  exists ts : list Q, l = map Fin ts.
Proof.
  induction l as [| x l IH]; intros H.
  - exists []. reflexivity.
  - destruct (H 0%nat) as [t Ht]; [simpl; lia |]. simpl in Ht. subst x.
    destruct IH as [ts ->].
    { intros i Hi. apply (H (S i)). simpl. lia. }
    exists (t :: ts). reflexivity.
Qed.

Lemma nth_finite (ts : list Q) (i : nat) :
  (i < length ts)%nat -> nth i (map Fin ts) NaN = Fin (nth i ts 0).
Proof.
  intros Hi.
  rewrite (@nth_indep _ (map Fin ts) i NaN (Fin 0))
    by (rewrite length_map; exact Hi).
  apply (map_nth Fin).
Qed.

(** [np.arange(0.0, TIME_END + DT, DT)]: 10001 points, point [i] being the
    double [0.0 + i * dt] for the double [dt] nearest to 0.05. *)
Lemma configured_grid :
  exists times : list float,
    np_arange (Fin 0) (Binary64.add TIME_END DT) DT = Ok times /\
    Z.of_nat (length times) = 10001%Z /\
    forall i : nat, (i < length times)%nat ->
      nth i times NaN = Spec.double_point (Fin GridSpec.dt_double) i.
Proof.
  assert (Hlen : arange_length (Fin 0) (Binary64.add TIME_END DT) DT
                 = Ok (Z.to_nat 10001)) by (vm_compute; reflexivity).
  assert (Hnext : Binary64.add (Fin 0) DT
                  = Binary64.add (Fin 0) (Fin GridSpec.dt_double))
    by (vm_compute; reflexivity).
  assert (Hrep : representable GridSpec.dt_double)
    by (vm_compute; reflexivity).
  unfold np_arange. rewrite Hlen. cbv beta iota delta [bind].
  rewrite Hnext.
  eexists. split; [reflexivity |].
  split.
  - rewrite length_map, length_seq. rewrite Z2Nat.id by lia. reflexivity.
  - intros i Hi. rewrite length_map, length_seq in Hi.
    apply EvolveFacts.grid_items; [exact Hrep | exact Hi].
Qed.

(** The points of the configured grid are finite, not negative and in
    non-decreasing order. *)
Lemma configured_grid_sorted (times : list float) :
  Z.of_nat (length times) = 10001%Z ->
  (forall i : nat, (i < length times)%nat ->
     nth i times NaN = Spec.double_point (Fin GridSpec.dt_double) i) ->
  exists ts : list Q,
    times = map Fin ts /\
    (forall i : nat, (i + 1 < length ts)%nat ->
       nth i ts 0 <= nth (i + 1) ts 0) /\
    0 <= nth 0 ts 0.
Proof.
  intros Hlen Hpts.
  assert (Hc : 0 <= GridSpec.dt_double <= 1)
    by (unfold GridSpec.dt_double; split; [discriminate | discriminate]).
  assert (Hc0 : 0 < GridSpec.dt_double) by reflexivity.
  assert (Hhi : representable 16384) by (vm_compute; reflexivity).
  assert (Hbound : forall i : nat, (i < length times)%nat ->
            exists t : Q, nth i times NaN = Fin t /\ 0 <= t <= 16384).
  { intros i Hi. rewrite (Hpts i Hi).
    apply double_point_bounded; [exact Hc | exact Hhi |].
    change 16384 with (inject_Z 16384). rewrite <- Zle_Qle. lia. }
  destruct (@finite_values times) as [ts Hts].
  { intros i Hi. destruct (Hbound i Hi) as [t [Ht _]]. exists t. exact Ht. }
  exists ts. split; [exact Hts |].
  assert (Hl : length times = length ts) by (rewrite Hts; apply length_map).
  split.
  - intros i Hi.
    assert (Hi1 : (i < length times)%nat) by lia.
    assert (Hi2 : (i + 1 < length times)%nat) by lia.
    pose proof (@double_point_monotone GridSpec.dt_double i (i + 1) Hc0) as Hm.
    rewrite <- (Hpts i Hi1), <- (Hpts (i + 1)%nat Hi2) in Hm.
    rewrite Hts in Hm. rewrite !nth_finite in Hm by lia.
    simpl in Hm. apply Qle_bool_iff. apply Hm. lia.
  - destruct ts as [| t0 ts]; [simpl; lra |].
    destruct (Hbound 0%nat) as [t [Ht Hr]]; [rewrite Hl; simpl; lia |].
    rewrite Hts in Ht. simpl in Ht. injection Ht as ->. simpl. lra.
Qed.

End GridMore.

(** ** The drivers of [simulate.py] *)

Module DriversMore.

Import Config Heap StoreRel HeapFacts Simulate Metrics Sample Sweep Drivers.

Lemma new_arrays_loop (ms : list (matrix complex)) (acc : list ndarray)
  (s : store) :
  exists hs,
    mfor_each (fun m hs => mbind (new_array m) (fun h => ret (hs ++ [h])))
      ms acc s = (s ++ map (@data complex) ms, Ok (acc ++ hs)) /\
    Forall2 (fun h m => nr h = nrows m /\ nc h = ncols m) hs ms.
Proof.
  revert acc s; induction ms as [| m ms IH]; intros acc s; simpl.
  - exists []. rewrite !app_nil_r. split; [reflexivity | constructor].
  - cbv beta iota delta [mbind new_array alloc ret] in *.
    destruct (IH (acc ++ [NdArray (length s) (nrows m) (ncols m)])
                 (s ++ [data m])) as [hs [Hrun Hshape]].
    exists (NdArray (length s) (nrows m) (ncols m) :: hs).
    rewrite Hrun, <- !app_assoc. split; [reflexivity |].
    constructor; [split; reflexivity | exact Hshape].
Qed.

Lemma new_arrays_spec (ms : list (matrix complex)) (s : store) :
  exists hs,
    new_arrays ms s = (s ++ map (@data complex) ms, Ok hs) /\
    Forall2 (fun h m => nr h = nrows m /\ nc h = ncols m) hs ms.
Proof. apply (new_arrays_loop ms [] s). Qed.

Lemma read_all_loop (hs : list ndarray) (acc : list (matrix complex))
  (s : store) :
  mfor_each (fun h ms => mbind (read h) (fun m => ret (ms ++ [m]))) hs acc s
  = (s, Ok (acc ++ map (value s) hs)).
Proof.
  revert acc; induction hs as [| h hs IH]; intros acc; simpl.
  - unfold ret. rewrite app_nil_r. reflexivity.
  - cbv beta iota delta [mbind read load ret] in *.
    rewrite IH, <- app_assoc. reflexivity.
Qed.

Lemma read_all_spec (hs : list ndarray) (s : store) :
  read_all hs s = (s, Ok (map (value s) hs)).
Proof. apply (read_all_loop hs [] s). Qed.

Lemma forallb_nth {A : Type} (p : A -> bool) (l : list A) (i : nat) (d : A) :
  forallb p l = true -> i < length l -> p (nth i l d) = true.
Proof.
  intros Hall Hi. rewrite forallb_forall in Hall.
  apply Hall. apply nth_In. exact Hi.
Qed.

(** A finite sample on 7 sites has a finite sink population. *)
Lemma finite_sample_sink (s : store) (h : ndarray) :
  finite_sample NUM_ETC_SITES s h ->
  Spec.sink_finite SINK_INDEX (value s h).
Proof.
  intros [_ [Hr [Hc [Hlen Hfin]]]].
  unfold Spec.sink_finite, Spec.sink_inside, wf, value, mget; simpl.
  rewrite Hr, Hc. unfold NUM_ETC_SITES, SINK_INDEX in *. simpl in *.
  repeat split; try lia.
  assert (H : cisfinite (nth 48 (nth (buf h) s []) czero) = true)
    by (apply forallb_nth; [exact Hfin | lia]).
  unfold cisfinite in H. apply andb_true_iff in H. apply H.
Qed.

Section WithLibraries.
Variable np_sqrt : float -> float.
Variable expm : matrix complex -> matrix complex.

Lemma lindblad_ops_shapes (gamma k_sink k_loss : float) :
  exists ops,
    build_lindblad_ops np_sqrt NUM_ETC_SITES gamma k_sink k_loss = Ok ops /\
    Forall (fun m => nrows m = NUM_ETC_SITES /\ ncols m = NUM_ETC_SITES) ops.
Proof.
  rewrite LindbladFacts.build_lindblad_ops_unfold.
  rewrite LindbladFacts.site_operator_ok
    by (unfold SINK_INDEX, NUM_ETC_SITES; simpl; lia).
  simpl. eexists. split; [reflexivity |].
  repeat (constructor; [split; reflexivity |]). constructor.
Qed.

Lemma handles_shapes (hs : list ndarray) (ms : list (matrix complex)) (N : nat) :
  Forall2 (fun h m => nr h = nrows m /\ nc h = ncols m) hs ms ->
  Forall (fun m => nrows m = N /\ ncols m = N) ms ->
  Forall (has_shape N N) hs.
Proof.
  induction 1 as [| h m hs ms [Hr Hc] _ IH]; intros Hms; [constructor |].
  inversion Hms as [| ? ? [Hmr Hmc] Hms']; subst.
  constructor; [split; congruence | apply IH; exact Hms'].
Qed.

Lemma initial_state_value :
  exists rho0 : matrix complex,
    initial_state = Ok rho0 /\
    nrows rho0 = NUM_ETC_SITES /\ ncols rho0 = NUM_ETC_SITES /\
    length (data rho0) = NUM_ETC_SITES * NUM_ETC_SITES /\
    forallb cisfinite (data rho0) = true.
Proof.
  eexists. split; [vm_compute; reflexivity |]. repeat split.
Qed.

Hypothesis expm_shape :
  forall A : matrix complex, nrows A = ncols A -> shape (expm A) = shape A.

(** On 7 site energies and at least 6 couplings the shared lines return
    whenever [np.arange] returns the grid: one sample per grid point, every
    sample a 7 by 7 array of finite entries. *)
Lemma evolve_returns (epsilon J : list float) (gamma k_sink k_loss : float)
  (T dt : float) (s : store) (times : list float) :
  length epsilon = NUM_ETC_SITES -> NUM_ETC_SITES - 1 <= length J ->
  np_arange (Fin 0) (Binary64.add T dt) dt = Ok times ->
  exists s' series,
    evolve np_sqrt expm epsilon J gamma k_sink k_loss T dt s =
      (s', Ok (series, times)) /\
    length series = Nat.max 1 (length times) /\
    Forall (finite_sample NUM_ETC_SITES s') series.
Proof.
  intros Heps HJ Hgrid. unfold evolve.
  cbv beta iota delta [mbind lift ret new_array alloc].
  rewrite HamiltonianFacts.build_hamiltonian_ok by lia.
  destruct (lindblad_ops_shapes gamma k_sink k_loss) as [ops [Hops Hshapes]].
  rewrite Hops.
  set (s1 := s ++ [data (Spec.hamiltonian_matrix epsilon J)]).
  destruct (new_arrays_spec ops s1) as [hs [Hnew Hsh]]. rewrite Hnew.
  destruct initial_state_value as [rho0v [Hinit [Hr [Hc [Hlen Hfin]]]]].
  rewrite Hinit.
  set (s2 := s1 ++ map (@data complex) ops).
  set (rho0 := NdArray (length s2) (nrows rho0v) (ncols rho0v)).
  set (H := NdArray (length s) _ _).
  assert (Hbuf : nth (buf rho0) (s2 ++ [data rho0v]) [] = data rho0v).
  { unfold rho0; simpl. apply nth_middle. }
  assert (Hws : well_shaped (s2 ++ [data rho0v]) rho0 H hs).
  { unfold well_shaped. rewrite Hbuf.
    unfold rho0 at 1 2 3 4 5 6; simpl. rewrite length_app. simpl.
    split; [lia |]. split; [congruence |]. split; [rewrite Hr; exact Hlen |].
    split.
    - unfold has_shape, H; simpl. rewrite Hr, Heps. auto.
    - rewrite Hr. eapply handles_shapes; eassumption. }
  destruct (@EvolveFacts.time_evolve_total expm expm_shape _ _ _ _ _ _ _
              Hws Hgrid) as [s' [series [Hrun Hlens]]].
  exists s', series. split; [exact Hrun |]. split; [exact Hlens |].
  replace NUM_ETC_SITES with (nr rho0) by (unfold rho0; simpl; exact Hr).
  apply (@TrajectoryMore.time_evolve_all_finite expm _ _ _ _ _ _ _ _ _ Hrun).
  - unfold rho0; simpl. rewrite length_app. simpl. lia.
  - unfold rho0; simpl. congruence.
  - rewrite Hbuf. unfold rho0; simpl. rewrite Hr. exact Hlen.
  - rewrite Hbuf. exact Hfin.
Qed.

(** The same on the configured grid: 10001 samples. *)
Lemma evolve_configured (epsilon J : list float)
  (gamma k_sink k_loss : float) (s : store) :
  length epsilon = NUM_ETC_SITES -> NUM_ETC_SITES - 1 <= length J ->
  exists s' series times,
    evolve np_sqrt expm epsilon J gamma k_sink k_loss TIME_END DT s =
      (s', Ok (series, times)) /\
    length series = length times /\
    Z.of_nat (length times) = 10001%Z /\
    (forall i : nat, i < length times ->
       nth i times NaN = Spec.double_point (Fin GridSpec.dt_double) i) /\
    Forall (finite_sample NUM_ETC_SITES s') series.
Proof.
  intros Heps HJ.
  destruct GridMore.configured_grid as [times [Hgrid [Hn Hpts]]].
  destruct (@evolve_returns epsilon J gamma k_sink k_loss TIME_END DT s
              times Heps HJ Hgrid) as [s' [series [Hrun [Hlen Hfin]]]].
  exists s', series, times. split; [exact Hrun |].
  split; [lia |]. split; [exact Hn |]. split; [exact Hpts | exact Hfin].
Qed.

(** *** A Hamiltonian of another size *)

Lemma hamiltonian_term_rect (N a : nat) (H : matrix complex) :
  shape H = (a, a) ->
  exists L_H, hamiltonian_term N H = Ok L_H /\ shape L_H = (N * a, N * a).
Proof.
  unfold shape. intros E. injection E as Hr Hc.
  unfold hamiltonian_term, msub.
  destruct (@EvolveFacts.elementwise_same_shape csub
              (np_kron (np_identity N) H)
              (np_kron (transpose czero H) (np_identity N)))
    as [D [HD HsD]].
  { unfold shape; simpl. rewrite Hr, Hc. f_equal; apply Nat.mul_comm. }
  rewrite HD. simpl. eexists. split; [reflexivity |].
  unfold shape in *; simpl in *. rewrite Hr, Hc in HsD. exact HsD.
Qed.

Lemma broadcast_dim_mismatch (N a : nat) :
  1 < N -> a <> N -> broadcast_dim (N * a) (N * N) = Raise ValueError.
Proof.
  intros HN Ha. unfold broadcast_dim.
  destruct (Nat.eqb_spec (N * a) (N * N)) as [E | _].
  { apply Nat.mul_cancel_l in E; lia. }
  destruct (Nat.eqb_spec (N * a) 1) as [E | _].
  { apply Nat.eq_mul_1 in E. lia. }
  destruct (Nat.eqb_spec (N * N) 1) as [E | _].
  { apply Nat.eq_mul_1 in E. lia. }
  reflexivity.
Qed.

(** [L_H + L_D] does not broadcast when [H] is a square array of another
    size than [rho0]: the jump operators are accumulated, and the sum
    raises. *)
Lemma time_evolve_shape_mismatch (rho0 H : ndarray) (L_ops : list ndarray)
  (T_end dt : float) (s : store) (a : nat) :
  1 < nr rho0 -> has_shape a a H -> a <> nr rho0 ->
  Forall (has_shape (nr rho0) (nr rho0)) L_ops ->
  exists s', time_evolve expm rho0 H L_ops T_end dt s = (s', Raise ValueError).
Proof.
  intros HN [HHr HHc] Ha Hops.
  unfold time_evolve.
  cbv beta iota delta
    [mbind lift ret raise read load alloc write new_array copy flatten
     reshape iadd].
  cbn [data nrows ncols nr nc buf fst snd].
  set (N := nr rho0) in *.
  destruct (@hamiltonian_term_rect N a (Mat (nr H) (nc H) (nth (buf H) s [])))
    as [L_H [HL_H HsH]].
  { unfold shape; simpl. rewrite HHr, HHc. reflexivity. }
  rewrite HL_H.
  set (L_D := NdArray (length s) _ _).
  set (s1 := s ++ [_]).
  destruct (@EvolveFacts.dissipator_loop_total N L_D L_ops s1) as [s2 Hloop1];
    [split; reflexivity | exact Hops |].
  rewrite Hloop1.
  cbn [data nrows ncols nr nc buf fst snd].
  unfold madd, elementwise.
  unfold shape in HsH. injection HsH as Hr Hc.
  cbn [data nrows ncols nr nc buf fst snd].
  rewrite Hr. rewrite broadcast_dim_mismatch by assumption.
  eexists. reflexivity.
Qed.

(** With [N <> NUM_ETC_SITES] site energies and enough couplings the shared
    lines build the [N] by [N] Hamiltonian and the 7 by 7 operators, and
    [time_evolve] raises [ValueError]. *)
Lemma evolve_wrong_size (epsilon J : list float) (gamma k_sink k_loss : float)
  (T dt : float) (s : store) :
  length epsilon <> NUM_ETC_SITES -> length epsilon - 1 <= length J ->
  exists s',
    evolve np_sqrt expm epsilon J gamma k_sink k_loss T dt s =
      (s', Raise ValueError).
Proof.
  intros Heps HJ. unfold evolve.
  cbv beta iota delta [mbind lift ret new_array alloc].
  rewrite HamiltonianFacts.build_hamiltonian_ok by lia.
  destruct (lindblad_ops_shapes gamma k_sink k_loss) as [ops [Hops Hshapes]].
  rewrite Hops.
  set (s1 := s ++ [data (Spec.hamiltonian_matrix epsilon J)]).
  destruct (new_arrays_spec ops s1) as [hs [Hnew Hsh]]. rewrite Hnew.
  destruct initial_state_value as [rho0v [Hinit [Hr [Hc [Hlen Hfin]]]]].
  rewrite Hinit.
  apply time_evolve_shape_mismatch with (a := length epsilon).
  - simpl. rewrite Hr. unfold NUM_ETC_SITES. lia.
  - split; reflexivity.
  - simpl. rewrite Hr. exact Heps.
  - simpl. rewrite Hr. eapply handles_shapes; eassumption.
Qed.

(** *** [compute_ete_for_gamma] *)

Lemma compute_ete_for_gamma_value (params : Params.params)
  (gamma : float) (epsilon J : list float) (k : Q) (s : store) :
  Params.epsilon params = Some epsilon -> Params.J params = Some J ->
  length epsilon = NUM_ETC_SITES -> NUM_ETC_SITES - 1 <= length J ->
  get_default (Params.k_sink params) K_SINK = Fin k ->
  exists (s' : store) (e : float),
    compute_ete_for_gamma np_sqrt expm params gamma TIME_END DT s =
      (s', Return e) /\
    Pred.unit_or_nan e.
Proof.
  intros He HJ Hle HlJ Hk.
  unfold compute_ete_for_gamma. rewrite He, HJ, Hk.
  cbv beta iota delta [ombind of_outcome item of_heap oret lift].
  destruct (@evolve_configured epsilon J gamma (Fin k)
              (get_default (Params.k_loss params) K_LOSS) s Hle HlJ)
    as [s' [series [times [Hrun [_ [_ [_ Hfin]]]]]]].
  rewrite Hrun. cbn [of_result fst]. rewrite read_all_spec. cbn [of_result].
  destruct (@EteFacts.compute_ete_exact (map (value s') series) SINK_INDEX
              (5 # 100)) as [P HP].
  { apply Forall_map. eapply Forall_impl; [| exact Hfin].
    intros h. apply finite_sample_sink. }
  unfold DT. rewrite HP. cbn [of_result].
  eexists. eexists. split; [reflexivity |].
  right. apply EteFacts.qclip01_bounds.
Qed.

(** X15. On parameters with 7 site energies and at least 6 couplings and a
    finite sink rate (the one of [params], or [K_SINK]), on the configured
    grid ([T = TIME_END], [dt = DT]), [compute_ete_for_gamma] returns, for
    every dephasing rate; the value is [nan] or lies in [[0, 1]].  [expm]
    is any function that returns an array of the shape of its argument. *)
Theorem compute_ete_for_gamma_range (params : Params.params)
  (gamma : float) (epsilon J : list float) (k : Q) (s : store) :
  Params.epsilon params = Some epsilon -> Params.J params = Some J ->
  length epsilon = NUM_ETC_SITES -> NUM_ETC_SITES - 1 <= length J ->
  get_default (Params.k_sink params) K_SINK = Fin k ->
  exists (s' : store) (e : float),
    compute_ete_for_gamma np_sqrt expm params gamma TIME_END DT s =
      (s', Return e) /\
    Pred.unit_or_nan e.
Proof. exact (@compute_ete_for_gamma_value params gamma epsilon J k s). Qed.

(** X16. With a number of site energies other than [NUM_ETC_SITES] (and enough
    couplings for them) [compute_ete_for_gamma] raises [ValueError]: the
    Hamiltonian term and the dissipator of the 7 by 7 state do not
    broadcast. *)
Theorem compute_ete_for_gamma_wrong_size (params : Params.params)
  (gamma T dt : float) (epsilon J : list float) (s : store) :
  Params.epsilon params = Some epsilon -> Params.J params = Some J ->
  length epsilon <> NUM_ETC_SITES -> length epsilon - 1 <= length J ->
  exists s' : store,
    compute_ete_for_gamma np_sqrt expm params gamma T dt s =
      (s', Throw (Core ValueError)).
Proof.
  intros He HJ Hle HlJ.
  unfold compute_ete_for_gamma. rewrite He, HJ.
  cbv beta iota delta [ombind of_outcome item of_heap oret lift].
  destruct (@evolve_wrong_size epsilon J gamma
              (get_default (Params.k_sink params) K_SINK)
              (get_default (Params.k_loss params) K_LOSS) T dt s Hle HlJ)
    as [s' Hrun].
  rewrite Hrun. exists s'. reflexivity.
Qed.

(** X17. With fewer couplings than pairs of neighbouring sites
    [compute_ete_for_gamma] raises [IndexError] while it builds the
    Hamiltonian, before any array is stored. *)
Theorem compute_ete_for_gamma_short_J (params : Params.params)
  (gamma T dt : float) (epsilon J : list float) (s : store) :
  Params.epsilon params = Some epsilon -> Params.J params = Some J ->
  length J + 1 < length epsilon ->
  compute_ete_for_gamma np_sqrt expm params gamma T dt s =
    (s, Throw (Core IndexError)).
Proof.
  intros He HJ Hshort.
  unfold compute_ete_for_gamma, evolve. rewrite He, HJ.
  cbv beta iota delta [ombind of_outcome item of_heap oret lift mbind].
  rewrite HamiltonianFacts.build_hamiltonian_short by exact Hshort.
  reflexivity.
Qed.

(** *** [enaqt_sweep] *)

Lemma sweep_loop (params : Params.params)
  (epsilon J : list float) (k : Q) :
  Params.epsilon params = Some epsilon -> Params.J params = Some J ->
  length epsilon = NUM_ETC_SITES -> NUM_ETC_SITES - 1 <= length J ->
  get_default (Params.k_sink params) K_SINK = Fin k ->
  forall (gammas : list float) (results : list entry) (s : store),
  exists (s' : store) (etes : list float),
    ofor_each (sweep_step np_sqrt expm params TIME_END DT) gammas
      results s =
      (s', Return (results ++ map SweepSpec.entry_of (combine gammas etes)))
    /\ length etes = length gammas /\
    Forall Pred.unit_or_nan etes.
Proof.
  intros He HJ Hle HlJ Hk gammas.
  induction gammas as [| g gammas IH]; intros results s.
  - exists s, []. simpl. rewrite app_nil_r.
    split; [reflexivity |]. split; [reflexivity | constructor].
  - destruct (@compute_ete_for_gamma_value params g epsilon J k s
                He HJ Hle HlJ Hk) as [s1 [e [Hrun He1]]].
    destruct (IH (results ++ [SweepSpec.entry_of (g, e)]) s1)
      as [s' [etes [Hloop [Hlen Hall]]]].
    exists s', (e :: etes). split.
    + cbn [ofor_each]. unfold ombind at 1. unfold sweep_step at 1.
      unfold ombind at 1. rewrite Hrun. unfold oret at 1.
      unfold SweepSpec.entry_of in Hloop at 1. cbn [fst snd] in Hloop.
      rewrite Hloop. rewrite <- app_assoc. reflexivity.
    + split; [simpl; congruence | constructor; assumption].
Qed.

Lemma enaqt_sweep_value (params : Params.params) (gammas : list float)
  (epsilon J : list float) (k : Q) (s : store) :
  Params.epsilon params = Some epsilon -> Params.J params = Some J ->
  length epsilon = NUM_ETC_SITES -> NUM_ETC_SITES - 1 <= length J ->
  get_default (Params.k_sink params) K_SINK = Fin k ->
  exists (s' : store) (etes : list float),
    enaqt_sweep np_sqrt expm params gammas TIME_END DT s =
      (s', Return (map SweepSpec.entry_of (combine gammas etes))) /\
    length etes = length gammas /\
    Forall Pred.unit_or_nan etes.
Proof.
  intros He HJ Hle HlJ Hk.
  exact (@sweep_loop params epsilon J k He HJ Hle HlJ Hk gammas [] s).
Qed.

(** X18. On well-formed parameters and the configured grid (the defaults
    [T = TIME_END], [dt = DT]) [enaqt_sweep] returns one entry per dephasing
    rate, in the order of [gammas]: the entry holds that rate under
    ["gamma"] and, under ["ETE"], a value that is [nan] or lies in
    [[0, 1]].  [expm] is any function that returns an array of the shape of
    its argument. *)
Theorem enaqt_sweep_entries (params : Params.params) (gammas : list float)
  (epsilon J : list float) (k : Q) (s : store) :
  Params.epsilon params = Some epsilon -> Params.J params = Some J ->
  length epsilon = NUM_ETC_SITES -> NUM_ETC_SITES - 1 <= length J ->
  get_default (Params.k_sink params) K_SINK = Fin k ->
  exists (s' : store) (etes : list float),
    enaqt_sweep np_sqrt expm params gammas TIME_END DT s =
      (s', Return (map SweepSpec.entry_of (combine gammas etes))) /\
    length etes = length gammas /\
    Forall Pred.unit_or_nan etes.
Proof.
  exact (@enaqt_sweep_value params gammas epsilon J k s).
Qed.


(** X20. An empty list of rates gives an empty sweep whatever [params] holds;
    with a rate to run, parameters without ["epsilon"], or with it and
    without ["J"], raise [KeyError] for that key and leave the store as it
    was. *)
Theorem enaqt_sweep_missing_key (params : Params.params) (g : float)
  (gammas : list float) (T dt : float) (s : store) :
  enaqt_sweep np_sqrt expm params [] T dt s = (s, Return []) /\
  (Params.epsilon params = None ->
   enaqt_sweep np_sqrt expm params (g :: gammas) T dt s =
     (s, Throw (KeyError Keys.epsilon))) /\
  (Params.epsilon params <> None -> Params.J params = None ->
   enaqt_sweep np_sqrt expm params (g :: gammas) T dt s =
     (s, Throw (KeyError Keys.J))).
Proof.
  split; [reflexivity |].
  unfold enaqt_sweep. cbn [ofor_each].
  unfold sweep_step, compute_ete_for_gamma.
  split.
  - intros He. cbv beta iota delta [ombind of_outcome item].
    rewrite He. reflexivity.
  - intros He HJ. cbv beta iota delta [ombind of_outcome item].
    destruct (Params.epsilon params); [| congruence].
    rewrite HJ. reflexivity.
Qed.

(** *** [run_full_simulation] *)

Lemma run_full_simulation_value (params : Params.params)
  (epsilon J : list float) (gamma : float) (k : Q) (s : store) :
  Params.epsilon params = Some epsilon -> Params.J params = Some J ->
  Params.gamma params = Some gamma ->
  length epsilon = NUM_ETC_SITES -> NUM_ETC_SITES - 1 <= length J ->
  get_default (Params.k_sink params) K_SINK = Fin k ->
  exists (s' : store) (e : float) (tau : Q) (series : list ndarray)
         (times : list float),
    run_full_simulation np_sqrt expm params s =
      (s', Return (Simulation e (Fin tau) series times)) /\
    Pred.unit_or_nan e /\ (0 <= tau)%Q /\
    length series = length times /\
    Z.of_nat (length times) = 10001%Z.
Proof.
  intros He HJ Hg Hle HlJ Hk.
  unfold run_full_simulation. rewrite He, HJ, Hg, Hk.
  cbv beta iota delta [ombind of_outcome item of_heap oret lift].
  destruct (@evolve_configured epsilon J gamma (Fin k)
              (get_default (Params.k_loss params) K_LOSS) s Hle HlJ)
    as [s' [series [times [Hrun [Hlen [Hn [Hpts Hfin]]]]]]].
  rewrite Hrun. cbn [of_result fst snd]. rewrite read_all_spec.
  cbn [of_result].
  destruct (@EteFacts.compute_ete_exact (map (value s') series) SINK_INDEX
              (5 # 100)) as [P HP].
  { apply Forall_map. eapply Forall_impl; [| exact Hfin].
    intros h. apply finite_sample_sink. }
  unfold DT at 1. rewrite HP. cbn [of_result].
  destruct (@GridMore.configured_grid_sorted times Hn Hpts)
    as [ts [Hts [Hsorted Hfirst]]].
  assert (Hlen' : length (map (value s') series) = length ts).
  { rewrite length_map, Hlen, Hts, length_map. reflexivity. }
  destruct (@TauMore.compute_tau_c_finite_nonneg np_sqrt
              (map (value s') series) ts Hlen' Hsorted Hfirst)
    as [tau [Htau Htau0]].
  assert (Htau' : compute_tau_c np_sqrt (map (value s') series) times
                  = Ok (Fin tau)) by (rewrite Hts; exact Htau).
  rewrite Htau'. cbn [of_result].
  exists s'. eexists. exists tau, series, times.
  split; [reflexivity |].
  split; [right; apply EteFacts.qclip01_bounds |].
  split; [exact Htau0 |]. split; [exact Hlen | exact Hn].
Qed.

(** X21. On parameters with 7 site energies, at least 6 couplings, a
    dephasing rate and a finite sink rate, [run_full_simulation] returns.
    [ETE_instant] is [nan] or lies in [[0, 1]], [tau_c] is finite and not
    negative, and there are 10001 time points with one sample each.  [expm]
    is any function that returns an array of the shape of its argument. *)
Theorem run_full_simulation_ranges (params : Params.params)
  (epsilon J : list float) (gamma : float) (k : Q) (s : store) :
  Params.epsilon params = Some epsilon -> Params.J params = Some J ->
  Params.gamma params = Some gamma ->
  length epsilon = NUM_ETC_SITES -> NUM_ETC_SITES - 1 <= length J ->
  get_default (Params.k_sink params) K_SINK = Fin k ->
  exists (s' : store) (e : float) (tau : Q) (series : list ndarray)
         (times : list float),
    run_full_simulation np_sqrt expm params s =
      (s', Return (Simulation e (Fin tau) series times)) /\
    Pred.unit_or_nan e /\ (0 <= tau)%Q /\
    length series = length times /\
    Z.of_nat (length times) = 10001%Z.
Proof. exact (@run_full_simulation_value params epsilon J gamma k s). Qed.

End WithLibraries.

Lemma compute_ete_for_gamma_range_witness :
  exists (s' : store) (e : float),
    compute_ete_for_gamma approx_sqrt expm_taylor2
      (Params.Build (Some (repeat (Fin 0) 7))
         (Some (repeat (Fin (5 # 100)) 6)) None None None)
      (Fin (1 # 100)) TIME_END DT [] = (s', Return e) /\
    Pred.unit_or_nan e.
Proof.
  apply (@compute_ete_for_gamma_range approx_sqrt expm_taylor2
           EvolveFacts.expm_taylor2_shape
           (Params.Build (Some (repeat (Fin 0) 7))
              (Some (repeat (Fin (5 # 100)) 6)) None None None)
           (Fin (1 # 100))
           (repeat (Fin 0) 7) (repeat (Fin (5 # 100)) 6) (3 # 100) []);
    first [reflexivity | discriminate
          | simpl; unfold NUM_ETC_SITES; lia].
Defined.

Lemma compute_ete_for_gamma_wrong_size_witness :
  exists s' : store,
    compute_ete_for_gamma approx_sqrt expm_taylor2
      (Params.Build (Some (repeat (Fin 0) 3))
         (Some (repeat (Fin (5 # 100)) 2)) None None None)
      (Fin (1 # 100)) (Fin 1) (Fin (1 # 2)) [] =
    (s', Throw (Core ValueError)).
Proof.
  apply (@compute_ete_for_gamma_wrong_size approx_sqrt expm_taylor2
           (Params.Build (Some (repeat (Fin 0) 3))
              (Some (repeat (Fin (5 # 100)) 2)) None None None)
           (Fin (1 # 100)) (Fin 1) (Fin (1 # 2))
           (repeat (Fin 0) 3) (repeat (Fin (5 # 100)) 2) []);
    first [reflexivity | discriminate
          | simpl; unfold NUM_ETC_SITES; lia].
Defined.

Lemma compute_ete_for_gamma_short_J_witness :
  compute_ete_for_gamma approx_sqrt expm_taylor2
    (Params.Build (Some (repeat (Fin 0) 7))
       (Some (repeat (Fin (5 # 100)) 2)) None None None)
    (Fin (1 # 100)) (Fin 1) (Fin (1 # 2)) [] =
  ([], Throw (Core IndexError)).
Proof.
  apply (@compute_ete_for_gamma_short_J approx_sqrt expm_taylor2
           (Params.Build (Some (repeat (Fin 0) 7))
              (Some (repeat (Fin (5 # 100)) 2)) None None None)
           (Fin (1 # 100)) (Fin 1) (Fin (1 # 2))
           (repeat (Fin 0) 7) (repeat (Fin (5 # 100)) 2) []);
    first [reflexivity | discriminate
          | simpl; unfold NUM_ETC_SITES; lia].
Defined.

Lemma enaqt_sweep_entries_witness :
  exists (s' : store) (etes : list float),
    enaqt_sweep approx_sqrt expm_taylor2
      (Params.Build (Some (repeat (Fin 0) 7))
         (Some (repeat (Fin (5 # 100)) 6)) None None None)
      [Fin (1 # 100); Fin (2 # 100)] TIME_END DT [] =
      (s', Return (map SweepSpec.entry_of
                     (combine [Fin (1 # 100); Fin (2 # 100)] etes))) /\
    length etes = length [Fin (1 # 100); Fin (2 # 100)] /\
    Forall Pred.unit_or_nan etes.
Proof.
  apply (@enaqt_sweep_entries approx_sqrt expm_taylor2
           EvolveFacts.expm_taylor2_shape
           (Params.Build (Some (repeat (Fin 0) 7))
              (Some (repeat (Fin (5 # 100)) 6)) None None None)
           [Fin (1 # 100); Fin (2 # 100)]
           (repeat (Fin 0) 7) (repeat (Fin (5 # 100)) 6) (3 # 100) []);
    first [reflexivity | discriminate
          | simpl; unfold NUM_ETC_SITES; lia].
Defined.


Lemma enaqt_sweep_missing_key_witness :
  enaqt_sweep approx_sqrt expm_taylor2
    (Params.Build (Some (repeat (Fin 0) 7)) None None None None)
    [Fin (1 # 100); Fin (2 # 100)] (Fin 1) (Fin (1 # 2)) [] =
  ([], Throw (KeyError Keys.J)).
Proof.
  apply (@enaqt_sweep_missing_key approx_sqrt expm_taylor2
           (Params.Build (Some (repeat (Fin 0) 7)) None None None None)
           (Fin (1 # 100)) [Fin (2 # 100)] (Fin 1) (Fin (1 # 2)) []).
  - discriminate.
  - reflexivity.
Defined.

Lemma run_full_simulation_ranges_witness :
  exists (s' : store) (e : float) (tau : Q) (series : list ndarray)
         (times : list float),
    run_full_simulation approx_sqrt expm_taylor2
      (Params.Build (Some (repeat (Fin 0) 7))
         (Some (repeat (Fin (5 # 100)) 6)) (Some (Fin (1 # 100)))
         None None) [] =
      (s', Return (Simulation e (Fin tau) series times)) /\
    Pred.unit_or_nan e /\ (0 <= tau)%Q /\
    length series = length times /\
    Z.of_nat (length times) = 10001%Z.
Proof.
  apply (@run_full_simulation_ranges approx_sqrt expm_taylor2
           EvolveFacts.expm_taylor2_shape
           (Params.Build (Some (repeat (Fin 0) 7))
              (Some (repeat (Fin (5 # 100)) 6)) (Some (Fin (1 # 100)))
              None None)
           (repeat (Fin 0) 7) (repeat (Fin (5 # 100)) 6) (Fin (1 # 100))
           (3 # 100) []);
    first [reflexivity | discriminate
          | simpl; unfold NUM_ETC_SITES; lia].
Defined.

End DriversMore.

(** ** [mapping.py]: from z-scores to model parameters *)

Module MappingMore.

Import Config Hyper Mapping Pred.

Local Open Scope Q_scope.

(** [np.clip] of a value that is not [nan] is finite and inside the
    bounds. *)
Lemma np_clip_within (x : float) (lo hi : Q) :
  lo <= hi -> isnan x = false ->
  within lo hi (np_clip x (Fin lo) (Fin hi)).
Proof.
  intros Hlh Hx. destruct x as [a | | |]; try discriminate;
    unfold np_clip, np_maximum, np_minimum, fle, within.
  - destruct (Qle_bool a lo) eqn:E1.
    + apply Qle_bool_iff in E1.
      destruct (Qle_bool lo hi) eqn:E2; [lra |].
      exfalso. apply Qle_bool_iff in Hlh. congruence.
    + assert (lo < a).
      { apply Qnot_le_lt. intros H. apply Qle_bool_iff in H. congruence. }
      destruct (Qle_bool a hi) eqn:E2; [apply Qle_bool_iff in E2; lra | lra].
  - lra.
  - destruct (Qle_bool lo hi) eqn:E2; [lra |].
    exfalso. apply Qle_bool_iff in Hlh. congruence.
Qed.

(** [np.clip] does not decrease when its first argument grows. *)
Lemma np_clip_monotone (a b lo hi : Q) :
  lo <= hi -> a <= b ->
  fle (np_clip (Fin a) (Fin lo) (Fin hi)) (np_clip (Fin b) (Fin lo) (Fin hi))
    = true.
Proof.
  intros Hlh Hab.
  unfold np_clip, np_maximum, np_minimum, fle.
  destruct (Qle_bool a lo) eqn:Ea; destruct (Qle_bool b lo) eqn:Eb;
    try (apply Qle_bool_iff in Ea); try (apply Qle_bool_iff in Eb);
    try (assert (lo < a)
           by (apply Qnot_le_lt; intros H; apply Qle_bool_iff in H;
               congruence));
    try (assert (lo < b)
           by (apply Qnot_le_lt; intros H; apply Qle_bool_iff in H;
               congruence)).
  - destruct (Qle_bool lo hi); apply Qle_bool_iff; lra.
  - destruct (Qle_bool lo hi) eqn:E1; destruct (Qle_bool b hi) eqn:E2;
      try (apply Qle_bool_iff in E1); try (apply Qle_bool_iff in E2);
      apply Qle_bool_iff; try lra.
    exfalso. apply Qle_bool_iff in Hlh. congruence.
  - lra.
  - destruct (Qle_bool a hi) eqn:E1; destruct (Qle_bool b hi) eqn:E2;
      try (apply Qle_bool_iff in E1); try (apply Qle_bool_iff in E2);
      apply Qle_bool_iff; try lra.
    assert (hi < a)
      by (apply Qnot_le_lt; intros H'; apply Qle_bool_iff in H'; congruence).
    lra.
Qed.

Lemma coupling_not_nan (z : float) :
  isnan z = false ->
  isnan (J_BASE * (one + J_BETA * z))%float = false.
Proof. destruct z; try discriminate; reflexivity. Qed.

Lemma rate_not_nan (z : float) :
  isnan z = false ->
  isnan (GAMMA_MID * (one + GAMMA_LAM * z))%float = false.
Proof. destruct z; try discriminate; reflexivity. Qed.

Lemma map_supercomplex_to_J_within (z : float) :
  isnan z = false ->
  within (2 # 100) (8 # 100) (map_supercomplex_to_J z).
Proof.
  intros Hz. unfold map_supercomplex_to_J.
  apply np_clip_within; [lra | apply coupling_not_nan; exact Hz].
Qed.

Lemma map_redox_to_gamma_within (z : float) :
  isnan z = false ->
  within (5 # 1000) (5 # 100) (map_redox_to_gamma z).
Proof.
  intros Hz. unfold map_redox_to_gamma.
  apply np_clip_within; [lra | apply rate_not_nan; exact Hz].
Qed.

(** X22. Every z-score that is not [nan], the infinities included, is mapped to
    a coupling between [J_MIN_CLIP = 0.02] and [J_MAX_CLIP = 0.08]. *)
Theorem map_supercomplex_to_J_range (z : float) :
  isnan z = false ->
  within (2 # 100) (8 # 100) (map_supercomplex_to_J z).
Proof. exact (@map_supercomplex_to_J_within z). Qed.

Lemma map_supercomplex_to_J_range_witness :
  within (2 # 100) (8 # 100) (map_supercomplex_to_J (Fin 40)).
Proof. apply (@map_supercomplex_to_J_range (Fin 40)). reflexivity. Defined.

(** X23. Every redox z-score that is not [nan], the infinities included, is
    mapped to a dephasing rate between [GAMMA_MIN = 0.005] and
    [GAMMA_MAX = 0.05]. *)
Theorem map_redox_to_gamma_range (z : float) :
  isnan z = false ->
  within (5 # 1000) (5 # 100) (map_redox_to_gamma z).
Proof. exact (@map_redox_to_gamma_within z). Qed.

Lemma map_redox_to_gamma_range_witness :
  within (5 # 1000) (5 # 100) (map_redox_to_gamma NInf).
Proof. apply (@map_redox_to_gamma_range NInf). reflexivity. Defined.

(** X24. The dephasing rate does not decrease when the redox z-score grows. *)
Theorem map_redox_to_gamma_monotone (z1 z2 : float) :
  fle z1 z2 = true ->
  fle (map_redox_to_gamma z1) (map_redox_to_gamma z2) = true.
Proof.
  intros Hle.
  destruct z1 as [a | | |], z2 as [b | | |]; try discriminate;
    try reflexivity.
  - unfold map_redox_to_gamma. cbn [fmul fadd one GAMMA_MID GAMMA_LAM].
    apply np_clip_monotone; [unfold GAMMA_MIN, GAMMA_MAX; lra |].
    simpl in Hle. apply Qle_bool_iff in Hle. nra.
  - pose proof (@map_redox_to_gamma_within (Fin a) eq_refl) as H.
    destruct (map_redox_to_gamma (Fin a)) as [g | | |]; try contradiction.
    change (map_redox_to_gamma PInf) with (Fin (5 # 100)).
    simpl in H |- *. apply Qle_bool_iff. lra.
  - pose proof (@map_redox_to_gamma_within (Fin b) eq_refl) as H.
    destruct (map_redox_to_gamma (Fin b)) as [g | | |]; try contradiction.
    change (map_redox_to_gamma NInf) with (Fin (5 # 1000)).
    simpl in H |- *. apply Qle_bool_iff. lra.
Qed.

Lemma map_redox_to_gamma_monotone_witness :
  fle (map_redox_to_gamma (Fin (-1))) (map_redox_to_gamma (Fin 2)) = true.
Proof.
  apply (@map_redox_to_gamma_monotone (Fin (-1)) (Fin 2)). reflexivity.
Defined.

(** *** [get_params_for_sample] *)

Lemma get_params_for_sample_value (o : omics) (v1 v3 v4 : zvalue)
  (z01 z34 r : float) :
  ci_z o = Some v1 -> ciii_z o = Some v3 -> civ_z o = Some v4 ->
  ci_ciii_z o = Some z01 -> ciii_civ_z o = Some z34 -> redox_z o = Some r ->
  get_params_for_sample o =
  Return (Params.Build
            (Some (repeat (map_expression_to_epsilon v1 zero) 3 ++
                   repeat (map_expression_to_epsilon v3 zero) 3 ++
                   [map_expression_to_epsilon v4 zero]))
            (Some (repeat (map_supercomplex_to_J z01) 3 ++
                   repeat (map_supercomplex_to_J z34) 3))
            (Some (map_redox_to_gamma r)) (Some K_SINK) (Some K_LOSS)).
Proof.
  intros H1 H3 H4 H01 H34 Hr. unfold get_params_for_sample.
  rewrite H1, H3, H4, H01, H34, Hr. reflexivity.
Qed.

(** X25. The first key the omics dictionary lacks, in the order
    ['ci_z'], ['ciii_z'], ['civ_z'], ['ci_ciii_z'], ['ciii_civ_z'],
    ['redox_z'], is the one [get_params_for_sample] raises [KeyError]
    for. *)
Theorem get_params_for_sample_missing_key (o : omics) :
  (ci_z o = None ->
   get_params_for_sample o = Throw (KeyError Keys.ci_z)) /\
  (ci_z o <> None -> ciii_z o = None ->
   get_params_for_sample o = Throw (KeyError Keys.ciii_z)) /\
  (ci_z o <> None -> ciii_z o <> None -> civ_z o = None ->
   get_params_for_sample o = Throw (KeyError Keys.civ_z)) /\
  (ci_z o <> None -> ciii_z o <> None -> civ_z o <> None ->
   ci_ciii_z o = None ->
   get_params_for_sample o = Throw (KeyError Keys.ci_ciii_z)) /\
  (ci_z o <> None -> ciii_z o <> None -> civ_z o <> None ->
   ci_ciii_z o <> None -> ciii_civ_z o = None ->
   get_params_for_sample o = Throw (KeyError Keys.ciii_civ_z)) /\
  (ci_z o <> None -> ciii_z o <> None -> civ_z o <> None ->
   ci_ciii_z o <> None -> ciii_civ_z o <> None -> redox_z o = None ->
   get_params_for_sample o = Throw (KeyError Keys.redox_z)).
Proof.
  unfold get_params_for_sample.
  destruct (ci_z o), (ciii_z o), (civ_z o), (ci_ciii_z o), (ciii_civ_z o),
    (redox_z o);
    repeat split; intros; try congruence; reflexivity.
Qed.

Lemma get_params_for_sample_missing_key_witness :
  get_params_for_sample
    (Omics (Some (Scalar (Fin 0))) (Some (Scalar (Fin 0))) None
       None (Some (Fin 0)) None) = Throw (KeyError Keys.civ_z).
Proof.
  apply (@get_params_for_sample_missing_key
           (Omics (Some (Scalar (Fin 0))) (Some (Scalar (Fin 0))) None
              None (Some (Fin 0)) None));
    first [discriminate | reflexivity].
Defined.

End MappingMore.

(** ** From an omics sample to the simulation and its checks *)

Module PipelineMore.

Import Config Hyper Heap Mapping Validation Pred Drivers.

Local Open Scope Q_scope.

(** The check [0.0 <= x <= 1.0] passes exactly on the finite values of the
    unit interval. *)
Lemma unit_check (x : float) :
  fle zero x && fle x one = true <-> within 0 1 x.
Proof.
  destruct x as [q | | |]; simpl; try (split; [discriminate | tauto]).
  rewrite andb_true_iff, !Qle_bool_iff. tauto.
Qed.

Lemma unit_check_fails (x : float) :
  ~ within 0 1 x -> fle zero x && fle x one = false.
Proof.
  intros Hx. destruct (fle zero x && fle x one) eqn:E; [| reflexivity].
  exfalso. apply Hx. apply unit_check. exact E.
Qed.

Lemma mapped_gamma_check (z : float) :
  isnan z = false ->
  fle (GAMMA_MIN * Fin (9 # 10))%float (map_redox_to_gamma z)
  && fle (map_redox_to_gamma z) (GAMMA_MAX * Fin (11 # 10))%float = true.
Proof.
  intros Hz. pose proof (MappingMore.map_redox_to_gamma_within z Hz) as H.
  destruct (map_redox_to_gamma z) as [g | | |]; try contradiction.
  simpl in H |- *. apply andb_true_iff. rewrite !Qle_bool_iff. lra.
Qed.

(** X26. A dephasing rate that [map_redox_to_gamma] produced from a z-score
    other than [nan] always passes the gamma check of
    [assert_physical_ranges]: the call returns when the three other values
    are finite and in [[0, 1]], and raises [AssertionError] otherwise. *)
Theorem assert_physical_ranges_mapped_gamma (ETE tau_norm qhs z : float) :
  isnan z = false ->
  (within 0 1 ETE /\ within 0 1 tau_norm /\ within 0 1 qhs ->
   assert_physical_ranges ETE tau_norm (map_redox_to_gamma z) qhs =
     Return tt) /\
  (~ (within 0 1 ETE /\ within 0 1 tau_norm /\ within 0 1 qhs) ->
   assert_physical_ranges ETE tau_norm (map_redox_to_gamma z) qhs =
     Throw AssertionError).
Proof.
  intros Hz. unfold assert_physical_ranges.
  rewrite (mapped_gamma_check z Hz).
  split.
  - intros [H1 [H2 H3]].
    apply unit_check in H1, H2, H3. rewrite H1, H2, H3. reflexivity.
  - intros Hnot.
    destruct (fle zero ETE && fle ETE one) eqn:E1; [| reflexivity].
    destruct (fle zero tau_norm && fle tau_norm one) eqn:E2; [| reflexivity].
    destruct (fle zero qhs && fle qhs one) eqn:E3; [| reflexivity].
    exfalso. apply Hnot. rewrite <- !unit_check. auto.
Qed.

Lemma assert_physical_ranges_mapped_gamma_witness :
  assert_physical_ranges (Fin (1 # 2)) (Fin 1) (map_redox_to_gamma PInf)
    (Fin 0) = Return tt.
Proof.
  apply (@assert_physical_ranges_mapped_gamma
           (Fin (1 # 2)) (Fin 1) (Fin 0) PInf eq_refl).
  simpl. repeat split; lra.
Defined.

(** X27. The parameters [get_params_for_sample] builds from an omics
    dictionary with its six keys are parameters [run_full_simulation]
    accepts, whatever the z-scores are: the simulation returns, with an
    [ETE_instant] that is [nan] or lies in [[0, 1]], a [tau_c] that is
    finite and not negative, and 10001 time points with one sample each.
    The dephasing rate it runs with is [map_redox_to_gamma] of the redox
    z-score.  [expm] is any function that returns an array of the shape of
    its argument. *)
Theorem sample_simulation_ranges (np_sqrt : float -> float)
  (expm : matrix complex -> matrix complex)
  (expm_shape :
     forall A : matrix complex, nrows A = ncols A -> shape (expm A) = shape A)
  (o : omics) (v1 v3 v4 : zvalue) (z01 z34 r : float) (s : store) :
  ci_z o = Some v1 -> ciii_z o = Some v3 -> civ_z o = Some v4 ->
  ci_ciii_z o = Some z01 -> ciii_civ_z o = Some z34 -> redox_z o = Some r ->
  exists (params : Params.params) (s' : store) (e : float) (tau : Q)
         (series : list ndarray) (times : list float),
    get_params_for_sample o = Return params /\
    Params.gamma params = Some (map_redox_to_gamma r) /\
    run_full_simulation np_sqrt expm params s =
      (s', Return (Simulation e (Fin tau) series times)) /\
    unit_or_nan e /\ 0 <= tau /\
    length series = length times /\
    Z.of_nat (length times) = 10001%Z.
Proof.
  intros H1 H3 H4 H01 H34 Hr.
  pose proof (MappingMore.get_params_for_sample_value o H1 H3 H4 H01 H34 Hr)
    as Hparams.
  set (params := Params.Build _ _ _ _ _) in Hparams.
  destruct (@DriversMore.run_full_simulation_value np_sqrt expm expm_shape
              params _ _ _ (3 # 100) s eq_refl eq_refl eq_refl)
    as [s' [e [tau [series [times Hrun]]]]]; try reflexivity.
  exists params, s', e, tau, series, times.
  split; [exact Hparams |]. split; [reflexivity | exact Hrun].
Qed.

Lemma sample_simulation_ranges_witness :
  exists (params : Params.params) (s' : store) (e : float) (tau : Q)
         (series : list ndarray) (times : list float),
    get_params_for_sample
      (Omics (Some (Vector [Fin 1; Fin (-1)])) (Some (Scalar (Fin 0)))
         (Some (Scalar (Fin 2))) (Some (Fin 1)) (Some (Fin 0))
         (Some (Fin 0))) = Return params /\
    Params.gamma params = Some (map_redox_to_gamma (Fin 0)) /\
    run_full_simulation approx_sqrt expm_taylor2 params [] =
      (s', Return (Simulation e (Fin tau) series times)) /\
    unit_or_nan e /\ 0 <= tau /\
    length series = length times /\
    Z.of_nat (length times) = 10001%Z.
Proof.
  apply (@sample_simulation_ranges approx_sqrt expm_taylor2
           EvolveFacts.expm_taylor2_shape
           (Omics (Some (Vector [Fin 1; Fin (-1)])) (Some (Scalar (Fin 0)))
              (Some (Scalar (Fin 2))) (Some (Fin 1)) (Some (Fin 0))
              (Some (Fin 0)))
           (Vector [Fin 1; Fin (-1)]) (Scalar (Fin 0)) (Scalar (Fin 2))
           (Fin 1) (Fin 0) (Fin 0) []); reflexivity.
Defined.

End PipelineMore.
